(** * goamt: the job-tracking store, its recovery pass, the worker pool's
      shutdown and the sampled content fingerprint.

    A shallow embedding of the Go sources of [github.com/jamesl33/goamt]:
    - package [utils]: [HashFile], [hashReader], [PathExists],
      [ReplaceExtension];
    - package [value]: [Entry] and the two extensions;
    - package [version]: [DatabaseVersion.Supported];
    - package [utils/sqlite]: [QueryRow], [QueryRows], [ExecuteQuery];
    - package [database]: the store, its transactions, the recovery pass;
    - package [cmd]: the worker pool's [Stop] and its drain functions.

    Conventions.  A [uint32] is a [Z] in [0, 2^32); an [int64] time stamp is
    a [Z]; a nullable column ([*int64]) is an [option Z].  File contents are
    [list byte].  The file system is a finite map from paths to contents.
    The SQLite tables are lists of rows in rowid order.  Every SQL statement
    of the source is modelled by a function that either fails, leaving the
    tables as they were, or returns the new tables.  [time.Now().Unix()] is
    an explicit argument [now]. *)

From Stdlib Require Import ZArith List Bool Ascii String Lia Sorted.
From Stdlib.Strings Require Import Byte.
From stdpp Require Import gmap strings list.

Import ListNotations.
Local Open Scope Z_scope.

(** ** Errors

    The source wraps errors with [errors.Wrap]; [errors.Is] looks through
    the wrapping, so an error is modelled by its cause. *)

Inductive error : Type :=
  | ErrQueryReturnedNoRows          (* sqlite.ErrQueryReturnedNoRows *)
  | ErrUnique                       (* SQLite: UNIQUE constraint failed *)
  | ErrForeignKey                   (* SQLite: FOREIGN KEY constraint failed *)
  | ErrNotExist (path : string)     (* os: no such file or directory *)
  | ErrRead                         (* "failed to read from hash file" *)
  | ErrSeek                         (* "failed to seek to next offset" *)
  | ErrNotFound                     (* database.ErrNotFound *)
  | ErrUnknownVersion               (* database.ErrUnknownVersion *)
  | ErrOther (msg : string).        (* any other failure, e.g. of a worker *)

Definition result (A : Type) : Type := (error + A)%type.

(** ** Content fingerprint (package utils) *)

Module Hash.

Definition BufferSize : Z := 4096.
Definition MaxSeekSize : Z := 64 * 1024 * 1024.

(** [crc32.IEEE], the reversed polynomial. *)
Definition IEEE : Z := 0xedb88320.

Definition byteZ (b : byte) : Z := Z.of_N (Byte.to_N b).

(** The inner loop of [crc32.simpleMakeTable]: eight shift-and-xor steps. *)
Fixpoint tableSteps (j : nat) (poly crc : Z) : Z :=
  match j with
  | O => crc
  | S j' =>
      tableSteps j' poly
        (if Z.testbit crc 0 then Z.lxor (Z.shiftr crc 1) poly
         else Z.shiftr crc 1)
  end.

(** [table[i]] of [crc32.MakeTable(crc32.IEEE)]. *)
Definition table (i : Z) : Z := tableSteps 8 IEEE i.

(** [^x] on a [uint32]. *)
Definition not32 (x : Z) : Z := Z.lxor x 0xffffffff.

(** [crc32.Update(crc, table, p)]:
    [crc = ^crc; for v in p { crc = tab[byte(crc)^v] ^ (crc >> 8) }; ^crc]. *)
Definition updateByte (crc : Z) (v : byte) : Z :=
  Z.lxor (table (Z.lxor (Z.land crc 0xff) (byteZ v))) (Z.shiftr crc 8).

Definition Update (crc : Z) (p : list byte) : Z :=
  not32 (fold_left updateByte p (not32 crc)).

(** An [io.ReadSeeker] over a regular file: the contents and the offset.
    Seeking past the end is allowed; reading there returns [0, io.EOF]. *)
Record Reader : Type := mkReader { contents : list byte; offset : Z }.

Inductive ioerr : Type := EOF.

(** [reader.Read(buffer[:])]: the bytes read, the error, the reader after. *)
Definition Read (r : Reader) : list byte * option ioerr * Reader :=
  if Z.of_nat (length (contents r)) <=? offset r then ([], Some EOF, r)
  else
    let chunk :=
      take (Z.to_nat BufferSize) (drop (Z.to_nat (offset r)) (contents r)) in
    (chunk, None,
     mkReader (contents r) (offset r + Z.of_nat (length chunk))).

(** [reader.Seek(n, io.SeekCurrent)]: fails on a negative resulting offset. *)
Definition Seek (r : Reader) (n : Z) : result Reader :=
  if offset r + n <? 0 then inl ErrSeek
  else inr (mkReader (contents r) (offset r + n)).

(** The loop of [hashReader]; [fuel] bounds the number of iterations and
    [None] means that the bound was reached. *)
Fixpoint hashLoop (fuel : nat) (r : Reader) (digest : Z)
  : option (result Z) :=
  match fuel with
  | O => None
  | S fuel' =>
      let '(buffer, err, r1) := Read r in
      match err with
      | Some _ =>
          if (length buffer =? 0)%nat then Some (inr digest)
          else Some (inl ErrRead)
      | None =>
          let digest' := Update digest buffer in
          match Seek r1 (digest' mod MaxSeekSize) with
          | inl e => Some (inl e)
          | inr r2 => hashLoop fuel' r2 digest'
          end
      end
  end.

(** Every iteration but the last advances the offset by at least one
    byte, so [S (length data)] iterations are enough (see
    [hashLoop_terminates]). *)
Definition hashReaderOpt (data : list byte) : option (result Z) :=
  hashLoop (S (length data)) (mkReader data 0) 0.

Definition hashReader (data : list byte) : result Z :=
  match hashReaderOpt data with
  | Some r => r
  | None => inl ErrRead
  end.

End Hash.

(** ** Paths and the file system (packages utils and os) *)

Module Fs.

(** The loop of [filepath.Ext]:
    [for i := len(path)-1; i >= 0 && !IsPathSeparator(path[i]); i--
       { if path[i] == '.' { return path[i:] } }], else the empty string.
    The counter [n] is [i+1]. *)
Fixpoint extLoop (n : nat) (path : string) : string :=
  match n with
  | O => EmptyString
  | S i =>
      match String.get i path with
      | Some c =>
          if Ascii.eqb c "/" then EmptyString
          else if Ascii.eqb c "."
               then String.substring i (String.length path - i) path
               else extLoop i path
      | None => EmptyString
      end
  end.

Definition Ext (path : string) : string := extLoop (String.length path) path.

(** [strings.HasSuffix] and [strings.TrimSuffix]. *)
Definition HasSuffix (s suffix : string) : bool :=
  (String.length suffix <=? String.length s)%nat &&
  String.eqb
    (String.substring (String.length s - String.length suffix)
       (String.length suffix) s)
    suffix.

Definition TrimSuffix (s suffix : string) : string :=
  if HasSuffix s suffix
  then String.substring 0 (String.length s - String.length suffix) s
  else s.

(** [value.TargetExtension] and [value.TranscodingExtension]. *)
Definition TargetExtension : string := ".mp4".
Definition TranscodingExtension : string :=
  String.append ".transcoding" TargetExtension.

(** [utils.ReplaceExtension]. *)
Definition ReplaceExtension (path extension : string) : string :=
  String.append (TrimSuffix path (Ext path)) extension.

(** The file system: regular files only, a path names at most one file. *)
Abbreviation FS := (gmap string (list byte)).

(** [utils.PathExists]: [os.Stat] succeeds. *)
Definition PathExists (fs : FS) (path : string) : bool :=
  match fs !! path with Some _ => true | None => false end.

(** [os.Rename]: fails with a not-exist error when [old] is missing,
    otherwise moves the file, replacing a file at [new]. *)
Definition Rename (old new : string) (fs : FS) : result FS :=
  match fs !! old with
  | None => inl (ErrNotExist old)
  | Some c => inr (<[new := c]> (delete old fs))
  end.

(** [os.Remove]: fails with a not-exist error when the file is missing. *)
Definition Remove (path : string) (fs : FS) : result FS :=
  match fs !! path with
  | None => inl (ErrNotExist path)
  | Some _ => inr (delete path fs)
  end.

(** [os.IsNotExist]. *)
Definition IsNotExist (e : error) : bool :=
  match e with ErrNotExist _ => true | _ => false end.

(** [utils.HashFile]: open the file, then [hashReader]. *)
Definition HashFile (fs : FS) (path : string) : result Z :=
  match fs !! path with
  | None => inl (ErrNotExist path)
  | Some data => Hash.hashReader data
  end.

End Fs.

(** ** Rows (package value and the schema of [database.Create]) *)

(** [value.Entry]; a row of the [library] table has the same columns:
    [id integer primary key autoincrement, path text not null unique,
     discovered integer not null, transcoded integer, hash integer unique,
     unique (path, hash)]. *)
Record Entry : Type := mkEntry {
  ID : Z;
  Path : string;
  Discovered : Z;
  Transcoded : option Z;
  Hash : Z
}.

(** A row of the [jobs] table:
    [id integer primary key autoincrement,
     library_id integer not null unique, start_time integer not null,
     foreign key (library_id) references library (id)]. *)
Record Job : Type := mkJob {
  job_id : Z;
  library_id : Z;
  start_time : Z
}.

(** The persisted tables.  [library_seq] and [jobs_seq] are the
    [sqlite_sequence] counters of the two autoincrement keys: the largest
    rowid ever handed out, so that an identifier is never reused. *)
Record Tables : Type := mkTables {
  library : list Entry;
  library_seq : Z;
  jobs : list Job;
  jobs_seq : Z
}.

Definition emptyTables : Tables := mkTables [] 0 [] 0.

(** The entry with its [Path] field assigned. *)
Definition withPath (entry : Entry) (path : string) : Entry :=
  mkEntry (ID entry) path (Discovered entry) (Transcoded entry) (Hash entry).

Definition job_refs (t : Tables) : list Z := map library_id (jobs t).

Definition has_job (id : Z) (t : Tables) : bool :=
  existsb (fun j => library_id j =? id) (jobs t).

(** ** The SQL statements of package database

    Each statement is atomic: it fails without effect or returns the new
    tables.  Foreign keys are enforced, as [Create] and [Open] ask with
    [pragma foreign_keys=on]. *)

Module Sql.

(** A transaction body: statements threaded through the tables, stopping
    at the first failure. *)
Definition Tx (A : Type) : Type := Tables -> result (A * Tables).

Definition ret {A} (a : A) : Tx A := fun t => inr (a, t).

Definition bind {A B} (m : Tx A) (k : A -> Tx B) : Tx B :=
  fun t => match m t with
           | inl e => inl e
           | inr (a, t') => k a t'
           end.

Definition exec (stmt : Tables -> result Tables) : Tx unit :=
  fun t => match stmt t with
           | inl e => inl e
           | inr t' => inr (tt, t')
           end.

(** [insert into jobs (library_id, start_time) values (?, ?);] *)
Definition insertJob (lib_id start : Z) (t : Tables) : result Tables :=
  if has_job lib_id t then inl ErrUnique
  else if negb (existsb (fun r => ID r =? lib_id) (library t))
       then inl ErrForeignKey
       else inr (mkTables (library t) (library_seq t)
                   (jobs t ++ [mkJob (jobs_seq t + 1) lib_id start])
                   (jobs_seq t + 1)).

(** [delete from jobs where library_id = ?;] *)
Definition deleteJob (lib_id : Z) (t : Tables) : result Tables :=
  inr (mkTables (library t) (library_seq t)
         (List.filter (fun j => negb (library_id j =? lib_id)) (jobs t))
         (jobs_seq t)).

(** [delete from library where id = ?;] *)
Definition deleteEntry (id : Z) (t : Tables) : result Tables :=
  if existsb (fun r => ID r =? id) (library t) && has_job id t
  then inl ErrForeignKey
  else inr (mkTables
              (List.filter (fun r => negb (ID r =? id)) (library t))
              (library_seq t) (jobs t) (jobs_seq t)).

(** The [where] clause of the query of [BeginTranscoding]:
    [transcoded is null and id not in (select library_id from jobs)]. *)
Definition eligible (t : Tables) (r : Entry) : bool :=
  match Transcoded r with
  | None => negb (has_job (ID r) t)
  | Some _ => false
  end.

(** [order by discovered asc limit 1]: the first row, in table order,
    among those with the least discovery time. *)
Fixpoint oldest (rows : list Entry) : option Entry :=
  match rows with
  | [] => None
  | r :: rest =>
      match oldest rest with
      | Some r' => if Discovered r' <? Discovered r then Some r' else Some r
      | None => Some r
      end
  end.

(** [select library.id, path, hash from library where transcoded is null
     and id not in (select library_id from jobs)
     order by discovered asc limit 1;] through [sqlite.QueryRow], which
    fails with [ErrQueryReturnedNoRows] when there is no row.  Only the
    three selected columns are scanned into the entry. *)
Definition selectUntranscoded : Tx Entry :=
  fun t => match oldest (List.filter (eligible t) (library t)) with
           | None => inl ErrQueryReturnedNoRows
           | Some r => inr (mkEntry (ID r) (Path r) 0 None (Hash r), t)
           end.

(** [update library set path = ?, transcoded = ?, hash = ? where id = ?;]
    The update aborts when another row holds the new path or the new hash. *)
Definition updateEntry (path : string) (transcoded : option Z) (hash id : Z)
    (t : Tables) : result Tables :=
  if existsb (fun r => ID r =? id) (library t) &&
     existsb (fun r => negb (ID r =? id) &&
                       (String.eqb (Path r) path || (Hash r =? hash)))
       (library t)
  then inl ErrUnique
  else inr (mkTables
              (map (fun r => if ID r =? id
                             then mkEntry (ID r) path (Discovered r)
                                    transcoded hash
                             else r) (library t))
              (library_seq t) (jobs t) (jobs_seq t)).

(** [insert or replace into library (path, discovered, transcoded, hash)
     values (?, ?, ?, ?)
     on conflict(hash) do update set path=excluded.path
     where path != excluded.path;]

    SQLite checks the conflict target of the upsert clause first.  When a
    row holds the incoming hash the insert is dropped and that row is
    updated instead: its path is set to the incoming path if the two
    differ, under [abort] conflict resolution; no other column is written.
    Otherwise the [or replace] resolution applies to the remaining
    uniqueness constraints: rows holding the incoming path are deleted
    (which the foreign key of [jobs] forbids when a job refers to one of
    them) and the incoming row is inserted with a fresh identifier.
    The rowid of the insert is drawn before the conflict is found, so the
    autoincrement counter advances in every successful run, also when no
    row is inserted. *)
Definition upsertEntry (path : string) (discovered : Z)
    (transcoded : option Z) (hash : Z) (t : Tables) : result Tables :=
  match List.find (fun r => Hash r =? hash) (library t) with
  | Some old =>
      if String.eqb (Path old) path
      then inr (mkTables (library t) (library_seq t + 1) (jobs t) (jobs_seq t))
      else if existsb (fun r => String.eqb (Path r) path) (library t)
           then inl ErrUnique
           else inr (mkTables
                       (map (fun r => if ID r =? ID old
                                      then withPath r path else r)
                          (library t))
                       (library_seq t + 1) (jobs t) (jobs_seq t))
  | None =>
      if existsb (fun r => String.eqb (Path r) path && has_job (ID r) t)
           (library t)
      then inl ErrForeignKey
      else inr (mkTables
                  (List.filter (fun r => negb (String.eqb (Path r) path))
                     (library t)
                   ++ [mkEntry (library_seq t + 1) path discovered
                         transcoded hash])
                  (library_seq t + 1) (jobs t) (jobs_seq t))
  end.

(** The rows of [jobs] as a scan of the unique index on [library_id]
    visits them: by increasing [library_id] (rows of equal key, which the
    constraint excludes, in table order). *)
Fixpoint insertByLibraryId (j : Job) (sorted : list Job) : list Job :=
  match sorted with
  | [] => [j]
  | k :: rest =>
      if library_id j <=? library_id k then j :: k :: rest
      else k :: insertByLibraryId j rest
  end.

Definition jobsByLibraryId (js : list Job) : list Job :=
  fold_right insertByLibraryId [] js.

(** [select library.id, path, discovered, transcoded, hash from jobs
     inner join library on jobs.library_id = library.id].
    There is no [order by]: SQLite answers the join with a scan of [jobs]
    through the covering index of [library_id unique] and a lookup of each
    [library] row by its key, so the rows come by increasing [library_id],
    not in the order in which the jobs were added. *)
Definition selectIncompleteJobs (t : Tables) : list Entry :=
  flat_map (fun j => List.filter (fun r => ID r =? library_id j) (library t))
    (jobsByLibraryId (jobs t)).

End Sql.

Declare Scope tx_scope.
Delimit Scope tx_scope with tx.
Notation "'let*' x ':=' m 'in' k" := (Sql.bind m (fun x => k))
  (at level 10, x name, m at level 100, k at level 200) : tx_scope.

(** ** The store handle and its operations (package database) *)

(** [database.Database]: the connection (here, the tables it reads and
    writes) and the count of finished transactions.  The mutex held by
    [wrapTransaction] makes every operation below atomic, so concurrent
    callers are modelled by interleaving whole operations. *)
Record Database : Type := mkDatabase {
  tables : Tables;
  txns : Z
}.

Definition ok : result unit := inr tt.

(** [wrapTransaction]: run the callback in a transaction, commit when it
    succeeds, roll back when it fails. *)
Definition wrapTransaction {A} (callback : Sql.Tx A) (d : Database)
  : result A * Database :=
  match callback (tables d) with
  | inr (a, t') => (inr a, mkDatabase t' (txns d + 1))
  | inl e => (inl e, mkDatabase (tables d) (txns d + 1))
  end.

(** [Create]: a new store with both tables empty. *)
Definition Create : Database := mkDatabase emptyTables 0.

Definition addJob (now : Z) (entry : Entry) : Sql.Tx unit :=
  Sql.exec (Sql.insertJob (ID entry) now).

Definition removeJob (entry : Entry) : Sql.Tx unit :=
  Sql.exec (Sql.deleteJob (ID entry)).

Definition Upsert (entry : Entry) (d : Database) : result unit * Database :=
  wrapTransaction
    (Sql.exec (Sql.upsertEntry (Path entry) (Discovered entry)
                 (Transcoded entry) (Hash entry))) d.

Definition Remove (entry : Entry) (d : Database) : result unit * Database :=
  wrapTransaction
    (let* _ := removeJob entry in
     Sql.exec (Sql.deleteEntry (ID entry)))%tx d.

Definition BeginTranscoding (now : Z) (d : Database)
  : result Entry * Database :=
  wrapTransaction
    (let* entry := Sql.selectUntranscoded in
     let* _ := addJob now entry in
     Sql.ret entry)%tx d.

Definition CompleteTranscoding (fs : Fs.FS) (now : Z) (entry : Entry)
    (d : Database) : result unit * Database :=
  match Fs.HashFile fs (Path entry) with
  | inl e => (inl e, d)
  | inr hash =>
      wrapTransaction
        (let* _ := Sql.exec (Sql.updateEntry (Path entry) (Some now) hash
                               (ID entry)) in
         removeJob entry)%tx d
  end.

Definition cancelTranscoding (entry : Entry) (shouldLog : bool)
    (d : Database) : result unit * Database :=
  wrapTransaction (removeJob entry) d.

Definition CancelTranscoding (entry : Entry) (d : Database)
  : result unit * Database :=
  cancelTranscoding entry true d.

(** ** The recovery pass *)

(** [completeIncompleteJob]. *)
Definition completeIncompleteJob (now : Z) (entry : Entry)
    (fs : Fs.FS) (d : Database) : result unit * Fs.FS * Database :=
  let finish (fs1 : Fs.FS) :=
    let '(r, d') :=
      CompleteTranscoding fs1 now
        (withPath entry (Fs.ReplaceExtension (Path entry) Fs.TargetExtension))
        d in
    (r, fs1, d') in
  match Fs.Rename (Fs.ReplaceExtension (Path entry) Fs.TranscodingExtension)
          (Fs.ReplaceExtension (Path entry) Fs.TargetExtension) fs with
  | inl e => if Fs.IsNotExist e then finish fs else (inl e, fs, d)
  | inr fs1 => finish fs1
  end.

(** [rollbackIncompleteJob]. *)
Definition rollbackIncompleteJob (entry : Entry)
    (fs : Fs.FS) (d : Database) : result unit * Fs.FS * Database :=
  let finish (fs1 : Fs.FS) :=
    let '(r, d') := cancelTranscoding entry false d in (r, fs1, d') in
  match Fs.Remove
          (String.append (Fs.TrimSuffix (Path entry) (Fs.Ext (Path entry)))
             Fs.TranscodingExtension) fs with
  | inl e => if Fs.IsNotExist e then finish fs else (inl e, fs, d)
  | inr fs1 => finish fs1
  end.

(** The test of the callback of [recoverIncompleteJobs]:
    [(err == nil && hash != entry.Hash) || (!PathExists(entry.Path) &&
      PathExists(ReplaceExtension(entry.Path, TranscodingExtension)))]. *)
Definition looksCompleted (fs : Fs.FS) (entry : Entry) : bool :=
  match Fs.HashFile fs (Path entry) with
  | inr hash => negb (hash =? Hash entry)
  | inl _ => false
  end
  || (negb (Fs.PathExists fs (Path entry)) &&
      Fs.PathExists fs
        (Fs.ReplaceExtension (Path entry) Fs.TranscodingExtension)).

(** The callback of [recoverIncompleteJobs], run on one scanned row. *)
Definition recoverJob (now : Z) (entry : Entry)
    (fs : Fs.FS) (d : Database) : result unit * Fs.FS * Database :=
  if looksCompleted fs entry then completeIncompleteJob now entry fs d
  else rollbackIncompleteJob entry fs d.

(** The loop of [sqlite.QueryRows]: the callback runs on each row in turn
    and the first failure ends the loop.  [clock i] is the time read while
    the [i]-th row is handled. *)
Fixpoint forRows (clock : nat -> Z) (i : nat) (rows : list Entry)
    (fs : Fs.FS) (d : Database) : result unit * Fs.FS * Database :=
  match rows with
  | [] => (ok, fs, d)
  | entry :: rest =>
      match recoverJob (clock i) entry fs d with
      | (inl e, fs', d') => (inl e, fs', d')
      | (inr _, fs', d') => forRows clock (S i) rest fs' d'
      end
  end.

(** [sqlite.QueryRows] on the rows of the join, read as of the start of the
    query: a query without rows fails with [ErrQueryReturnedNoRows]. *)
Definition QueryRows (clock : nat -> Z) (rows : list Entry)
    (fs : Fs.FS) (d : Database) : result unit * Fs.FS * Database :=
  match rows with
  | [] => (inl ErrQueryReturnedNoRows, fs, d)
  | _ => forRows clock 0 rows fs d
  end.

(** [recoverIncompleteJobs]: [ErrQueryReturnedNoRows] is not a failure. *)
Definition recoverIncompleteJobs (clock : nat -> Z)
    (fs : Fs.FS) (d : Database) : result unit * Fs.FS * Database :=
  match QueryRows clock (Sql.selectIncompleteJobs (tables d)) fs d with
  | (inl ErrQueryReturnedNoRows, fs', d') => (ok, fs', d')
  | other => other
  end.

(** [version.DatabaseVersion.Supported]. *)
Definition Supported (v : Z) : bool := negb (v =? 0) && (v <=? 1).

(** What is persisted at the location of a store: the [user_version]
    pragma and the tables. *)
Record Stored : Type := mkStored {
  user_version : Z;
  stored : Tables
}.

(** [Open]: the handle (or the failure), the file system and the persisted
    store when it returns. *)
Definition Open (clock : nat -> Z) (fs : Fs.FS) (file : option Stored)
  : result Database * Fs.FS * option Stored :=
  match file with
  | None => (inl ErrNotFound, fs, None)
  | Some st =>
      if negb (Supported (user_version st))
      then (inl ErrUnknownVersion, fs, file)
      else
        match recoverIncompleteJobs clock fs (mkDatabase (stored st) 0) with
        | (inl e, fs', d') =>
            (inl e, fs', Some (mkStored (user_version st) (tables d')))
        | (inr _, fs', d') =>
            (inr d', fs', Some (mkStored (user_version st) (tables d')))
        end
  end.

(** ** The worker pool (package cmd) *)

Module Pool.

(** [cmd.cancelTranscoding], the drain of a transcode pool. *)
Definition cancelTranscoding (d : Database) (entry : Entry)
  : result unit * Database :=
  CancelTranscoding entry d.

(** The drain of an update pool: [func(_, _) error { return nil }]. *)
Definition noDrain (d : Database) (entry : Entry) : result unit * Database :=
  (ok, d).

(** [Pool], as [Stop] finds it once [close(p.entryStream)] and [p.wg.Wait()]
    have returned: no worker runs any more, [entryStream] holds the entries
    that were queued and never received, [errorStream] the failures that the
    workers reported and that nobody has received yet, oldest first. *)
Record Pool : Type := mkPool {
  entryStream : list Entry;
  errorStream : list error;
  drain : Database -> Entry -> result unit * Database
}.

Definition NewUpdatePool (queued : list Entry) (errors : list error) : Pool :=
  mkPool queued errors noDrain.

Definition NewTranscodePool (queued : list Entry) (errors : list error)
  : Pool :=
  mkPool queued errors cancelTranscoding.

(** [for entry := range p.entryStream { err := p.drain(p.db, entry);
      if err != nil { return err } }; return nil]. *)
Fixpoint drainAll (drain : Database -> Entry -> result unit * Database)
    (queue : list Entry) (d : Database) : result unit * Database :=
  match queue with
  | [] => (ok, d)
  | entry :: rest =>
      match drain d entry with
      | (inl e, d') => (inl e, d')
      | (inr _, d') => drainAll drain rest d'
      end
  end.

(** [Stop], after the workers have finished:
    [if len(p.errorStream) != 0 { return <-p.errorStream }], else drain. *)
Definition Stop (p : Pool) (d : Database) : result unit * Database :=
  match errorStream p with
  | e :: _ => (inl e, d)
  | [] => drainAll (drain p) (entryStream p) d
  end.

End Pool.

(** ** Traces of store operations *)

(** The operations a client of the store can run.  Each is atomic (it runs
    under the lock of [wrapTransaction]), so the states that concurrent
    workers can reach are those reached by some sequence of them. *)
Inductive Op : Type :=
  | OpUpsert (entry : Entry)
  | OpRemove (entry : Entry)
  | OpBegin (now : Z)
  | OpComplete (fs : Fs.FS) (now : Z) (entry : Entry)
  | OpCancel (entry : Entry)
  | OpAddJob (now : Z) (entry : Entry)
  | OpRecover (clock : nat -> Z) (fs : Fs.FS).

Definition apply_op (op : Op) (d : Database) : Database :=
  match op with
  | OpUpsert entry => snd (Upsert entry d)
  | OpRemove entry => snd (Remove entry d)
  | OpBegin now => snd (BeginTranscoding now d)
  | OpComplete fs now entry => snd (CompleteTranscoding fs now entry d)
  | OpCancel entry => snd (CancelTranscoding entry d)
  | OpAddJob now entry => snd (wrapTransaction (addJob now entry) d)
  | OpRecover clock fs => snd (recoverIncompleteJobs clock fs d)
  end.

Definition run (ops : list Op) (d : Database) : Database :=
  fold_left (fun d op => apply_op op d) ops d.

Inductive reachable : Database -> Prop :=
  | reach_Create : reachable Create
  | reach_op (op : Op) (d : Database) :
      reachable d -> reachable (apply_op op d).

(** Does the operation delete, or may it delete, the job of entry [id]? *)
Definition releases (id : Z) (op : Op) : bool :=
  match op with
  | OpRemove entry | OpComplete _ _ entry | OpCancel entry => ID entry =? id
  | OpRecover _ _ => true
  | OpUpsert _ | OpBegin _ | OpAddJob _ _ => false
  end.


(** A statement, or a transaction body, preserves a predicate on the tables
    when every successful run of it does. *)
Definition stmt_preserves (P : Tables -> Prop)
    (stmt : Tables -> result Tables) : Prop :=
  forall t t', stmt t = inr t' -> P t -> P t'.

Definition tx_preserves (P : Tables -> Prop) {A} (m : Sql.Tx A) : Prop :=
  forall t a t', m t = inr (a, t') -> P t -> P t'.

(** At most one open job per entry: the [unique] constraint on
    [jobs.library_id]. *)
Definition jobs_unique (t : Tables) : Prop := List.NoDup (job_refs t).

Definition open_jobs (id : Z) (t : Tables) : nat :=
  length (List.filter (fun j => library_id j =? id) (jobs t)).

(** The job row and the tables after a successful claim of row [r]. *)
Definition claimed (now : Z) (r : Entry) (d : Database) : Database :=
  mkDatabase
    (mkTables (library (tables d)) (library_seq (tables d))
       (jobs (tables d) ++ [mkJob (jobs_seq (tables d) + 1) (ID r) now])
       (jobs_seq (tables d) + 1))
    (txns d + 1).

(** The store of the test [TestDatabaseBeginTranscodingOldestEntry], and
    the same two entries upserted in the other order. *)
Definition two_pending_a : Database :=
  run [OpUpsert (mkEntry 0 "test.avi" 32 None 64);
       OpUpsert (mkEntry 0 "test.mp4" 8 None 16)] Create.

Definition two_pending_b : Database :=
  run [OpUpsert (mkEntry 0 "test.mp4" 8 None 16);
       OpUpsert (mkEntry 0 "test.avi" 32 None 64)] Create.

(** Stores used as examples: a transcoded entry alone, and two entries. *)
Definition one_transcoded : Database :=
  run [OpUpsert (mkEntry 0 "test.mp4" 8 (Some 0) 32)] Create.

Definition two_entries : Database :=
  run [OpUpsert (mkEntry 0 "a.mkv" 8 (Some 0) 32);
       OpUpsert (mkEntry 0 "b.mkv" 9 (Some 1) 64)] Create.

(** [drained drain queue d d']: applying [drain] to the entries of [queue]
    in order, starting from [d], succeeds on each of them and ends in [d']. *)
Inductive drained (drain : Database -> Entry -> result unit * Database)
  : list Entry -> Database -> Database -> Prop :=
  | drained_nil (d : Database) : drained drain [] d d
  | drained_cons (entry : Entry) (rest : list Entry) (d d1 d' : Database) :
      drain d entry = (ok, d1) ->
      drained drain rest d1 d' ->
      drained drain (entry :: rest) d d'.

(** The names of the two artifacts of an entry: the transcoder's output
    and its final name. *)
Definition intermediate (entry : Entry) : string :=
  Fs.ReplaceExtension (Path entry) Fs.TranscodingExtension.

Definition final (entry : Entry) : string :=
  Fs.ReplaceExtension (Path entry) Fs.TargetExtension.

(** The file system once the intermediate artifact, if there is one, has
    been renamed to the final name. *)
Definition finalized (entry : Entry) (fs : Fs.FS) : Fs.FS :=
  match fs !! intermediate entry with
  | Some c => <[final entry := c]> (delete (intermediate entry) fs)
  | None => fs
  end.

(** The tables once the row [id] has been given a path, a completion time
    and a hash, and its job has been deleted. *)
Definition completed (path : string) (now hash id : Z) (t : Tables) : Tables :=
  mkTables
    (map (fun r => if ID r =? id
                   then mkEntry (ID r) path (Discovered r) (Some now) hash
                   else r) (library t))
    (library_seq t)
    (List.filter (fun j => negb (library_id j =? id)) (jobs t))
    (jobs_seq t).

(** The tables once the job of the row [id] has been deleted. *)
Definition cancelled (id : Z) (t : Tables) : Tables :=
  mkTables (library t) (library_seq t)
    (List.filter (fun j => negb (library_id j =? id)) (jobs t))
    (jobs_seq t).

(** Does the update of [CompleteTranscoding] violate a uniqueness
    constraint: the row exists and another row holds the path or the hash? *)
Definition update_conflicts (path : string) (hash id : Z) (t : Tables) : bool :=
  existsb (fun r => ID r =? id) (library t) &&
  existsb (fun r => negb (ID r =? id) &&
                    (String.eqb (Path r) path || (Hash r =? hash)))
    (library t).

(** A store left by a crash: the source of the entry was edited, and there
    is neither an intermediate nor a final artifact. *)
Definition crashed_store : Stored :=
  mkStored 1
    (tables (run [OpUpsert (mkEntry 0 "test.avi" 42 None 7); OpBegin 100]
               Create)).

Definition crashed_files : Fs.FS :=
  {[ "test.avi" := [x30] ]}.

(** A store left by a crash after the transcoder had finished. *)
Definition transcoded_files : Fs.FS :=
  {[ "test.transcoding.mp4" := [x30] ]}.

(** The set-up of the tests of package database:
    [createAndPopulate] upserts the entries into a new store and adds a job
    for each listed identifier; the test files hold their index in the list
    as a decimal digit. *)
Definition createAndPopulate (entries : list Entry) (job_ids : list Z)
  : Database :=
  run (map OpUpsert entries ++
       map (fun id => OpAddJob 100 (mkEntry id EmptyString 0 None 0)) job_ids)
    Create.

Definition digit_file (index : nat) : list byte :=
  match index with
  | O => [x30]
  | _ => [x31]
  end.

Definition test_files (names : list string) : Fs.FS :=
  list_to_map (imap (fun index name => (name, digit_file index)) names).

(** [hash([]byte("0"))] and [hash([]byte("old_contents"))] of
    [TestOpenRecoverIncompleteJobs]. *)
Definition hash_0 : Z := Hash.Update 0 [x30].
Definition hash_old : Z :=
  Hash.Update 0 (list_byte_of_string "old_contents").

(** Reopen the populated store on the given files; the outcome is the
    failure if any, the files and the tables left behind. *)
Definition reopen (entries : list Entry) (job_ids : list Z)
    (names : list string) : option error * Fs.FS * option Tables :=
  let '(r, fs, file) :=
    Open (fun _ => 200) (test_files names)
      (Some (mkStored 1 (tables (createAndPopulate entries job_ids)))) in
  (match r with inl e => Some e | inr _ => None end, fs,
   option_map stored file).

(** * Further definitions *)

(** No dot and no separator after position [i] of [s]: what holds of the
    position at which [filepath.Ext] cuts. *)
Definition plain_after (i : nat) (s : string) : Prop :=
  forall j, (i < j < String.length s)%nat ->
            String.get j s <> Some "."%char /\ String.get j s <> Some "/"%char.

(** The constraints that the schema of [Create] declares, as a predicate
    on the tables: the three uniqueness constraints of [library], the
    uniqueness of [jobs.library_id] and of [jobs.id], the foreign key from
    [jobs] to [library], and the autoincrement counters bounding the
    identifiers handed out so far. *)
Record store_ok (t : Tables) : Prop := mk_store_ok {
  ok_ids : List.NoDup (map ID (library t));
  ok_paths : List.NoDup (map Path (library t));
  ok_hashes : List.NoDup (map Hash (library t));
  ok_seq : forall r, List.In r (library t) -> 0 < ID r <= library_seq t;
  ok_refs : List.NoDup (job_refs t);
  ok_fk : forall id, List.In id (job_refs t) -> List.In id (map ID (library t));
  ok_job_ids : List.NoDup (map job_id (jobs t));
  ok_job_seq : forall j, List.In j (jobs t) -> 0 < job_id j <= jobs_seq t;
  ok_counters : 0 <= library_seq t /\ 0 <= jobs_seq t
}.

(** The row of identifier [id], if there is one, is marked transcoded, and
    [id] has already been handed out. *)
Definition marked_transcoded (id : Z) (t : Tables) : Prop :=
  (forall r, List.In r (library t) -> ID r = id -> Transcoded r <> None) /\
  id <= library_seq t.

(** ** The commands (package cmd) *)

Module Cmd.

(** [upsertEntry], the consume function of an update pool: the hash of the
    entry is recomputed from its file, then the entry is upserted. *)
Definition upsertEntry (fs : Fs.FS) (d : Database) (entry : Entry)
  : result unit * Database :=
  match Fs.HashFile fs (Path entry) with
  | inl e => (inl e, d)
  | inr hash =>
      Upsert (mkEntry (ID entry) (Path entry) (Discovered entry)
                (Transcoded entry) hash) d
  end.

(** [transcodeEntry], the consume function of a transcode pool.
    [transcodeFunc] is the package variable of that name, [utils.TranscodeFile]
    unless a test replaces it: an external tool, given the path and the file
    system, that fails or succeeds and leaves a file system behind. *)
Definition transcodeEntry
    (transcodeFunc : string -> Fs.FS -> result unit * Fs.FS)
    (now : Z) (fs : Fs.FS) (d : Database) (entry : Entry)
  : result unit * Fs.FS * Database :=
  match transcodeFunc (Path entry) fs with
  | (inl e, fs1) => (inl e, fs1, d)
  | (inr _, fs1) =>
      match Fs.Remove (Path entry) fs1 with
      | inl e => (inl e, fs1, d)
      | inr fs2 =>
          match Fs.Rename
                  (Fs.ReplaceExtension (Path entry) Fs.TranscodingExtension)
                  (Fs.ReplaceExtension (Path entry) Fs.TargetExtension)
                  fs2 with
          | inl e => (inl e, fs2, d)
          | inr fs3 =>
              let '(r, d') :=
                CompleteTranscoding fs3 now
                  (withPath entry
                     (Fs.ReplaceExtension (Path entry) Fs.TargetExtension))
                  d in
              (r, fs3, d')
          end
      end
  end.

(** The loop of [transcode] that claims the entries to transcode:
    [for len(entries) != n { entry, err := db.BeginTranscoding(); ... }].
    It stops when [n] entries are collected or nothing is eligible; an
    entry whose file is gone is removed from the store instead of being
    collected.  [n] is a length ([make] panics on a negative capacity), the
    files do not change while the loop runs, [clock i] is the time of the
    [i]-th iteration, and [fuel] bounds the number of iterations ([None]:
    the bound was reached). *)
Fixpoint claimEntries (fuel : nat) (clock : nat -> Z) (i : nat)
    (fs : Fs.FS) (n : nat) (entries : list Entry) (d : Database)
  : option (result (list Entry) * Database) :=
  match fuel with
  | O => None
  | S fuel' =>
      if (length entries =? n)%nat then Some (inr entries, d)
      else
        match BeginTranscoding (clock i) d with
        | (inl ErrQueryReturnedNoRows, d1) => Some (inr entries, d1)
        | (inl e, d1) => Some (inl e, d1)
        | (inr entry, d1) =>
            if negb (Fs.PathExists fs (Path entry))
            then
              match Remove entry d1 with
              | (inl e, d2) => Some (inl e, d2)
              | (inr _, d2) => claimEntries fuel' clock (S i) fs n entries d2
              end
            else claimEntries fuel' clock (S i) fs n (entries ++ [entry]) d1
        end
  end.

(** [value.SupportedExtensions]. *)
Definition SupportedExtensions : list string := [".mp4"; ".mkv"; ".avi"]%string.

(** The test of the callback that [update] hands to [filepath.Walk], for a
    path that was reached without error: is the path passed over?
    [strings.HasSuffix(path, TranscodingExtension) ||
     !utils.ContainsString(SupportedExtensions, filepath.Ext(path))].
    [ContainsString] is a parameter. *)
Definition walkSkips (ContainsString : list string -> string -> bool)
    (path : string) : bool :=
  Fs.HasSuffix path Fs.TranscodingExtension ||
  negb (ContainsString SupportedExtensions (Fs.Ext path)).

End Cmd.

(** The number of rows that [BeginTranscoding] could claim. *)
Definition eligible_count (t : Tables) : nat :=
  length (List.filter (Sql.eligible t) (library t)).

(** The tables once the jobs of all the entries of [queue] are deleted. *)
Definition released (queue : list Entry) (t : Tables) : Tables :=
  mkTables (library t) (library_seq t)
    (List.filter
       (fun j => negb (existsb (fun e => library_id j =? ID e) queue))
       (jobs t))
    (jobs_seq t).

(** What the claiming loop of [transcode] maintains: every collected entry
    has its file and an open job, and no entry is collected twice. *)
Definition collected_ok (fs : Fs.FS) (entries : list Entry) (d : Database)
  : Prop :=
  (forall e, List.In e entries ->
             Fs.PathExists fs (Path e) = true /\
             has_job (ID e) (tables d) = true) /\
  List.NoDup (map ID entries).
(** * Properties *)

(** ** The fingerprint *)

Section Fingerprint.

Import Hash.

Lemma Read_eof (r : Reader) :
  Z.of_nat (length (contents r)) <= offset r ->
  Read r = ([], Some EOF, r).
Proof.
  intros Hle. unfold Read.
  destruct (Z.leb_spec (Z.of_nat (length (contents r))) (offset r)); [easy | lia].
Qed.

Lemma Read_chunk (r : Reader) :
  offset r < Z.of_nat (length (contents r)) ->
  Read r =
    (take (Z.to_nat BufferSize) (drop (Z.to_nat (offset r)) (contents r)),
     None,
     mkReader (contents r)
       (offset r +
        Z.of_nat (length (take (Z.to_nat BufferSize)
                            (drop (Z.to_nat (offset r)) (contents r)))))).
Proof.
  intros Hlt. unfold Read.
  destruct (Z.leb_spec (Z.of_nat (length (contents r))) (offset r)); [lia | easy].
Qed.

Lemma chunk_nonempty (data : list byte) (off : Z) :
  0 <= off < Z.of_nat (length data) ->
  (1 <= length (take (Z.to_nat BufferSize) (drop (Z.to_nat off) data)))%nat.
Proof.
  intros [H0 H1].
  rewrite length_take, length_drop.
  assert (1 <= Z.to_nat BufferSize)%nat by (unfold BufferSize; lia).
  lia.
Qed.

Lemma seek_forward (r : Reader) (n : Z) :
  0 <= offset r -> 0 <= n ->
  Seek r n = inr (mkReader (contents r) (offset r + n)).
Proof.
  intros H0 Hn. unfold Seek.
  destruct (Z.ltb_spec (offset r + n) 0); [lia | easy].
Qed.

Lemma seek_amount_nonneg (digest : Z) : 0 <= digest mod MaxSeekSize.
Proof. apply Z.mod_pos_bound. reflexivity. Qed.

(** The loop ends with a digest as soon as the fuel exceeds the number of
    bytes between the offset and the end of the file. *)
Lemma hashLoop_terminates (fuel : nat) :
  forall (r : Reader) (digest : Z),
    0 <= offset r ->
    (0 < fuel)%nat ->
    Z.of_nat (length (contents r)) - offset r < Z.of_nat fuel ->
    exists d, hashLoop fuel r digest = Some (inr d).
Proof.
  induction fuel as [|fuel IH]; intros r digest H0 Hpos Hfuel.
  - lia.
  - cbn [hashLoop].
    destruct (Z.le_gt_cases (Z.of_nat (length (contents r))) (offset r))
      as [Hend | Hmore].
    + rewrite Read_eof by assumption. cbn. eauto.
    + rewrite Read_chunk by lia.
      pose proof (chunk_nonempty (contents r) (offset r) ltac:(lia)) as Hn.
      set (chunk := take _ _) in *.
      pose proof (seek_amount_nonneg (Update digest chunk)) as Hs.
      rewrite seek_forward by (cbn; lia).
      apply IH; cbn; lia.
  Qed.

Lemma hashReader_total (data : list byte) :
  exists d, hashReaderOpt data = Some (inr d) /\ hashReader data = inr d.
Proof.
  destruct (hashLoop_terminates (S (length data)) (mkReader data 0) 0)
    as [d Hd]; cbn; try lia.
  exists d. unfold hashReader. unfold hashReaderOpt. rewrite Hd. auto.
Qed.

(** A file whose first jump lands at or past its end hashes to the digest
    of its first block. *)
Lemma hashReader_first_block (data : list byte) :
  data <> [] ->
  let d := Update 0 (take (Z.to_nat BufferSize) data) in
  Z.of_nat (length data)
    <= Z.of_nat (length (take (Z.to_nat BufferSize) data)) + d mod MaxSeekSize ->
  hashReader data = inr d.
Proof.
  intros Hne d Hjump.
  assert (0 < length data)%nat as Hlen by (destruct data; [easy | cbn; lia]).
  unfold hashReader, hashReaderOpt.
  destruct (length data) as [|n] eqn:Elen; [lia |].
  cbn [hashLoop].
  rewrite Read_chunk by (cbn; lia).
  cbn [contents offset]. change (Z.to_nat 0) with 0%nat. rewrite drop_0.
  fold d.
  pose proof (seek_amount_nonneg d) as Hs.
  rewrite seek_forward by (cbn; lia).
  cbn [contents offset].
  rewrite Read_eof by (cbn; lia).
  reflexivity.
Qed.

(** The digest of one block of a repeated byte, reduced modulo
    [MaxSeekSize], is at least one block long, whatever the byte. *)
Lemma repeated_block_jump (b : byte) :
  (BufferSize <=? Update 0 (replicate (Z.to_nat BufferSize) b) mod MaxSeekSize)
  = true.
Proof. destruct b; vm_compute; reflexivity. Qed.

End Fingerprint.

(** The digests expected by [TestHashFile]. *)
Example HashFile_LessThan4K :
  Hash.hashReader (list_byte_of_string "Hello, World!") = inr 3964322768.
Proof. vm_compute. reflexivity. Qed.

Example HashFile_EqualTo4K :
  Hash.hashReader (replicate (Z.to_nat 4096) "x"%byte) = inr 1041266625.
Proof. vm_compute. reflexivity. Qed.

Example HashFile_GreaterThan4K :
  Hash.hashReader (replicate (Z.to_nat 8192) "x"%byte) = inr 1041266625.
Proof. vm_compute. reflexivity. Qed.

Example HashFile_empty : Hash.hashReader [] = inr 0.
Proof. reflexivity. Qed.

(** The cases of [TestPathReplaceExtension]. *)
Example ReplaceExtension_tests :
  Fs.ReplaceExtension "test.mp4" Fs.TranscodingExtension
    = "test.transcoding.mp4"%string /\
  Fs.ReplaceExtension "this/is/a/relative/path/test.mp4"
    Fs.TranscodingExtension
    = "this/is/a/relative/path/test.transcoding.mp4"%string /\
  Fs.ReplaceExtension "/this/is/an/absolute/path/test.mp4"
    Fs.TranscodingExtension
    = "/this/is/an/absolute/path/test.transcoding.mp4"%string.
Proof. repeat split; reflexivity. Qed.

(** C7.  4096 copies and 8192 copies of the same byte have the same
    fingerprint: the digest of the first 4096-byte block; the jump of
    [digest mod MaxSeekSize] from offset 4096 lands at or past offset 8192,
    hence past the end of both files. *)
Theorem fingerprint_repeated_byte_collision (b : byte) :
  let small := replicate (Z.to_nat 4096) b in
  let large := replicate (Z.to_nat 8192) b in
  let digest := Hash.Update 0 small in
  Hash.hashReader small = inr digest /\
  Hash.hashReader large = inr digest /\
  Hash.hashReader small = Hash.hashReader large /\
  8192 <= 4096 + digest mod Hash.MaxSeekSize.
Proof.
  intros small large digest.
  pose proof (repeated_block_jump b) as Hjump.
  apply Z.leb_le in Hjump. change Hash.BufferSize with 4096 in Hjump.
  assert (Hts : take (Z.to_nat Hash.BufferSize) small = small).
  { unfold small. rewrite take_replicate. f_equal. }
  assert (Htl : take (Z.to_nat Hash.BufferSize) large = small).
  { unfold large, small. rewrite take_replicate. f_equal. }
  assert (Hls : Z.of_nat (length small) = 4096).
  { unfold small. rewrite length_replicate. lia. }
  assert (Hll : Z.of_nat (length large) = 8192).
  { unfold large. rewrite length_replicate. lia. }
  assert (Hsmall : Hash.hashReader small = inr digest).
  { pose proof (hashReader_first_block small) as H. cbv zeta in H.
    rewrite Hts in H. apply H.
    - intros E. rewrite E in Hls. cbn in Hls. lia.
    - fold small in Hjump. lia. }
  assert (Hlarge : Hash.hashReader large = inr digest).
  { pose proof (hashReader_first_block large) as H. cbv zeta in H.
    rewrite Htl in H. apply H.
    - intros E. rewrite E in Hll. cbn in Hll. lia.
    - fold small in Hjump. lia. }
  fold small in Hjump. fold digest in Hjump.
  split; [exact Hsmall |].
  split; [exact Hlarge |].
  split; [rewrite Hsmall, Hlarge; reflexivity |].
  clearbody digest. clear - Hjump. lia.
Qed.

(** ** Statements and transactions preserve predicates on the tables *)

Section Preservation.

Variable P : Tables -> Prop.

Local Abbreviation stmt_preserves := (stmt_preserves P).
Local Abbreviation tx_preserves := (tx_preserves P).

Lemma ret_preserves {A} (a : A) : tx_preserves (Sql.ret a).
Proof. intros t a' t' H. inversion H. auto. Qed.

Lemma exec_preserves stmt : stmt_preserves stmt -> tx_preserves (Sql.exec stmt).
Proof.
  intros Hs t a t' H Ht. unfold Sql.exec in H.
  destruct (stmt t) as [e|t1] eqn:E; [discriminate |].
  inversion H; subst. eauto.
Qed.

Lemma bind_preserves {A B} (m : Sql.Tx A) (k : A -> Sql.Tx B) :
  tx_preserves m -> (forall a, tx_preserves (k a)) -> tx_preserves (Sql.bind m k).
Proof.
  intros Hm Hk t b t' H Ht. unfold Sql.bind in H.
  destruct (m t) as [e|[a t1]] eqn:E; [discriminate |].
  eapply Hk; eauto.
Qed.

Lemma wrapTransaction_preserves {A} (m : Sql.Tx A) (d : Database) :
  tx_preserves m -> P (tables d) -> P (tables (snd (wrapTransaction m d))).
Proof.
  intros Hm Hd. unfold wrapTransaction.
  destruct (m (tables d)) as [e|[a t1]] eqn:E; cbn; eauto.
Qed.

(** The statements used by the operations. *)
Hypothesis P_insertJob : forall id now, stmt_preserves (Sql.insertJob id now).
Hypothesis P_deleteJob : forall id, stmt_preserves (Sql.deleteJob id).
Hypothesis P_deleteEntry : forall id, stmt_preserves (Sql.deleteEntry id).
Hypothesis P_updateEntry :
  forall path tr hash id, stmt_preserves (Sql.updateEntry path tr hash id).
Hypothesis P_upsertEntry :
  forall path disc tr hash, stmt_preserves (Sql.upsertEntry path disc tr hash).

Lemma Upsert_preserves entry d :
  P (tables d) -> P (tables (snd (Upsert entry d))).
Proof. apply wrapTransaction_preserves, exec_preserves, P_upsertEntry. Qed.

Lemma Remove_preserves entry d :
  P (tables d) -> P (tables (snd (Remove entry d))).
Proof.
  apply wrapTransaction_preserves, bind_preserves.
  - apply exec_preserves, P_deleteJob.
  - intros _. apply exec_preserves, P_deleteEntry.
Qed.

Lemma BeginTranscoding_preserves now d :
  P (tables d) -> P (tables (snd (BeginTranscoding now d))).
Proof.
  apply wrapTransaction_preserves, bind_preserves.
  - intros t a t' H Ht. unfold Sql.selectUntranscoded in H.
    destruct (Sql.oldest _); inversion H; subst; auto.
  - intros entry. apply bind_preserves.
    + apply exec_preserves, P_insertJob.
    + intros _. apply ret_preserves.
Qed.

Lemma CompleteTranscoding_preserves fs now entry d :
  P (tables d) -> P (tables (snd (CompleteTranscoding fs now entry d))).
Proof.
  unfold CompleteTranscoding. destruct (Fs.HashFile fs (Path entry)); [auto |].
  apply wrapTransaction_preserves, bind_preserves.
  - apply exec_preserves, P_updateEntry.
  - intros _. apply exec_preserves, P_deleteJob.
Qed.

Lemma cancelTranscoding_preserves entry shouldLog d :
  P (tables d) -> P (tables (snd (cancelTranscoding entry shouldLog d))).
Proof. apply wrapTransaction_preserves, exec_preserves, P_deleteJob. Qed.

Lemma recoverJob_preserves now entry fs d :
  P (tables d) -> P (tables (snd (recoverJob now entry fs d))).
Proof.
  intros Hd. unfold recoverJob.
  destruct (looksCompleted fs entry).
  - unfold completeIncompleteJob.
    destruct (Fs.Rename _ _ fs) as [e|fs1].
    + destruct (Fs.IsNotExist e); [| exact Hd].
      pose proof (CompleteTranscoding_preserves fs now
        (withPath entry (Fs.ReplaceExtension (Path entry) Fs.TargetExtension))
        d Hd) as H.
      destruct (CompleteTranscoding _ _ _ _); exact H.
    + pose proof (CompleteTranscoding_preserves fs1 now
        (withPath entry (Fs.ReplaceExtension (Path entry) Fs.TargetExtension))
        d Hd) as H.
      destruct (CompleteTranscoding _ _ _ _); exact H.
  - unfold rollbackIncompleteJob.
    pose proof (cancelTranscoding_preserves entry false d Hd) as H.
    destruct (Fs.Remove _ fs) as [e|fs1].
    + destruct (Fs.IsNotExist e); [| exact Hd].
      destruct (cancelTranscoding _ _ _); exact H.
    + destruct (cancelTranscoding _ _ _); exact H.
Qed.

Lemma forRows_preserves clock rows :
  forall i fs d,
    P (tables d) -> P (tables (snd (forRows clock i rows fs d))).
Proof.
  induction rows as [|entry rest IH]; intros i fs d Hd; cbn [forRows].
  - exact Hd.
  - pose proof (recoverJob_preserves (clock i) entry fs d Hd) as H.
    destruct (recoverJob (clock i) entry fs d) as [[[e|u] fs'] d'].
    + exact H.
    + apply IH. exact H.
Qed.

Lemma recoverIncompleteJobs_preserves clock fs d :
  P (tables d) -> P (tables (snd (recoverIncompleteJobs clock fs d))).
Proof.
  intros Hd. unfold recoverIncompleteJobs, QueryRows.
  destruct (Sql.selectIncompleteJobs (tables d)) as [|entry rest] eqn:E.
  - exact Hd.
  - pose proof (forRows_preserves clock (entry :: rest) 0%nat fs d Hd) as H.
    destruct (forRows clock 0 (entry :: rest) fs d) as [[[e|u] fs'] d'].
    + destruct e; exact H.
    + exact H.
Qed.

Lemma apply_op_preserves op d :
  P (tables d) -> P (tables (apply_op op d)).
Proof.
  destruct op; cbn [apply_op].
  - apply Upsert_preserves.
  - apply Remove_preserves.
  - apply BeginTranscoding_preserves.
  - apply CompleteTranscoding_preserves.
  - apply cancelTranscoding_preserves.
  - apply wrapTransaction_preserves, exec_preserves, P_insertJob.
  - apply recoverIncompleteJobs_preserves.
Qed.

Lemma reachable_preserves d :
  P emptyTables -> reachable d -> P (tables d).
Proof.
  intros H0 Hr. induction Hr.
  - exact H0.
  - apply apply_op_preserves. exact IHHr.
Qed.

End Preservation.

(** ** The jobs table *)

Lemma has_job_In (id : Z) (t : Tables) :
  has_job id t = true <-> List.In id (job_refs t).
Proof.
  unfold has_job, job_refs. rewrite existsb_exists, in_map_iff.
  split; intros [j [H1 H2]]; exists j.
  - apply Z.eqb_eq in H2. auto.
  - split; [assumption | apply Z.eqb_eq; assumption].
Qed.

Lemma has_job_false (id : Z) (t : Tables) :
  has_job id t = false <-> ~ List.In id (job_refs t).
Proof.
  rewrite <- has_job_In. destruct (has_job id t); split; congruence.
Qed.

Lemma insertJob_inr (id now : Z) (t t' : Tables) :
  Sql.insertJob id now t = inr t' ->
  has_job id t = false /\
  t' = mkTables (library t) (library_seq t)
         (jobs t ++ [mkJob (jobs_seq t + 1) id now]) (jobs_seq t + 1).
Proof.
  unfold Sql.insertJob. intros H.
  destruct (has_job id t); [discriminate |].
  destruct (negb _); [discriminate |].
  inversion H. auto.
Qed.

Lemma job_refs_deleteJob (id : Z) (t : Tables) :
  job_refs (mkTables (library t) (library_seq t)
              (List.filter (fun j => negb (library_id j =? id)) (jobs t))
              (jobs_seq t))
  = List.filter (fun x => negb (x =? id)) (job_refs t).
Proof.
  unfold job_refs. cbn [jobs].
  induction (jobs t) as [|j js IH]; cbn; [reflexivity |].
  destruct (library_id j =? id); cbn; rewrite IH; reflexivity.
Qed.

Lemma upsertEntry_jobs path disc tr hash (t t' : Tables) :
  Sql.upsertEntry path disc tr hash t = inr t' ->
  jobs t' = jobs t /\ jobs_seq t' = jobs_seq t.
Proof.
  unfold Sql.upsertEntry. intros H.
  destruct (List.find _ (library t)) as [old|].
  - destruct (String.eqb (Path old) path); [inversion H; auto |].
    destruct (existsb _ _); [discriminate | inversion H; auto].
  - destruct (existsb _ _); [discriminate | inversion H; auto].
Qed.

Lemma updateEntry_jobs path tr hash id (t t' : Tables) :
  Sql.updateEntry path tr hash id t = inr t' ->
  jobs t' = jobs t /\ jobs_seq t' = jobs_seq t.
Proof.
  unfold Sql.updateEntry. intros H.
  destruct (_ && _); [discriminate | inversion H; auto].
Qed.

Lemma deleteEntry_jobs id (t t' : Tables) :
  Sql.deleteEntry id t = inr t' ->
  jobs t' = jobs t /\ jobs_seq t' = jobs_seq t.
Proof.
  unfold Sql.deleteEntry. intros H.
  destruct (_ && _); [discriminate | inversion H; auto].
Qed.

(** Every statement keeps the entry references of the jobs distinct. *)
Lemma jobs_unique_insertJob id now : stmt_preserves jobs_unique (Sql.insertJob id now).
Proof.
  intros t t' H Ht. apply insertJob_inr in H as [Hno ->].
  unfold jobs_unique, job_refs in *. cbn [jobs].
  rewrite map_app. cbn [map library_id].
  apply has_job_false in Hno. unfold job_refs in Hno.
  apply List.NoDup_app; repeat split.
  - exact Ht.
  - repeat constructor. intros [].
  - intros x Hx [<-|[]]. contradiction.
Qed.

Lemma jobs_unique_deleteJob id : stmt_preserves jobs_unique (Sql.deleteJob id).
Proof.
  intros t t' H Ht. inversion H; subst. unfold jobs_unique.
  rewrite job_refs_deleteJob. apply List.NoDup_filter. exact Ht.
Qed.

Lemma jobs_unique_deleteEntry id : stmt_preserves jobs_unique (Sql.deleteEntry id).
Proof.
  intros t t' H Ht. apply deleteEntry_jobs in H as [H _].
  unfold jobs_unique, job_refs in *. rewrite H. exact Ht.
Qed.

Lemma jobs_unique_updateEntry path tr hash id :
  stmt_preserves jobs_unique (Sql.updateEntry path tr hash id).
Proof.
  intros t t' H Ht. apply updateEntry_jobs in H as [H _].
  unfold jobs_unique, job_refs in *. rewrite H. exact Ht.
Qed.

Lemma jobs_unique_upsertEntry path disc tr hash :
  stmt_preserves jobs_unique (Sql.upsertEntry path disc tr hash).
Proof.
  intros t t' H Ht. apply upsertEntry_jobs in H as [H _].
  unfold jobs_unique, job_refs in *. rewrite H. exact Ht.
Qed.

Lemma reachable_jobs_unique (d : Database) :
  reachable d -> jobs_unique (tables d).
Proof.
  apply reachable_preserves.
  - apply jobs_unique_insertJob.
  - apply jobs_unique_deleteJob.
  - apply jobs_unique_deleteEntry.
  - apply jobs_unique_updateEntry.
  - apply jobs_unique_upsertEntry.
  - constructor.
Qed.

Lemma filter_none {A} (f : A -> bool) (l : list A) :
  (forall x, List.In x l -> f x = false) -> List.filter f l = [].
Proof.
  induction l as [|a l IH]; cbn; intros H; [reflexivity |].
  rewrite (H a) by auto. apply IH. auto.
Qed.

Lemma open_jobs_le_1 (id : Z) (t : Tables) :
  jobs_unique t -> (open_jobs id t <= 1)%nat.
Proof.
  unfold jobs_unique, job_refs, open_jobs.
  induction (jobs t) as [|j js IH]; cbn; intros Hnd; [lia |].
  inversion Hnd as [|x l Hnotin Hnd']; subst.
  destruct (Z.eqb_spec (library_id j) id) as [Heq|Hne]; cbn.
  - rewrite filter_none; [cbn; lia |].
    intros j' Hj'. apply Z.eqb_neq. intros E. apply Hnotin.
    apply in_map_iff. exists j'. split; [congruence | assumption].
  - apply IH. exact Hnd'.
Qed.

(** ** BeginTranscoding *)

Lemma oldest_None (rows : list Entry) : Sql.oldest rows = None -> rows = [].
Proof.
  destruct rows as [|r rest]; cbn; [reflexivity |].
  destruct (Sql.oldest rest) as [r'|]; [| discriminate].
  destruct (Discovered r' <? Discovered r); discriminate.
Qed.

Lemma oldest_Some (rows : list Entry) :
  forall r, Sql.oldest rows = Some r ->
    List.In r rows /\
    forall r', List.In r' rows -> Discovered r <= Discovered r'.
Proof.
  induction rows as [|a rest IH]; cbn; intros r H; [discriminate |].
  destruct (Sql.oldest rest) as [m|] eqn:E.
  - destruct (IH m eq_refl) as [Hin Hmin].
    destruct (Z.ltb_spec (Discovered m) (Discovered a)); inversion H; subst.
    + split; [auto |]. intros r' [<-|Hr']; [lia | auto].
    + split; [auto |]. intros r' [<-|Hr']; [lia |].
      specialize (Hmin r' Hr'). lia.
  - inversion H; subst. apply oldest_None in E. subst rest.
    split; [auto |]. intros r' [<-|[]]. lia.
Qed.

Lemma eligible_true (t : Tables) (r : Entry) :
  Sql.eligible t r = true <-> Transcoded r = None /\ has_job (ID r) t = false.
Proof.
  unfold Sql.eligible. destruct (Transcoded r); [split; [discriminate | intros [? ?]; discriminate] |].
  destruct (has_job (ID r) t); cbn; split; auto; intros [? ?]; congruence.
Qed.

Lemma BeginTranscoding_eq (now : Z) (d : Database) :
  BeginTranscoding now d =
  match Sql.oldest (List.filter (Sql.eligible (tables d)) (library (tables d))) with
  | None =>
      (inl ErrQueryReturnedNoRows, mkDatabase (tables d) (txns d + 1))
  | Some r =>
      (inr (mkEntry (ID r) (Path r) 0 None (Hash r)), claimed now r d)
  end.
Proof.
  unfold BeginTranscoding, wrapTransaction, Sql.bind, Sql.selectUntranscoded.
  destruct (Sql.oldest _) as [r|] eqn:E; [| reflexivity].
  apply oldest_Some in E as [Hin _].
  apply filter_In in Hin as [Hin Hel].
  apply eligible_true in Hel as [_ Hjob].
  unfold addJob, Sql.exec, Sql.insertJob. cbn [ID].
  rewrite Hjob.
  assert (existsb (fun r0 => ID r0 =? ID r) (library (tables d)) = true) as ->.
  { apply existsb_exists. exists r. split; [assumption | apply Z.eqb_refl]. }
  reflexivity.
Qed.

(** C3.  [BeginTranscoding] runs one transaction.  When no row is eligible
    (completion time absent, no open job) it fails with
    [ErrQueryReturnedNoRows] and the tables are unchanged.  Otherwise it
    returns the identifier, path and hash of an eligible row whose
    discovery time is least among the eligible rows, and the only change to
    the tables is a new job row referring to it.  With two pending entries
    discovered at 8 and 32 (hashes 16 and 64) the first call returns the
    entry discovered at 8. *)
Theorem BeginTranscoding_oldest_eligible (now : Z) (d : Database) :
  let t := tables d in
  ((forall r, List.In r (library t) -> Sql.eligible t r = false) ->
     BeginTranscoding now d =
       (inl ErrQueryReturnedNoRows, mkDatabase t (txns d + 1)))
  /\
  ((exists r, List.In r (library t) /\ Sql.eligible t r = true) ->
     exists r,
       List.In r (library t) /\
       Transcoded r = None /\ has_job (ID r) t = false /\
       (forall r', List.In r' (library t) -> Sql.eligible t r' = true ->
                   Discovered r <= Discovered r') /\
       BeginTranscoding now d =
         (inr (mkEntry (ID r) (Path r) 0 None (Hash r)), claimed now r d))
  /\
  fst (BeginTranscoding now two_pending_a) = inr (mkEntry 2 "test.mp4" 0 None 16)
  /\
  fst (BeginTranscoding now two_pending_b) = inr (mkEntry 1 "test.mp4" 0 None 16).
Proof.
  intros t. rewrite BeginTranscoding_eq. fold t.
  split; [| split; [| split; reflexivity]].
  - intros Hnone. rewrite filter_none by assumption. reflexivity.
  - intros [r0 [Hin0 Hel0]].
    destruct (Sql.oldest _) as [r|] eqn:E.
    + apply oldest_Some in E as [Hin Hmin].
      apply filter_In in Hin as [Hin Hel].
      apply eligible_true in Hel as [Htr Hjob].
      exists r. repeat split; auto.
      intros r' Hr' Hel'. apply Hmin. apply filter_In. auto.
    + apply oldest_None in E.
      assert (List.In r0 (List.filter (Sql.eligible t) (library t))) as Hf
        by (apply filter_In; auto).
      rewrite E in Hf. destruct Hf.
Qed.

Lemma BeginTranscoding_oldest_eligible_witness :
  BeginTranscoding 5 Create =
    (inl ErrQueryReturnedNoRows, mkDatabase emptyTables 1)
  /\ exists r,
       List.In r (library (tables two_pending_a)) /\
       Discovered r = 8 /\
       BeginTranscoding 5 two_pending_a =
         (inr (mkEntry (ID r) (Path r) 0 None (Hash r)),
          claimed 5 r two_pending_a).
Proof.
  split.
  - destruct (BeginTranscoding_oldest_eligible 5 Create) as [Hnone _].
    apply Hnone. intros r [].
  - destruct (BeginTranscoding_oldest_eligible 5 two_pending_a)
      as (_ & Hsome & _).
    destruct Hsome as (r & Hin & _ & _ & Hmin & Heq).
    + exists (mkEntry 2 "test.mp4" 8 None 16).
      split; [right; left; reflexivity | reflexivity].
    + exists r. split; [exact Hin |]. split; [| exact Heq].
      cbn in Hin. destruct Hin as [<-|[<-|[]]]; [| reflexivity].
      exfalso.
      specialize (Hmin (mkEntry 2 "test.mp4" 8 None 16)
                    ltac:(right; left; reflexivity) eq_refl).
      cbn in Hmin. lia.
Defined.

(** ** Claims are exclusive *)

Lemma reachable_run (ops : list Op) :
  forall d, reachable d -> reachable (run ops d).
Proof.
  induction ops as [|op ops IH]; intros d Hd; cbn.
  - exact Hd.
  - apply IH. constructor. exact Hd.
Qed.

Section KeepJob.

Variable id : Z.

Local Abbreviation held := (fun t : Tables => has_job id t = true).

Lemma held_insertJob lib_id now : stmt_preserves held (Sql.insertJob lib_id now).
Proof.
  intros t t' H Ht. apply insertJob_inr in H as [_ ->].
  unfold has_job in *. cbn [jobs]. rewrite existsb_app, Ht. reflexivity.
Qed.

Lemma held_deleteJob lib_id :
  lib_id <> id -> stmt_preserves held (Sql.deleteJob lib_id).
Proof.
  intros Hne t t' H Ht. inversion H; subst. clear H.
  apply has_job_In. apply has_job_In in Ht.
  rewrite job_refs_deleteJob. apply filter_In. split; [exact Ht |].
  apply negb_true_iff, Z.eqb_neq. congruence.
Qed.

Lemma held_deleteEntry lib_id : stmt_preserves held (Sql.deleteEntry lib_id).
Proof.
  intros t t' H Ht. apply deleteEntry_jobs in H as [H _].
  unfold has_job in *. rewrite H. exact Ht.
Qed.

Lemma held_updateEntry path tr hash lib_id :
  stmt_preserves held (Sql.updateEntry path tr hash lib_id).
Proof.
  intros t t' H Ht. apply updateEntry_jobs in H as [H _].
  unfold has_job in *. rewrite H. exact Ht.
Qed.

Lemma held_upsertEntry path disc tr hash :
  stmt_preserves held (Sql.upsertEntry path disc tr hash).
Proof.
  intros t t' H Ht. apply upsertEntry_jobs in H as [H _].
  unfold has_job in *. rewrite H. exact Ht.
Qed.

Lemma held_removeJob entry :
  ID entry <> id -> tx_preserves held (removeJob entry).
Proof. intros Hne. apply exec_preserves, held_deleteJob, Hne. Qed.

(** An operation that does not release the job of [id] keeps it. *)
Lemma apply_op_keeps_job (op : Op) (d : Database) :
  releases id op = false ->
  has_job id (tables d) = true ->
  has_job id (tables (apply_op op d)) = true.
Proof.
  destruct op as [e|e|now|fs now e|e|now e|clock fs]; cbn [releases apply_op];
    intros Hrel Hd; try discriminate; try apply Z.eqb_neq in Hrel.
  - apply (wrapTransaction_preserves held); [| exact Hd].
    apply exec_preserves, held_upsertEntry.
  - apply (wrapTransaction_preserves held); [| exact Hd].
    apply bind_preserves; [apply held_removeJob, Hrel |].
    intros _. apply exec_preserves, held_deleteEntry.
  - rewrite BeginTranscoding_eq. destruct (Sql.oldest _); cbn; [| exact Hd].
    unfold has_job in *. rewrite existsb_app, Hd. reflexivity.
  - unfold CompleteTranscoding. destruct (Fs.HashFile fs (Path e)); [exact Hd |].
    apply (wrapTransaction_preserves held); [| exact Hd].
    apply bind_preserves; [apply exec_preserves, held_updateEntry |].
    intros _. apply held_removeJob, Hrel.
  - apply (wrapTransaction_preserves held); [| exact Hd].
    apply held_removeJob, Hrel.
  - apply (wrapTransaction_preserves held); [| exact Hd].
    apply exec_preserves, held_insertJob.
Qed.

Lemma run_keeps_job (ops : list Op) :
  forall d,
    List.Forall (fun op => releases id op = false) ops ->
    has_job id (tables d) = true ->
    has_job id (tables (run ops d)) = true.
Proof.
  induction ops as [|op ops IH]; intros d Hops Hd; cbn.
  - exact Hd.
  - inversion Hops; subst. apply IH; [assumption |].
    apply apply_op_keeps_job; assumption.
Qed.

End KeepJob.

(** While the job of an entry is open, a claim is never granted for it. *)
Lemma BeginTranscoding_skips_claimed (id now : Z) (d : Database) :
  has_job id (tables d) = true ->
  BeginTranscoding now d =
    (inl ErrQueryReturnedNoRows, mkDatabase (tables d) (txns d + 1))
  \/ exists r,
       List.In r (library (tables d)) /\
       Sql.eligible (tables d) r = true /\
       ID r <> id /\
       BeginTranscoding now d =
         (inr (mkEntry (ID r) (Path r) 0 None (Hash r)), claimed now r d).
Proof.
  intros Hjob. rewrite BeginTranscoding_eq.
  destruct (Sql.oldest _) as [r|] eqn:E; [right | left; reflexivity].
  apply oldest_Some in E as [Hin _].
  apply filter_In in Hin as [Hin Hel].
  exists r. repeat split; auto.
  apply eligible_true in Hel as [_ Hno]. congruence.
Qed.

(** C2.  In every reachable state of the store the entry references of
    the job rows are pairwise distinct, so an entry has at most one open
    job.  When [BeginTranscoding] grants a claim for an entry, the entry had
    no job and has one afterwards; and after any interleaving of store
    operations, the job is still open if none of them completes, cancels or
    removes that entry (nor reruns the recovery pass); and as long as the
    job is open a further [BeginTranscoding] either fails with
    [ErrQueryReturnedNoRows], leaving the tables unchanged, or claims an
    eligible entry with another identifier. *)
Theorem claims_are_exclusive (d : Database) :
  reachable d ->
  jobs_unique (tables d) /\
  (forall id, (open_jobs id (tables d) <= 1)%nat) /\
  forall now entry d1,
    BeginTranscoding now d = (inr entry, d1) ->
    has_job (ID entry) (tables d) = false /\
    has_job (ID entry) (tables d1) = true /\
    forall ops,
      (List.Forall (fun op => releases (ID entry) op = false) ops ->
       has_job (ID entry) (tables (run ops d1)) = true) /\
      (has_job (ID entry) (tables (run ops d1)) = true ->
       forall now',
         BeginTranscoding now' (run ops d1) =
           (inl ErrQueryReturnedNoRows,
            mkDatabase (tables (run ops d1)) (txns (run ops d1) + 1))
         \/ exists r,
              List.In r (library (tables (run ops d1))) /\
              Sql.eligible (tables (run ops d1)) r = true /\
              ID r <> ID entry /\
              BeginTranscoding now' (run ops d1) =
                (inr (mkEntry (ID r) (Path r) 0 None (Hash r)),
                 claimed now' r (run ops d1))).
Proof.
  intros Hreach.
  pose proof (reachable_jobs_unique d Hreach) as Huniq.
  split; [exact Huniq |].
  split; [intros id; apply open_jobs_le_1; exact Huniq |].
  intros now entry d1 Hbegin.
  rewrite BeginTranscoding_eq in Hbegin.
  destruct (Sql.oldest _) as [r|] eqn:E; [| discriminate].
  inversion Hbegin; subst entry d1. clear Hbegin. cbn [ID].
  apply oldest_Some in E as [Hin _].
  apply filter_In in Hin as [Hin Hel].
  apply eligible_true in Hel as [_ Hno].
  assert (Hheld : has_job (ID r) (tables (claimed now r d)) = true).
  { unfold has_job, claimed. cbn [tables jobs].
    rewrite existsb_app. cbn. rewrite Z.eqb_refl. apply orb_true_iff.
    right. reflexivity. }
  split; [exact Hno |].
  split; [exact Hheld |].
  intros ops. split.
  - intros Hops. apply run_keeps_job; assumption.
  - intros Hkept now'. apply BeginTranscoding_skips_claimed. exact Hkept.
Qed.

Lemma claims_are_exclusive_witness :
  let d1 := claimed 5 (mkEntry 2 "test.mp4" 8 None 16) two_pending_a in
  let ops := [OpCancel (mkEntry 1 "test.avi" 0 None 64); OpBegin 6] in
  reachable two_pending_a /\
  BeginTranscoding 5 two_pending_a = (inr (mkEntry 2 "test.mp4" 0 None 16), d1) /\
  (open_jobs 2 (tables two_pending_a) <= 1)%nat /\
  has_job 2 (tables (run ops d1)) = true /\
  BeginTranscoding 7 (run ops d1) =
    (inl ErrQueryReturnedNoRows,
     mkDatabase (tables (run ops d1)) (txns (run ops d1) + 1)).
Proof.
  cbv zeta.
  assert (Hr : reachable two_pending_a).
  { unfold two_pending_a. apply reachable_run. constructor. }
  assert (Hb : BeginTranscoding 5 two_pending_a =
                 (inr (mkEntry 2 "test.mp4" 0 None 16),
                  claimed 5 (mkEntry 2 "test.mp4" 8 None 16) two_pending_a)).
  { reflexivity. }
  destruct (claims_are_exclusive two_pending_a Hr) as [_ [Hle Hclaim]].
  destruct (Hclaim 5 _ _ Hb) as [_ [_ Hafter]].
  destruct (Hafter [OpCancel (mkEntry 1 "test.avi" 0 None 64); OpBegin 6])
    as [Hkeep Hskip].
  assert (Hkept := Hkeep ltac:(repeat constructor)).
  split; [exact Hr |].
  split; [exact Hb |].
  split; [apply Hle |].
  split; [exact Hkept |].
  destruct (Hskip Hkept 7) as [Hnone | [r [Hin [Hel _]]]]; [exact Hnone |].
  exfalso. cbn in Hin. destruct Hin as [<-|[<-|[]]]; vm_compute in Hel;
    discriminate.
Defined.

(** ** Upsert *)

Lemma find_map_stable {A} (f : A -> bool) (g : A -> A) (l : list A) :
  (forall x, f (g x) = f x) ->
  List.find f (map g l) = option_map g (List.find f l).
Proof.
  intros Hfg. induction l as [|a l IH]; cbn; [reflexivity |].
  rewrite Hfg. destruct (f a); [reflexivity | exact IH].
Qed.

Lemma find_app_none {A} (f : A -> bool) (l1 l2 : list A) :
  List.find f l1 = None -> List.find f (l1 ++ l2) = List.find f l2.
Proof.
  induction l1 as [|a l1 IH]; cbn; [reflexivity |].
  destruct (f a); [discriminate | exact IH].
Qed.

Lemma find_filter_none {A} (f g : A -> bool) (l : list A) :
  List.find f l = None -> List.find f (List.filter g l) = None.
Proof.
  induction l as [|a l IH]; cbn; [reflexivity |].
  destruct (f a) eqn:Ef; [discriminate |].
  intros H. destruct (g a); cbn; [rewrite Ef |]; auto.
Qed.

Lemma existsb_false {A} (f : A -> bool) (l : list A) :
  existsb f l = false <-> forall x, List.In x l -> f x = false.
Proof.
  split.
  - intros H x Hx. destruct (f x) eqn:E; [| reflexivity].
    rewrite <- H. symmetry. apply existsb_exists. eauto.
  - intros H. destruct (existsb f l) eqn:E; [| reflexivity].
    apply existsb_exists in E as [x [Hx Hfx]]. rewrite H in Hfx; auto.
Qed.

(** The three outcomes of the statement when a row holds the incoming hash. *)
Lemma upsertEntry_conflict path disc tr hash (t : Tables) (old : Entry) :
  List.find (fun r => Hash r =? hash) (library t) = Some old ->
  Sql.upsertEntry path disc tr hash t =
    if String.eqb (Path old) path
    then inr (mkTables (library t) (library_seq t + 1) (jobs t) (jobs_seq t))
    else if existsb (fun r => String.eqb (Path r) path) (library t)
         then inl ErrUnique
         else inr (mkTables
                     (map (fun r => if ID r =? ID old
                                    then withPath r path else r) (library t))
                     (library_seq t + 1) (jobs t) (jobs_seq t)).
Proof. intros H. unfold Sql.upsertEntry. rewrite H. reflexivity. Qed.

(** A second run of the statement succeeds and changes no row: only the
    autoincrement counter advances. *)
Lemma upsertEntry_idempotent path disc tr hash (t t' : Tables) :
  Sql.upsertEntry path disc tr hash t = inr t' ->
  Sql.upsertEntry path disc tr hash t' =
    inr (mkTables (library t') (library_seq t' + 1) (jobs t') (jobs_seq t')).
Proof.
  intros H. unfold Sql.upsertEntry in H.
  destruct (List.find _ (library t)) as [old|] eqn:Efind.
  - destruct (String.eqb (Path old) path) eqn:Epath.
    + inversion H; subst. clear H.
      unfold Sql.upsertEntry. cbn [library]. rewrite Efind, Epath.
      reflexivity.
    + destruct (existsb _ _); [discriminate |].
      inversion H; subst. clear H.
      unfold Sql.upsertEntry. cbn [library].
      rewrite find_map_stable, Efind.
      2:{ intros x. destruct (ID x =? ID old); reflexivity. }
      cbn [option_map]. rewrite Z.eqb_refl. cbn [withPath Path].
      rewrite String.eqb_refl. reflexivity.
  - destruct (existsb _ _); [discriminate |].
    inversion H; subst. clear H.
    unfold Sql.upsertEntry. cbn [library].
    rewrite find_app_none by (apply find_filter_none; exact Efind).
    cbn [List.find Hash]. rewrite Z.eqb_refl. cbn [Path].
    rewrite String.eqb_refl. reflexivity.
Qed.

Lemma Upsert_tables (entry : Entry) (d : Database) :
  Upsert entry d =
    match Sql.upsertEntry (Path entry) (Discovered entry) (Transcoded entry)
            (Hash entry) (tables d) with
    | inl e => (inl e, mkDatabase (tables d) (txns d + 1))
    | inr t' => (ok, mkDatabase t' (txns d + 1))
    end.
Proof.
  unfold Upsert, wrapTransaction, Sql.exec.
  destruct (Sql.upsertEntry _ _ _ _ _); reflexivity.
Qed.

(** C6.  Upserting an entry a second time leaves the rows of both tables
    as the first upsert left them, whatever the entry and the store (only
    the autoincrement counter of the library, which is no row of either
    table, advances); and upserting the same entry twice into an empty
    store leaves exactly one row. *)
Theorem Upsert_idempotent (entry : Entry) (d : Database) :
  let once := tables (snd (Upsert entry d)) in
  let twice := tables (snd (Upsert entry (snd (Upsert entry d)))) in
  library twice = library once /\
  jobs twice = jobs once /\
  length (library (tables (snd (Upsert entry (snd (Upsert entry Create))))))
  = 1%nat.
Proof.
  cbv zeta.
  assert (Hrows :
    library (tables (snd (Upsert entry (snd (Upsert entry d))))) =
    library (tables (snd (Upsert entry d))) /\
    jobs (tables (snd (Upsert entry (snd (Upsert entry d))))) =
    jobs (tables (snd (Upsert entry d)))).
  { rewrite (Upsert_tables entry d).
    destruct (Sql.upsertEntry _ _ _ _ (tables d)) as [e|t'] eqn:E; cbn [snd].
    - rewrite Upsert_tables. cbn [tables txns]. rewrite E. split; reflexivity.
    - rewrite Upsert_tables. cbn [tables txns].
      rewrite (upsertEntry_idempotent _ _ _ _ _ _ E). split; reflexivity. }
  destruct Hrows as [Hl Hj].
  split; [exact Hl |]. split; [exact Hj |].
  rewrite (Upsert_tables entry Create). cbn.
  rewrite Upsert_tables. unfold Sql.upsertEntry. cbn.
  rewrite Z.eqb_refl, String.eqb_refl. reflexivity.
Qed.

(** C4 does not hold as stated: upserting an entry whose hash is that of a
    stored row writes neither the incoming discovery time nor the incoming
    completion time.  Here the stored row is transcoded and discovered at 8;
    the incoming entry is pending and discovered at 9; the row keeps both
    stored values (the scenario of [TestDatabaseUpsertRenameEntry]). *)
Lemma Upsert_hash_conflict_counterexample :
  let incoming := mkEntry 0 "renamed.mp4" 9 None 32 in
  library (tables one_transcoded) = [mkEntry 1 "test.mp4" 8 (Some 0) 32] /\
  library (tables (snd (Upsert incoming one_transcoded)))
    = [mkEntry 1 "renamed.mp4" 8 (Some 0) 32] /\
  ~ (exists r,
       List.In r (library (tables (snd (Upsert incoming one_transcoded)))) /\
       Hash r = Hash incoming /\
       Discovered r = Discovered incoming /\
       Transcoded r = Transcoded incoming).
Proof.
  cbv zeta. split; [reflexivity |]. split; [reflexivity |].
  intros [r [[<-|[]] [_ [Hd _]]]]. cbn in Hd. discriminate.
Qed.

(** C4, amended.  When a stored row [old] holds the incoming hash, [Upsert]
    runs one transaction that inserts nothing and
    - changes no row when the path of [old] is the incoming path;
    - otherwise sets the path of [old] to the incoming path, provided no
      row holds that path, and fails with the tables unchanged if one does.
    In every case each row keeps its identifier, discovery time, completion
    time and hash: the incoming discovery and completion values are not
    written. *)
Theorem Upsert_hash_conflict (entry : Entry) (d : Database) (old : Entry) :
  List.find (fun r => Hash r =? Hash entry) (library (tables d)) = Some old ->
  let t := tables d in
  let renamed :=
    mkTables (map (fun r => if ID r =? ID old
                            then withPath r (Path entry) else r) (library t))
      (library_seq t + 1) (jobs t) (jobs_seq t) in
  let unchanged :=
    mkTables (library t) (library_seq t + 1) (jobs t) (jobs_seq t) in
  (Path old = Path entry ->
     Upsert entry d = (ok, mkDatabase unchanged (txns d + 1)))
  /\
  (Path old <> Path entry ->
   (forall r, List.In r (library t) -> Path r <> Path entry) ->
     Upsert entry d = (ok, mkDatabase renamed (txns d + 1)))
  /\
  (Path old <> Path entry ->
   (exists r, List.In r (library t) /\ Path r = Path entry) ->
     Upsert entry d = (inl ErrUnique, mkDatabase t (txns d + 1)))
  /\
  (forall r', List.In r' (library (tables (snd (Upsert entry d)))) ->
     exists r, List.In r (library t) /\
       ID r' = ID r /\ Discovered r' = Discovered r /\
       Transcoded r' = Transcoded r /\ Hash r' = Hash r /\
       (Path r' = Path r \/ (ID r = ID old /\ Path r' = Path entry))).
Proof.
  intros Hfind t renamed unchanged.
  rewrite Upsert_tables. fold t.
  rewrite (upsertEntry_conflict _ _ _ _ t old Hfind).
  split; [| split; [| split]].
  - intros Heq. apply String.eqb_eq in Heq. rewrite Heq. reflexivity.
  - intros Hne Hfree. apply String.eqb_neq in Hne. rewrite Hne.
    assert (existsb (fun r => String.eqb (Path r) (Path entry)) (library t)
            = false) as ->; [| reflexivity].
    apply existsb_false. intros r Hr. apply String.eqb_neq. auto.
  - intros Hne [r [Hr Hpath]]. apply String.eqb_neq in Hne. rewrite Hne.
    assert (existsb (fun r => String.eqb (Path r) (Path entry)) (library t)
            = true) as ->; [| reflexivity].
    apply existsb_exists. exists r. split; [exact Hr |].
    apply String.eqb_eq. exact Hpath.
  - intros r' Hr'.
    assert (Hsame : List.In r' (library t) ->
              exists r, List.In r (library t) /\
                ID r' = ID r /\ Discovered r' = Discovered r /\
                Transcoded r' = Transcoded r /\ Hash r' = Hash r /\
                (Path r' = Path r \/ (ID r = ID old /\ Path r' = Path entry))).
    { intros H. exists r'. repeat split; auto. }
    destruct (String.eqb (Path old) (Path entry)); [auto |].
    destruct (existsb _ _); [auto |].
    cbn [snd tables library] in Hr'.
    apply in_map_iff in Hr' as [r [Hmap Hr]].
    exists r. split; [exact Hr |].
    destruct (Z.eqb_spec (ID r) (ID old)) as [Hid|Hid]; subst r'; cbn; auto 10.
Qed.

Lemma Upsert_hash_conflict_witness :
  let incoming := mkEntry 0 "renamed.mp4" 9 None 32 in
  Upsert incoming one_transcoded =
    (ok, mkDatabase
           (mkTables [mkEntry 1 "renamed.mp4" 8 (Some 0) 32] 2 [] 0) 2).
Proof.
  cbv zeta.
  destruct (Upsert_hash_conflict (mkEntry 0 "renamed.mp4" 9 None 32)
              one_transcoded (mkEntry 1 "test.mp4" 8 (Some 0) 32) eq_refl)
    as [_ [Hrename _]].
  apply Hrename.
  - cbn. discriminate.
  - intros r [<-|[]]. cbn. discriminate.
Defined.

(** C5.  A store whose only row has path "a.mkv" and hash [H]: upserting an
    entry with path "b.mkv" and hash [H] leaves one row, with path "b.mkv",
    hash [H], and the identifier, discovery time and completion time that
    were stored, whatever the incoming ones are. *)
Theorem Upsert_detects_rename
    (id H disc : Z) (tr : option Z) (id' disc' : Z) (tr' : option Z)
    (seq : Z) (js : list Job) (jseq n : Z) :
  Upsert (mkEntry id' "b.mkv" disc' tr' H)
    (mkDatabase (mkTables [mkEntry id "a.mkv" disc tr H] seq js jseq) n)
  = (ok, mkDatabase
           (mkTables [mkEntry id "b.mkv" disc tr H] (seq + 1) js jseq)
           (n + 1)).
Proof.
  rewrite Upsert_tables. cbn [tables Path Discovered Transcoded Hash txns].
  rewrite (upsertEntry_conflict _ _ _ _ _ (mkEntry id "a.mkv" disc tr H)).
  - cbn [Path library map existsb ID]. rewrite Z.eqb_refl. reflexivity.
  - cbn [library List.find Hash]. rewrite Z.eqb_refl. reflexivity.
Qed.

(** C9 does not hold as stated: the incoming hash, different from that of
    the row holding the incoming path, may be the hash of another row.  The
    upsert then tries to move that other row to the incoming path, fails on
    the uniqueness of paths, and the row that was to be replaced keeps its
    hash and stays transcoded. *)
Lemma Upsert_path_conflict_counterexample :
  let incoming := mkEntry 0 "a.mkv" 10 None 64 in
  library (tables two_entries)
    = [mkEntry 1 "a.mkv" 8 (Some 0) 32; mkEntry 2 "b.mkv" 9 (Some 1) 64] /\
  Upsert incoming two_entries
    = (inl ErrUnique, mkDatabase (tables two_entries) 3) /\
  ~ (exists r,
       List.In r (library (tables (snd (Upsert incoming two_entries)))) /\
       Path r = Path incoming /\
       (Hash r = Hash incoming \/ Discovered r = Discovered incoming \/
        Transcoded r = Transcoded incoming)).
Proof.
  cbv zeta. split; [reflexivity |]. split; [reflexivity |].
  intros [r [[<-|[<-|[]]] [Hp H]]]; cbn in *;
    [destruct H as [H|[H|H]] |]; discriminate.
Qed.

(** C9, amended.  When a stored row [old] holds the incoming path with
    another hash, no stored row holds the incoming hash, and no job is open
    on a row holding the incoming path, [Upsert] deletes [old] and inserts
    a row with a fresh identifier that carries the incoming path, discovery
    time, completion time and hash; the other rows are kept.  The row at
    that path is therefore pending when the incoming entry is. *)
Theorem Upsert_path_conflict (entry : Entry) (d : Database) (old : Entry) :
  let t := tables d in
  let fresh :=
    mkEntry (library_seq t + 1) (Path entry) (Discovered entry)
      (Transcoded entry) (Hash entry) in
  List.In old (library t) ->
  Path old = Path entry ->
  Hash old <> Hash entry ->
  (forall r, List.In r (library t) -> Hash r <> Hash entry) ->
  (forall r, List.In r (library t) -> Path r = Path entry ->
             has_job (ID r) t = false) ->
  Upsert entry d =
    (ok, mkDatabase
           (mkTables
              (List.filter (fun r => negb (String.eqb (Path r) (Path entry)))
                 (library t) ++ [fresh])
              (library_seq t + 1) (jobs t) (jobs_seq t))
           (txns d + 1))
  /\
  (forall r, List.In r (library (tables (snd (Upsert entry d)))) ->
             Path r = Path entry -> r = fresh)
  /\
  List.In fresh (library (tables (snd (Upsert entry d))))
  /\
  (forall r, List.In r (library t) -> Path r <> Path entry ->
             List.In r (library (tables (snd (Upsert entry d))))).
Proof.
  intros t fresh Hold Hpath Hhash Hnohash Hnojob.
  assert (Heq : Upsert entry d =
    (ok, mkDatabase
           (mkTables
              (List.filter (fun r => negb (String.eqb (Path r) (Path entry)))
                 (library t) ++ [fresh])
              (library_seq t + 1) (jobs t) (jobs_seq t))
           (txns d + 1))).
  { rewrite Upsert_tables. fold t. unfold Sql.upsertEntry.
    assert (List.find (fun r => Hash r =? Hash entry) (library t) = None) as ->.
    { destruct (List.find _ _) as [r|] eqn:E; [| reflexivity].
      apply find_some in E as [Hr Hh]. apply Z.eqb_eq in Hh.
      exfalso. exact (Hnohash r Hr Hh). }
    assert (existsb (fun r => String.eqb (Path r) (Path entry) &&
                              has_job (ID r) t) (library t) = false) as ->.
    { apply existsb_false. intros r Hr.
      destruct (String.eqb_spec (Path r) (Path entry)) as [E|E]; cbn;
        [apply Hnojob; assumption | reflexivity]. }
    reflexivity. }
  rewrite Heq. cbn [snd tables library].
  split; [reflexivity |]. split; [| split].
  - intros r Hr Hp. apply in_app_iff in Hr as [Hr|[<-|[]]]; [| reflexivity].
    apply filter_In in Hr as [_ Hne].
    apply negb_true_iff, String.eqb_neq in Hne. contradiction.
  - apply in_app_iff. right. left. reflexivity.
  - intros r Hr Hne. apply in_app_iff. left. apply filter_In.
    split; [exact Hr |]. apply negb_true_iff, String.eqb_neq. exact Hne.
Qed.

Lemma Upsert_path_conflict_witness :
  Upsert (mkEntry 0 "test.mp4" 8 None 64) one_transcoded =
    (ok, mkDatabase (mkTables [mkEntry 2 "test.mp4" 8 None 64] 2 [] 0) 2).
Proof.
  destruct (Upsert_path_conflict (mkEntry 0 "test.mp4" 8 None 64)
              one_transcoded (mkEntry 1 "test.mp4" 8 (Some 0) 32))
    as [Heq _].
  - left. reflexivity.
  - reflexivity.
  - cbn. discriminate.
  - intros r [<-|[]]. cbn. discriminate.
  - intros r [<-|[]] _. reflexivity.
  - exact Heq.
Defined.

(** ** CompleteTranscoding and CancelTranscoding *)

(** C10.  When the fingerprint of the entry's path cannot be recomputed,
    [CompleteTranscoding] returns that failure and the handle is exactly as
    it was: no transaction was run, the tables (entry row and job row
    included) are unchanged.  A missing file is such a failure. *)
Theorem CompleteTranscoding_hash_failure
    (fs : Fs.FS) (now : Z) (entry : Entry) (d : Database) :
  (forall e, Fs.HashFile fs (Path entry) = inl e ->
             CompleteTranscoding fs now entry d = (inl e, d))
  /\
  (fs !! Path entry = None ->
     CompleteTranscoding fs now entry d = (inl (ErrNotExist (Path entry)), d)).
Proof.
  split.
  - intros e He. unfold CompleteTranscoding. rewrite He. reflexivity.
  - intros Hnone. unfold CompleteTranscoding, Fs.HashFile. rewrite Hnone.
    reflexivity.
Qed.

Lemma CompleteTranscoding_hash_failure_witness :
  let d := claimed 5 (mkEntry 2 "test.mp4" 8 None 16) two_pending_a in
  CompleteTranscoding ∅ 9 (mkEntry 2 "test.mp4" 0 None 16) d
  = (inl (ErrNotExist "test.mp4"), d).
Proof.
  cbv zeta.
  destruct (CompleteTranscoding_hash_failure ∅ 9
              (mkEntry 2 "test.mp4" 0 None 16)
              (claimed 5 (mkEntry 2 "test.mp4" 8 None 16) two_pending_a))
    as [_ Hmissing].
  apply Hmissing. reflexivity.
Defined.

Lemma CancelTranscoding_eq (entry : Entry) (d : Database) :
  CancelTranscoding entry d =
    (ok, mkDatabase
           (mkTables (library (tables d)) (library_seq (tables d))
              (List.filter (fun j => negb (library_id j =? ID entry))
                 (jobs (tables d)))
              (jobs_seq (tables d)))
           (txns d + 1)).
Proof. reflexivity. Qed.

Lemma has_job_deleteJob (id : Z) (t : Tables) :
  has_job id
    (mkTables (library t) (library_seq t)
       (List.filter (fun j => negb (library_id j =? id)) (jobs t))
       (jobs_seq t)) = false.
Proof.
  apply has_job_false. rewrite job_refs_deleteJob. intros H.
  apply filter_In in H as [_ H]. rewrite Z.eqb_refl in H. discriminate.
Qed.

(** ** The worker pool *)

Lemma drainAll_ok drain (queue : list Entry) :
  forall d d', Pool.drainAll drain queue d = (ok, d') <-> drained drain queue d d'.
Proof.
  induction queue as [|entry rest IH]; intros d d'; cbn [Pool.drainAll].
  - split.
    + intros H. inversion H. constructor.
    + intros H. inversion H. reflexivity.
  - split.
    + intros H. destruct (drain d entry) as [[e|[]] d1] eqn:E; [discriminate |].
      econstructor; [exact E | apply IH; exact H].
    + intros H. inversion H; subst.
      match goal with Hd : drain d entry = _ |- _ => rewrite Hd end.
      apply IH. assumption.
Qed.

Lemma drainAll_first_failure drain (pre : list Entry) :
  forall entry post d dk e d',
    drained drain pre d dk ->
    drain dk entry = (inl e, d') ->
    Pool.drainAll drain (pre ++ entry :: post) d = (inl e, d').
Proof.
  induction pre as [|a pre IH]; intros entry post d dk e d' Hpre Hfail.
  - inversion Hpre; subst. cbn. rewrite Hfail. reflexivity.
  - inversion Hpre; subst. cbn.
    match goal with Hd : drain d a = _ |- _ => rewrite Hd end.
    eapply IH; eassumption.
Qed.

Lemma drainAll_cases drain (queue : list Entry) :
  forall d,
    (exists d', Pool.drainAll drain queue d = (ok, d') /\
                drained drain queue d d')
    \/ (exists pre entry post dk e d',
          queue = pre ++ entry :: post /\
          drained drain pre d dk /\
          drain dk entry = (inl e, d') /\
          Pool.drainAll drain queue d = (inl e, d')).
Proof.
  induction queue as [|a rest IH]; intros d.
  - left. exists d. split; [reflexivity | constructor].
  - destruct (drain d a) as [[e|[]] d1] eqn:E.
    + right. exists [], a, rest, d, e, d1.
      repeat split; [constructor | exact E | cbn; rewrite E; reflexivity].
    + destruct (IH d1) as [[d' [H1 H2]] | (pre & entry & post & dk & e & d' & Hq & Hpre & Hfail & Hres)].
      * left. exists d'. split; [cbn; rewrite E; exact H1 |].
        econstructor; eassumption.
      * right. exists (a :: pre), entry, post, dk, e, d'.
        repeat split.
        -- cbn. rewrite Hq. reflexivity.
        -- econstructor; eassumption.
        -- exact Hfail.
        -- cbn. rewrite E. exact Hres.
Qed.

(** C8.  [Stop], once the queue is closed and every worker has returned:
    if a worker reported a failure it returns the first one recorded and
    drains nothing (the store is untouched); otherwise it drains the
    unconsumed entries in order and either every drain succeeds and it
    returns no error, or it returns the first drain failure, the entries
    after the failing one being left undrained.  A transcode pool stopped
    with one entry queued and no worker failure returns no error, the job of
    that entry is gone and the library rows are unchanged. *)
Theorem Stop_reports_or_drains (p : Pool.Pool) (d : Database) :
  (forall e rest, Pool.errorStream p = e :: rest -> Pool.Stop p d = (inl e, d))
  /\
  (Pool.errorStream p = [] ->
     (exists d', Pool.Stop p d = (ok, d') /\
                 drained (Pool.drain p) (Pool.entryStream p) d d')
     \/ (exists pre entry post dk e d',
           Pool.entryStream p = pre ++ entry :: post /\
           drained (Pool.drain p) pre d dk /\
           Pool.drain p dk entry = (inl e, d') /\
           Pool.Stop p d = (inl e, d')))
  /\
  (forall entry,
     let d' := snd (Pool.Stop (Pool.NewTranscodePool [entry] []) d) in
     fst (Pool.Stop (Pool.NewTranscodePool [entry] []) d) = ok /\
     has_job (ID entry) (tables d') = false /\
     library (tables d') = library (tables d) /\
     jobs (tables d') =
       List.filter (fun j => negb (library_id j =? ID entry)) (jobs (tables d))).
Proof.
  split; [| split].
  - intros e rest He. unfold Pool.Stop. rewrite He. reflexivity.
  - intros He. unfold Pool.Stop. rewrite He. apply drainAll_cases.
  - intros entry. cbn. repeat split. apply has_job_deleteJob.
Qed.

Lemma Stop_reports_or_drains_witness :
  let d := claimed 5 (mkEntry 2 "test.mp4" 8 None 16) two_pending_a in
  let queued := [mkEntry 2 "test.mp4" 0 None 16] in
  Pool.Stop (Pool.NewTranscodePool queued
               [ErrOther "failed to transcode file"; ErrRead]) d
  = (inl (ErrOther "failed to transcode file"), d)
  /\ Pool.Stop (Pool.NewTranscodePool queued []) d
     = (ok, mkDatabase
              (mkTables (library (tables two_pending_a)) 2 [] 1) 4).
Proof.
  cbv zeta. split.
  - destruct (Stop_reports_or_drains
                (Pool.NewTranscodePool [mkEntry 2 "test.mp4" 0 None 16]
                   [ErrOther "failed to transcode file"; ErrRead])
                (claimed 5 (mkEntry 2 "test.mp4" 8 None 16) two_pending_a))
      as [Herr _].
    apply (Herr _ [ErrRead]). reflexivity.
  - destruct (Stop_reports_or_drains
                (Pool.NewTranscodePool [mkEntry 2 "test.mp4" 0 None 16] [])
                (claimed 5 (mkEntry 2 "test.mp4" 8 None 16) two_pending_a))
      as (_ & Hdrain & _).
    destruct (Hdrain eq_refl)
      as [(d' & Hstop & Hdrained)
         | (pre & entry & post & dk & e & d' & _ & _ & _ & Hstop)].
    + rewrite Hstop. f_equal.
      inversion Hdrained as [|? ? ? d1 ? H1 H2]; subst.
      inversion H2; subst. inversion H1. reflexivity.
    + discriminate Hstop.
Defined.

(** ** The recovery pass *)

Lemma CompleteTranscoding_eq (fs : Fs.FS) (now : Z) (entry : Entry)
    (d : Database) :
  CompleteTranscoding fs now entry d =
    match Fs.HashFile fs (Path entry) with
    | inl e => (inl e, d)
    | inr hash =>
        if update_conflicts (Path entry) hash (ID entry) (tables d)
        then (inl ErrUnique, mkDatabase (tables d) (txns d + 1))
        else (ok, mkDatabase
                    (completed (Path entry) now hash (ID entry) (tables d))
                    (txns d + 1))
    end.
Proof.
  unfold CompleteTranscoding. destruct (Fs.HashFile fs (Path entry)); [reflexivity |].
  unfold wrapTransaction, Sql.bind, Sql.exec, Sql.updateEntry, update_conflicts.
  destruct (_ && _); reflexivity.
Qed.

Lemma cancelTranscoding_eq (entry : Entry) (shouldLog : bool) (d : Database) :
  cancelTranscoding entry shouldLog d =
    (ok, mkDatabase (cancelled (ID entry) (tables d)) (txns d + 1)).
Proof. reflexivity. Qed.

Lemma looksCompleted_iff (fs : Fs.FS) (entry : Entry) :
  looksCompleted fs entry = true <->
  (exists h, Fs.HashFile fs (Path entry) = inr h /\ h <> Hash entry) \/
  (fs !! Path entry = None /\ fs !! intermediate entry <> None).
Proof.
  unfold looksCompleted, Fs.PathExists, intermediate.
  rewrite orb_true_iff, andb_true_iff, negb_true_iff.
  split.
  - intros [H|[H1 H2]].
    + left. destruct (Fs.HashFile fs (Path entry)) as [e|h]; [discriminate |].
      exists h. split; [reflexivity |]. apply Z.eqb_neq, negb_true_iff, H.
    + right. destruct (fs !! Path entry); [discriminate |].
      split; [reflexivity |].
      destruct (fs !! Fs.ReplaceExtension _ _); discriminate.
  - intros [[h [Hh Hne]]|[H1 H2]].
    + left. rewrite Hh. apply negb_true_iff, Z.eqb_neq, Hne.
    + right. rewrite H1. split; [reflexivity |].
      destruct (fs !! Fs.ReplaceExtension _ _); [reflexivity | contradiction].
Qed.

Lemma completeIncompleteJob_eq (now : Z) (entry : Entry) (fs : Fs.FS)
    (d : Database) :
  completeIncompleteJob now entry fs d =
    (fst (CompleteTranscoding (finalized entry fs) now
            (withPath entry (final entry)) d),
     finalized entry fs,
     snd (CompleteTranscoding (finalized entry fs) now
            (withPath entry (final entry)) d)).
Proof.
  unfold completeIncompleteJob, Fs.Rename, finalized.
  fold (intermediate entry). fold (final entry).
  destruct (fs !! intermediate entry); cbn [Fs.IsNotExist];
    destruct (CompleteTranscoding _ _ _ _); reflexivity.
Qed.

Lemma rollbackIncompleteJob_eq (entry : Entry) (fs : Fs.FS) (d : Database) :
  rollbackIncompleteJob entry fs d =
    (ok, delete (intermediate entry) fs,
     mkDatabase (cancelled (ID entry) (tables d)) (txns d + 1)).
Proof.
  unfold rollbackIncompleteJob, Fs.Remove.
  change (String.append (Fs.TrimSuffix (Path entry) (Fs.Ext (Path entry)))
            Fs.TranscodingExtension) with (intermediate entry).
  destruct (fs !! intermediate entry) eqn:E; cbn [Fs.IsNotExist].
  - rewrite cancelTranscoding_eq. reflexivity.
  - rewrite cancelTranscoding_eq, delete_id by exact E. reflexivity.
Qed.

Lemma has_job_cancelled (id : Z) (t : Tables) : has_job id (cancelled id t) = false.
Proof. apply has_job_deleteJob. Qed.

Lemma has_job_completed path now hash (id : Z) (t : Tables) :
  has_job id (completed path now hash id t) = false.
Proof.
  apply has_job_false. unfold job_refs, completed. cbn [jobs].
  intros H. apply in_map_iff in H as [j [Hj Hin]].
  apply filter_In in Hin as [_ Hne]. subst id.
  rewrite Z.eqb_refl in Hne. discriminate.
Qed.

(** A row that is handled without failure has no job afterwards. *)
Lemma recoverJob_ok_clears (now : Z) (entry : Entry) (fs : Fs.FS)
    (d : Database) u fs' d' :
  recoverJob now entry fs d = (inr u, fs', d') ->
  has_job (ID entry) (tables d') = false.
Proof.
  unfold recoverJob. destruct (looksCompleted fs entry).
  - rewrite completeIncompleteJob_eq, CompleteTranscoding_eq.
    cbn [withPath Path ID].
    destruct (Fs.HashFile _ _) as [e|h]; cbn; [discriminate |].
    destruct (update_conflicts _ _ _ _); cbn; [discriminate |].
    intros H. inversion H; subst. apply has_job_completed.
  - rewrite rollbackIncompleteJob_eq. intros H. inversion H; subst.
    apply has_job_cancelled.
Qed.

Section NoJob.

Variable id : Z.

Local Abbreviation free := (fun t : Tables => has_job id t = false).

Lemma free_deleteJob lib_id : stmt_preserves free (Sql.deleteJob lib_id).
Proof.
  intros t t' H Ht. inversion H; subst. clear H.
  apply has_job_false. apply has_job_false in Ht.
  rewrite job_refs_deleteJob. intros Hin. apply filter_In in Hin as [Hin _].
  contradiction.
Qed.

Lemma free_updateEntry path tr hash lib_id :
  stmt_preserves free (Sql.updateEntry path tr hash lib_id).
Proof.
  intros t t' H Ht. apply updateEntry_jobs in H as [H _].
  unfold has_job in *. rewrite H. exact Ht.
Qed.

End NoJob.

(** The recovery pass never opens a job, and a pass that ends without
    failure has deleted the job of every row it scanned. *)
Lemma forRows_clears (clock : nat -> Z) (rows : list Entry) :
  forall i fs d u fs' d',
    forRows clock i rows fs d = (inr u, fs', d') ->
    forall entry, List.In entry rows -> has_job (ID entry) (tables d') = false.
Proof.
  induction rows as [|a rest IH]; intros i fs d u fs' d' H entry Hin.
  - destruct Hin.
  - cbn [forRows] in H.
    destruct (recoverJob (clock i) a fs d) as [[[e|u1] fs1] d1] eqn:E;
      [discriminate |].
    destruct Hin as [<-|Hin].
    + apply recoverJob_ok_clears in E.
      pose proof (forRows_preserves (fun t => has_job (ID a) t = false)
                    (free_deleteJob (ID a)) (free_updateEntry (ID a))
                    clock rest (S i) fs1 d1 E) as Hp.
      rewrite H in Hp. exact Hp.
    + eapply IH; eassumption.
Qed.

Lemma HashFile_error (fs : Fs.FS) (path : string) (e : error) :
  Fs.HashFile fs path = inl e -> e = ErrNotExist path /\ fs !! path = None.
Proof.
  unfold Fs.HashFile. destruct (fs !! path) as [data|].
  - destruct (hashReader_total data) as [h [_ Hh]]. rewrite Hh. discriminate.
  - intros H. inversion H. auto.
Qed.

Lemma recoverJob_error (now : Z) (entry : Entry) (fs : Fs.FS) (d : Database)
    e fs' d' :
  recoverJob now entry fs d = (inl e, fs', d') ->
  looksCompleted fs entry = true /\
  fs' = finalized entry fs /\
  tables d' = tables d /\
  (e = ErrNotExist (final entry) /\ finalized entry fs !! final entry = None
   \/ e = ErrUnique).
Proof.
  unfold recoverJob. destruct (looksCompleted fs entry).
  - rewrite completeIncompleteJob_eq, CompleteTranscoding_eq.
    cbn [withPath Path ID].
    destruct (Fs.HashFile _ _) as [e0|h] eqn:Eh; cbn.
    + intros H. inversion H; subst.
      apply HashFile_error in Eh as [-> Hnone]. auto 6.
    + destruct (update_conflicts _ _ _ _); cbn; [| discriminate].
      intros H. inversion H; subst. auto 6.
  - rewrite rollbackIncompleteJob_eq. discriminate.
Qed.

Lemma forRows_error (clock : nat -> Z) (rows : list Entry) :
  forall i fs d e fs' d',
    forRows clock i rows fs d = (inl e, fs', d') ->
    e <> ErrQueryReturnedNoRows.
Proof.
  induction rows as [|a rest IH]; intros i fs d e fs' d' H; cbn [forRows] in H.
  - discriminate.
  - destruct (recoverJob (clock i) a fs d) as [[[e1|u1] fs1] d1] eqn:E.
    + inversion H; subst.
      apply recoverJob_error in E as (_ & _ & _ & [[-> _]| ->]); discriminate.
    + eapply IH; eassumption.
Qed.

Lemma recoverIncompleteJobs_eq (clock : nat -> Z) (fs : Fs.FS) (d : Database) :
  recoverIncompleteJobs clock fs d =
    forRows clock 0 (Sql.selectIncompleteJobs (tables d)) fs d.
Proof.
  unfold recoverIncompleteJobs, QueryRows.
  destruct (Sql.selectIncompleteJobs (tables d)) as [|a rest]; [reflexivity |].
  destruct (forRows clock 0 (a :: rest) fs d) as [[[e|u] fs'] d'] eqn:E;
    [| reflexivity].
  apply forRows_error in E. destruct e; try reflexivity. contradiction.
Qed.

Lemma append_inj_l (s s1 s2 : string) :
  String.append s s1 = String.append s s2 -> s1 = s2.
Proof.
  induction s as [|c s IH]; cbn; intros H; [exact H |].
  inversion H. auto.
Qed.

Lemma intermediate_ne_final (entry : Entry) : intermediate entry <> final entry.
Proof.
  unfold intermediate, final, Fs.ReplaceExtension. intros H.
  apply append_inj_l in H. discriminate.
Qed.

(** The rename of [completeIncompleteJob]: an intermediate artifact ends up
    under the final name and no intermediate is left; without one the file
    system is unchanged. *)
Lemma finalized_spec (entry : Entry) (fs : Fs.FS) :
  finalized entry fs !! intermediate entry = None /\
  (forall c, fs !! intermediate entry = Some c ->
             finalized entry fs !! final entry = Some c) /\
  (fs !! intermediate entry = None -> finalized entry fs = fs).
Proof.
  unfold finalized. pose proof (intermediate_ne_final entry) as Hne.
  destruct (fs !! intermediate entry) as [c|] eqn:E.
  - split; [| split].
    + rewrite lookup_insert_ne by congruence. apply lookup_delete_eq.
    + intros c' Hc. inversion Hc; subst. apply lookup_insert_eq.
    + discriminate.
  - split; [exact E | split; [discriminate | reflexivity]].
Qed.

(** *** The order of the rows that the pass scans *)

Lemma In_insertByLibraryId (j x : Job) (l : list Job) :
  List.In x (Sql.insertByLibraryId j l) <-> x = j \/ List.In x l.
Proof.
  induction l as [|k rest IH]; cbn.
  - split; intros [H|H]; auto.
  - destruct (library_id j <=? library_id k); cbn; [| rewrite IH];
      intuition auto.
Qed.

Lemma In_jobsByLibraryId (x : Job) (js : list Job) :
  List.In x (Sql.jobsByLibraryId js) <-> List.In x js.
Proof.
  induction js as [|j js IH]; cbn; [reflexivity |].
  rewrite In_insertByLibraryId, IH. intuition auto.
Qed.

Lemma insertByLibraryId_sorted (j : Job) (l : list Job) :
  StronglySorted (fun a b => library_id a <= library_id b) l ->
  StronglySorted (fun a b => library_id a <= library_id b)
    (Sql.insertByLibraryId j l).
Proof.
  induction l as [|k rest IH]; cbn; intros Hs.
  - constructor; constructor.
  - apply StronglySorted_inv in Hs as [Hrest Hk].
    destruct (Z.leb_spec (library_id j) (library_id k)) as [Hle|Hgt].
    + constructor; [constructor; assumption |].
      constructor; [exact Hle |].
      eapply List.Forall_impl; [| exact Hk]. cbn. intros a Ha. lia.
    + constructor; [apply IH; exact Hrest |].
      apply List.Forall_forall. intros x Hx.
      apply In_insertByLibraryId in Hx as [->|Hx]; [lia |].
      rewrite List.Forall_forall in Hk. apply Hk. exact Hx.
Qed.

Lemma jobsByLibraryId_sorted (js : list Job) :
  StronglySorted (fun a b => library_id a <= library_id b)
    (Sql.jobsByLibraryId js).
Proof.
  induction js as [|j js IH]; cbn; [constructor |].
  apply insertByLibraryId_sorted. exact IH.
Qed.

Lemma StronglySorted_le_app (l1 l2 : list Z) :
  StronglySorted Z.le l1 -> StronglySorted Z.le l2 ->
  (forall x y, List.In x l1 -> List.In y l2 -> x <= y) ->
  StronglySorted Z.le (l1 ++ l2).
Proof.
  induction l1 as [|a l1 IH]; cbn; intros H1 H2 Hle; [exact H2 |].
  apply StronglySorted_inv in H1 as [H1 Ha].
  constructor; [apply IH; auto |].
  apply List.Forall_forall. intros x Hx.
  rewrite List.Forall_forall in Ha.
  apply in_app_or in Hx as [Hx|Hx]; auto.
Qed.

Lemma selectIncompleteJobs_In (t : Tables) (e : Entry) :
  List.In e (Sql.selectIncompleteJobs t) <->
  List.In e (library t) /\ has_job (ID e) t = true.
Proof.
  unfold Sql.selectIncompleteJobs. rewrite in_flat_map. split.
  - intros [j [Hj He]]. apply (proj1 (In_jobsByLibraryId _ _)) in Hj.
    apply filter_In in He as [He Hid].
    apply Z.eqb_eq in Hid. split; [exact He |].
    apply has_job_In. unfold job_refs. rewrite Hid. apply in_map. exact Hj.
  - intros [He Hjob]. apply has_job_In in Hjob.
    apply in_map_iff in Hjob as [j [Hid Hj]].
    exists j. split; [apply (proj2 (In_jobsByLibraryId _ _)); exact Hj |].
    apply filter_In. split; [exact He |].
    apply Z.eqb_eq. congruence.
Qed.

Lemma rows_of_id_sorted (id : Z) (rows : list Entry) :
  StronglySorted Z.le (map ID (List.filter (fun r => ID r =? id) rows)).
Proof.
  induction rows as [|r rows IH]; cbn; [constructor |].
  destruct (Z.eqb_spec (ID r) id) as [Heq|Hne]; [| exact IH].
  cbn. constructor; [exact IH |].
  apply List.Forall_forall. intros x Hx.
  apply in_map_iff in Hx as [r' [<- Hr']].
  apply filter_In in Hr' as [_ Hid]. apply Z.eqb_eq in Hid. lia.
Qed.

(** The rows of the join come by increasing identifier. *)
Lemma selectIncompleteJobs_sorted (t : Tables) :
  StronglySorted Z.le (map ID (Sql.selectIncompleteJobs t)).
Proof.
  unfold Sql.selectIncompleteJobs.
  pose proof (jobsByLibraryId_sorted (jobs t)) as Hs.
  induction Hs as [|j js Hs IH Hj]; cbn; [constructor |].
  rewrite map_app. apply StronglySorted_le_app.
  - apply rows_of_id_sorted.
  - exact IH.
  - intros x y Hx Hy.
    apply in_map_iff in Hx as [r [<- Hr]].
    apply filter_In in Hr as [_ Hid]. apply Z.eqb_eq in Hid.
    apply in_map_iff in Hy as [r' [<- Hr']].
    apply in_flat_map in Hr' as [k [Hk Hr']].
    apply filter_In in Hr' as [_ Hid']. apply Z.eqb_eq in Hid'.
    rewrite List.Forall_forall in Hj. specialize (Hj k Hk). cbn in Hj. lia.
Qed.

(** Two jobs added in the order 2, 1 are scanned in the order 1, 2. *)
Example selectIncompleteJobs_index_order :
  let t := tables (createAndPopulate
                     [mkEntry 0 "a.avi" 8 None 16;
                      mkEntry 0 "b.avi" 9 None 32] [2; 1]) in
  map library_id (jobs t) = [2; 1] /\
  Sql.selectIncompleteJobs t =
    [mkEntry 1 "a.avi" 8 None 16; mkEntry 2 "b.avi" 9 None 32].
Proof. cbv zeta. split; vm_compute; reflexivity. Qed.

(** C1 does not hold as stated: a job row classified as completed is not
    always resolved.  The source "test.avi" was edited after the claim (its
    fingerprint differs from the stored one) and there is no artifact; the
    row is classified as completed, the fingerprint of "test.mp4" cannot be
    computed, [Open] fails, and the job row is still in the store. *)
Lemma recovery_counterexample :
  let entry := mkEntry 1 "test.avi" 42 None 7 in
  Sql.selectIncompleteJobs (stored crashed_store) = [entry] /\
  looksCompleted crashed_files entry = true /\
  Open (fun _ => 200) crashed_files (Some crashed_store)
    = (inl (ErrNotExist "test.mp4"), crashed_files, Some crashed_store) /\
  has_job (ID entry) (stored crashed_store) = true.
Proof. cbv zeta. repeat split; vm_compute; reflexivity. Qed.

(** C1, amended.  The recovery pass handles the rows of the join of the
    job table with the library in the order in which the join returns them,
    which is by increasing entry identifier (the order of the index on
    [jobs.library_id]) and not the order in which the jobs were added, each
    on the file system and store left by the previous one, and stops at the
    first failure.  A row counts
    as completed when the fingerprint of its path can be recomputed and
    differs from the stored one, or its path is missing while the
    intermediate artifact exists.
    - A completed row: the intermediate artifact, if any, is renamed to the
      final name, and [CompleteTranscoding] is run on the entry with the
      final name as its path.  When the fingerprint of the final name can be
      computed and the update meets no uniqueness conflict, the row gets the
      final name, that fingerprint and the completion time, and its job is
      deleted.  Otherwise the pass fails and the tables are unchanged: the job
      stays.
    - Any other row: the intermediate artifact, if any, is deleted and the
      job is deleted; the library is untouched and the row is never a failure.
    A pass that ends without failure leaves none of the scanned rows with a
    job. *)
Theorem recovery_resolves_jobs
    (now : Z) (entry : Entry) (fs : Fs.FS) (d : Database) :
  (looksCompleted fs entry = true <->
     (exists h, Fs.HashFile fs (Path entry) = inr h /\ h <> Hash entry) \/
     (fs !! Path entry = None /\ fs !! intermediate entry <> None))
  /\
  (looksCompleted fs entry = true ->
     let fs1 := finalized entry fs in
     let outcome :=
       CompleteTranscoding fs1 now (withPath entry (final entry)) d in
     recoverJob now entry fs d = (fst outcome, fs1, snd outcome) /\
     fs1 !! intermediate entry = None /\
     (forall c, fs !! intermediate entry = Some c ->
                fs1 !! final entry = Some c) /\
     (fs !! intermediate entry = None -> fs1 = fs) /\
     (forall h,
        Fs.HashFile fs1 (final entry) = inr h ->
        update_conflicts (final entry) h (ID entry) (tables d) = false ->
        recoverJob now entry fs d =
          (ok, fs1,
           mkDatabase (completed (final entry) now h (ID entry) (tables d))
             (txns d + 1)) /\
        has_job (ID entry)
          (completed (final entry) now h (ID entry) (tables d)) = false))
  /\
  (forall e fs' d',
     recoverJob now entry fs d = (inl e, fs', d') ->
     looksCompleted fs entry = true /\
     fs' = finalized entry fs /\
     tables d' = tables d /\
     (e = ErrNotExist (final entry) /\ finalized entry fs !! final entry = None
      \/ e = ErrUnique))
  /\
  (looksCompleted fs entry = false ->
     recoverJob now entry fs d =
       (ok, delete (intermediate entry) fs,
        mkDatabase (cancelled (ID entry) (tables d)) (txns d + 1)) /\
     has_job (ID entry) (cancelled (ID entry) (tables d)) = false /\
     library (cancelled (ID entry) (tables d)) = library (tables d))
  /\
  (forall clock i rest,
     forRows clock i (entry :: rest) fs d =
       match recoverJob (clock i) entry fs d with
       | (inl e, fs', d') => (inl e, fs', d')
       | (inr _, fs', d') => forRows clock (S i) rest fs' d'
       end)
  /\
  (forall clock,
     recoverIncompleteJobs clock fs d =
       forRows clock 0 (Sql.selectIncompleteJobs (tables d)) fs d)
  /\
  StronglySorted Z.le (map ID (Sql.selectIncompleteJobs (tables d)))
  /\
  (forall row,
     List.In row (Sql.selectIncompleteJobs (tables d)) <->
     List.In row (library (tables d)) /\ has_job (ID row) (tables d) = true)
  /\
  (forall clock u fs' d',
     recoverIncompleteJobs clock fs d = (inr u, fs', d') ->
     forall row, List.In row (Sql.selectIncompleteJobs (tables d)) ->
                 has_job (ID row) (tables d') = false).
Proof.
  split; [apply looksCompleted_iff |].
  split.
  { intros Hc fs1 outcome.
    destruct (finalized_spec entry fs) as (Hgone & Hmoved & Hsame).
    split.
    { unfold recoverJob. rewrite Hc. apply completeIncompleteJob_eq. }
    split; [exact Hgone |]. split; [exact Hmoved |]. split; [exact Hsame |].
    intros h Hh Hfree. split; [| apply has_job_completed].
    unfold recoverJob. rewrite Hc, completeIncompleteJob_eq.
    rewrite CompleteTranscoding_eq. cbn [withPath Path ID].
    fold fs1. rewrite Hh, Hfree. reflexivity. }
  split; [intros e fs' d'; apply recoverJob_error |].
  split.
  { intros Hc. split; [| split; [apply has_job_cancelled | reflexivity]].
    unfold recoverJob. rewrite Hc. apply rollbackIncompleteJob_eq. }
  split; [reflexivity |].
  split; [intros clock; apply recoverIncompleteJobs_eq |].
  split; [apply selectIncompleteJobs_sorted |].
  split; [intros row; apply selectIncompleteJobs_In |].
  intros clock u fs' d' H row Hrow.
  rewrite recoverIncompleteJobs_eq in H.
  eapply forRows_clears; eassumption.
Qed.

Lemma recovery_resolves_jobs_witness :
  let entry := mkEntry 1 "test.avi" 42 None 7 in
  let d := mkDatabase (stored crashed_store) 0 in
  looksCompleted transcoded_files entry = true /\
  recoverJob 200 entry transcoded_files d =
    (ok, {[ "test.mp4" := [x30] ]},
     mkDatabase
       (mkTables [mkEntry 1 "test.mp4" 42 (Some 200) 4108050209] 1 [] 1) 1).
Proof.
  cbv zeta.
  assert (Hc : looksCompleted transcoded_files (mkEntry 1 "test.avi" 42 None 7)
               = true) by (vm_compute; reflexivity).
  split; [exact Hc |].
  destruct (recovery_resolves_jobs 200 (mkEntry 1 "test.avi" 42 None 7)
              transcoded_files (mkDatabase (stored crashed_store) 0))
    as (_ & Hcompleted & _).
  destruct (Hcompleted Hc) as (_ & _ & _ & _ & Hok).
  destruct (Hok 4108050209) as [Heq _].
  - vm_compute. reflexivity.
  - vm_compute. reflexivity.
  - rewrite Heq. vm_compute. reflexivity.
Defined.

(** ** Agreement with the tests of the repository *)

(** [TestDatabaseUpsertIgnoreEntry], [TestDatabaseUpsertRenameEntry] and
    [TestDatabaseUpsertHashUpdated]. *)
Example test_UpsertIgnoreEntry :
  library (tables (createAndPopulate
                     [mkEntry 0 "test.mp4" 8 (Some 0) 32;
                      mkEntry 0 "test.mp4" 8 None 32] []))
  = [mkEntry 1 "test.mp4" 8 (Some 0) 32].
Proof. reflexivity. Qed.

Example test_UpsertRenameEntry :
  library (tables (createAndPopulate
                     [mkEntry 0 "test.mp4" 8 (Some 0) 32;
                      mkEntry 0 "renamed.mp4" 8 None 32] []))
  = [mkEntry 1 "renamed.mp4" 8 (Some 0) 32].
Proof. reflexivity. Qed.

Example test_UpsertHashUpdated :
  library (tables (createAndPopulate
                     [mkEntry 0 "test.mp4" 8 (Some 0) 32;
                      mkEntry 0 "test.mp4" 8 None 64] []))
  = [mkEntry 2 "test.mp4" 8 None 64].
Proof. reflexivity. Qed.

(** [TestDatabaseRemove]. *)
Example test_Remove :
  tables (snd (Remove (mkEntry 1 EmptyString 0 None 0)
                 (createAndPopulate [mkEntry 0 "test.mp4" 8 (Some 0) 32] [])))
  = mkTables [] 1 [] 0.
Proof. reflexivity. Qed.

(** [TestOpenNotFound], and a store of an unsupported version. *)
Example test_OpenNotFound (clock : nat -> Z) (fs : Fs.FS) :
  Open clock fs None = (inl ErrNotFound, fs, None).
Proof. reflexivity. Qed.

Example test_OpenUnknownVersion (clock : nat -> Z) (fs : Fs.FS) (t : Tables) :
  Open clock fs (Some (mkStored 2 t))
  = (inl ErrUnknownVersion, fs, Some (mkStored 2 t)).
Proof. reflexivity. Qed.

(** [TestDatabaseBeginTranscodingNoEntries] and
    [TestDatabaseCompleteTranscoding]. *)
Example test_BeginTranscodingNoEntries :
  fst (BeginTranscoding 5 Create) = inl ErrQueryReturnedNoRows.
Proof. reflexivity. Qed.

Example test_CompleteTranscoding :
  library
    (tables
       (snd (CompleteTranscoding
               {[ "test.mp4" := list_byte_of_string "Hello, World!" ]} 9
               (mkEntry 1 "test.mp4" 0 (Some 0) 0)
               (createAndPopulate [mkEntry 0 "test.mp4" 8 None 16] []))))
  = [mkEntry 1 "test.mp4" 8 (Some 9) 3964322768].
Proof. vm_compute. reflexivity. Qed.

(** The cases of [TestOpenRecoverIncompleteJobs]. *)
Example test_OneJobBothFilesExist :
  reopen [mkEntry 0 "test.mp4" 42 None hash_0] [1]
    ["test.mp4"; "test.transcoding.mp4"]
  = (None, test_files ["test.mp4"],
     Some (mkTables [mkEntry 1 "test.mp4" 42 None hash_0] 1 [] 1)).
Proof. vm_compute. reflexivity. Qed.

Example test_OneJobOnlySourceFileExists :
  reopen [mkEntry 0 "test.mp4" 42 None hash_0] [1] ["test.mp4"]
  = (None, test_files ["test.mp4"],
     Some (mkTables [mkEntry 1 "test.mp4" 42 None hash_0] 1 [] 1)).
Proof. vm_compute. reflexivity. Qed.

Example test_OneJobOnlyTargetFileExists :
  reopen [mkEntry 0 "test.avi" 42 None hash_old] [1] ["test.transcoding.mp4"]
  = (None, test_files ["test.mp4"],
     Some (mkTables [mkEntry 1 "test.mp4" 42 (Some 200) hash_0] 1 [] 1)).
Proof. vm_compute. reflexivity. Qed.

Example test_OneJobOnlyTargetFileExistsSameName :
  reopen [mkEntry 0 "test.mp4" 42 None hash_old] [1] ["test.mp4"]
  = (None, test_files ["test.mp4"],
     Some (mkTables [mkEntry 1 "test.mp4" 42 (Some 200) hash_0] 1 [] 1)).
Proof. vm_compute. reflexivity. Qed.

Example test_OneJobOnlyTargetFileExistsNotYetRenamed :
  reopen [mkEntry 0 "test.mp4" 42 None hash_old] [1] ["test.transcoding.mp4"]
  = (None, test_files ["test.mp4"],
     Some (mkTables [mkEntry 1 "test.mp4" 42 (Some 200) hash_0] 1 [] 1)).
Proof. vm_compute. reflexivity. Qed.

(** An update pool drains nothing. *)
Lemma Stop_update_pool (queued : list Entry) (d : Database) :
  Pool.Stop (Pool.NewUpdatePool queued []) d = (ok, d).
Proof.
  unfold Pool.Stop. cbn. induction queued as [|entry rest IH]; cbn; auto.
Qed.

(** * Further properties of the code *)

(** ** Paths *)

Section Paths.

Local Open Scope nat_scope.

Lemma append_cons (c : ascii) (s1 s2 : string) :
  String.append (String c s1) s2 = String c (String.append s1 s2).
Proof. reflexivity. Qed.

Lemma append_empty_r (s : string) : String.append s EmptyString = s.
Proof.
  induction s as [|c s IH]; [reflexivity |].
  change (String c (String.append s EmptyString) = String c s).
  rewrite IH. reflexivity.
Qed.

Lemma substring_full (s : string) : String.substring 0 (String.length s) s = s.
Proof. induction s as [|c s IH]; simpl; [reflexivity | f_equal; exact IH]. Qed.

Lemma substring_none (s : string) :
  forall n, String.substring n 0 s = EmptyString.
Proof.
  induction s as [|c s IH]; intros [|n]; cbn; auto.
Qed.

Lemma substring_split (s : string) :
  forall i, i <= String.length s ->
    String.append (String.substring 0 i s)
      (String.substring i (String.length s - i) s) = s.
Proof.
  induction s as [|c s IH]; intros [|i] Hi; simpl in *; try lia.
  - reflexivity.
  - rewrite substring_full. reflexivity.
  - rewrite append_cons, IH by lia. reflexivity.
Qed.

Lemma length_substring_tail (s : string) :
  forall i, i <= String.length s ->
    String.length (String.substring i (String.length s - i) s)
    = String.length s - i.
Proof.
  induction s as [|c s IH]; intros [|i] Hi; simpl in *; try lia.
  - rewrite substring_full. reflexivity.
  - apply IH. lia.
Qed.

Lemma length_append (s1 s2 : string) :
  String.length (String.append s1 s2) = String.length s1 + String.length s2.
Proof.
  induction s1 as [|c s1 IH]; [reflexivity |].
  change (S (String.length (String.append s1 s2))
          = S (String.length s1 + String.length s2)).
  rewrite IH. reflexivity.
Qed.

Lemma extLoop_cases (s : string) :
  forall n, n <= String.length s ->
    (forall j, n <= j < String.length s ->
               String.get j s <> Some "."%char /\
               String.get j s <> Some "/"%char) ->
    Fs.extLoop n s = EmptyString \/
    exists i, i < n /\ String.get i s = Some "."%char /\
              Fs.extLoop n s = String.substring i (String.length s - i) s /\
              plain_after i s.
Proof.
  induction n as [|n IH]; intros Hn Hplain; cbn [Fs.extLoop].
  - left. reflexivity.
  - destruct (String.get n s) as [c|] eqn:Eget; [| left; reflexivity].
    destruct (Ascii.eqb_spec c "/"); [left; reflexivity |].
    destruct (Ascii.eqb_spec c ".") as [->|Hdot].
    + right. exists n. split; [lia |]. split; [exact Eget |].
      split; [reflexivity |]. intros j Hj. apply Hplain. lia.
    + destruct IH as [Hempty | (i & Hi & Hg & Heq & Hafter)].
      * lia.
      * intros j Hj. destruct (Nat.eq_dec j n) as [->|Hne].
        -- rewrite Eget. split; congruence.
        -- apply Hplain. lia.
      * left. exact Hempty.
      * right. exists i. split; [lia |]. auto.
Qed.

Lemma Ext_cases (s : string) :
  Fs.Ext s = EmptyString \/
  exists i, i < String.length s /\ String.get i s = Some "."%char /\
            Fs.Ext s = String.substring i (String.length s - i) s /\
            plain_after i s.
Proof. apply extLoop_cases; [lia | intros j Hj; lia]. Qed.

Lemma HasSuffix_tail (s : string) (i : nat) :
  i <= String.length s ->
  Fs.HasSuffix s (String.substring i (String.length s - i) s) = true.
Proof.
  intros Hi. unfold Fs.HasSuffix.
  rewrite length_substring_tail by exact Hi.
  replace (String.length s - (String.length s - i)) with i by lia.
  rewrite String.eqb_refl, andb_true_r. apply Nat.leb_le. lia.
Qed.

(** The path is its stem followed by its extension. *)
Lemma TrimSuffix_Ext (s : string) :
  String.append (Fs.TrimSuffix s (Fs.Ext s)) (Fs.Ext s) = s.
Proof.
  destruct (Ext_cases s) as [-> | (i & Hi & _ & -> & _)].
  - unfold Fs.TrimSuffix, Fs.HasSuffix. cbn [String.length].
    rewrite Nat.sub_0_r, substring_none, substring_full. cbn.
    apply append_empty_r.
  - unfold Fs.TrimSuffix. rewrite HasSuffix_tail by lia.
    rewrite length_substring_tail by lia.
    replace (String.length s - (String.length s - i)) with i by lia.
    apply substring_split. lia.
Qed.

End Paths.

Section PathProperties.

Local Open Scope nat_scope.

Lemma substring_append_tail (a b : string) (m : nat) :
  String.substring (String.length a) m (String.append a b)
  = String.substring 0 m b.
Proof.
  induction a as [|c a IH]; [reflexivity |].
  rewrite append_cons. simpl. exact IH.
Qed.

Lemma substring_append_head (a b : string) :
  String.substring 0 (String.length a) (String.append a b) = a.
Proof.
  induction a as [|c a IH]; [simpl; apply substring_none |].
  rewrite append_cons. simpl. rewrite IH. reflexivity.
Qed.

Lemma HasSuffix_append (a b : string) : Fs.HasSuffix (String.append a b) b = true.
Proof.
  unfold Fs.HasSuffix. rewrite length_append.
  replace (String.length a + String.length b - String.length b)
    with (String.length a) by lia.
  rewrite substring_append_tail, substring_full, String.eqb_refl, andb_true_r.
  apply Nat.leb_le. lia.
Qed.

Lemma TrimSuffix_append (a b : string) :
  Fs.TrimSuffix (String.append a b) b = a.
Proof.
  unfold Fs.TrimSuffix. rewrite HasSuffix_append, length_append.
  replace (String.length a + String.length b - String.length b)
    with (String.length a) by lia.
  apply substring_append_head.
Qed.

(** The extension never has a dot past its first character. *)
Lemma Ext_no_inner_dot (s : string) (k : nat) :
  0 < k -> String.get k (Fs.Ext s) <> Some "."%char.
Proof.
  intros Hk. destruct (Ext_cases s) as [-> | (i & Hi & _ & -> & Hafter)].
  - destruct k; discriminate.
  - destruct (Nat.lt_ge_cases k (String.length s - i)) as [Hlt|Hge].
    + rewrite (substring_correct1 s i (String.length s - i) k Hlt).
      apply Hafter. lia.
    + rewrite substring_correct2 by exact Hge. discriminate.
Qed.

Lemma Ext_not_TranscodingExtension (s : string) :
  Fs.Ext s <> Fs.TranscodingExtension.
Proof.
  intros H. apply (Ext_no_inner_dot s 12); [lia |]. rewrite H. reflexivity.
Qed.

Lemma Ext_append_TargetExtension (a : string) :
  Fs.Ext (String.append a Fs.TargetExtension) = Fs.TargetExtension.
Proof.
  unfold Fs.Ext, Fs.TargetExtension. rewrite length_append.
  change (String.length ".mp4") with 4.
  replace (String.length a + 4) with (S (S (S (S (String.length a))))) by lia.
  pose proof (append_correct2 a ".mp4" 3) as H3.
  pose proof (append_correct2 a ".mp4" 2) as H2.
  pose proof (append_correct2 a ".mp4" 1) as H1.
  pose proof (append_correct2 a ".mp4" 0) as H0.
  cbn [Nat.add] in H3, H2, H1, H0.
  cbn [Fs.extLoop].
  rewrite <- H3, <- H2, <- H1, <- H0. cbn.
  rewrite substring_append_tail, length_append.
  replace (String.length a + String.length ".mp4" - String.length a)
    with 4 by (cbn; lia).
  reflexivity.
Qed.

End PathProperties.

(** X1.  A path is its stem followed by its extension: replacing the
    extension of a path by that same extension gives the path back. *)
Theorem ReplaceExtension_own_extension (path : string) :
  Fs.ReplaceExtension path (Fs.Ext path) = path.
Proof. apply TrimSuffix_Ext. Qed.

(** X2.  The in-progress artifact of a path is never the path itself nor
    its final name, whatever the path, and it always carries the
    in-progress suffix. *)
Theorem intermediate_is_fresh (path : string) :
  Fs.ReplaceExtension path Fs.TranscodingExtension <> path /\
  Fs.ReplaceExtension path Fs.TranscodingExtension
    <> Fs.ReplaceExtension path Fs.TargetExtension /\
  Fs.HasSuffix (Fs.ReplaceExtension path Fs.TranscodingExtension)
    Fs.TranscodingExtension = true.
Proof.
  split; [| split].
  - unfold Fs.ReplaceExtension. intros H.
    rewrite <- (TrimSuffix_Ext path) in H at 3.
    apply append_inj_l in H. symmetry in H.
    exact (Ext_not_TranscodingExtension path H).
  - unfold Fs.ReplaceExtension. intros H. apply append_inj_l in H.
    discriminate.
  - apply HasSuffix_append.
Qed.

(** X3.  Once a path carries the target extension, replacing its extension
    only swaps that extension: replacing the extension by the target and
    then by any other is replacing it by the other at once, and the final
    name of a final name is itself. *)
Theorem ReplaceExtension_after_target (path extension : string) :
  Fs.ReplaceExtension (Fs.ReplaceExtension path Fs.TargetExtension) extension
  = Fs.ReplaceExtension path extension
  /\ Fs.Ext (Fs.ReplaceExtension path Fs.TargetExtension) = Fs.TargetExtension.
Proof.
  assert (Hext : Fs.Ext (Fs.ReplaceExtension path Fs.TargetExtension)
                 = Fs.TargetExtension)
    by (unfold Fs.ReplaceExtension; apply Ext_append_TargetExtension).
  split; [| exact Hext].
  unfold Fs.ReplaceExtension at 1. rewrite Hext.
  unfold Fs.ReplaceExtension at 1. rewrite TrimSuffix_append. reflexivity.
Qed.

(** ** The fingerprint, again *)

(** X4.  A file of at most one block (4096 bytes) hashes to the CRC-32 of
    its whole content; the empty file hashes to zero. *)
Theorem hashReader_small_file (data : list byte) :
  Z.of_nat (length data) <= Hash.BufferSize ->
  Hash.hashReader data = inr (Hash.Update 0 data) /\
  Hash.hashReader [] = inr 0.
Proof.
  intros Hlen. split; [| reflexivity].
  destruct data as [|b data]; [reflexivity |].
  assert (Htake : take (Z.to_nat Hash.BufferSize) (b :: data) = b :: data).
  { apply take_ge. lia. }
  pose proof (hashReader_first_block (b :: data)) as H. cbv zeta in H.
  rewrite Htake in H. apply H; [discriminate |].
  pose proof (seek_amount_nonneg (Hash.Update 0 (b :: data))). lia.
Qed.

Lemma hashReader_small_file_witness :
  Hash.hashReader (list_byte_of_string "Hello, World!")
  = inr (Hash.Update 0 (list_byte_of_string "Hello, World!")).
Proof.
  apply (hashReader_small_file (list_byte_of_string "Hello, World!")).
  vm_compute. discriminate.
Defined.

(** X5.  The sampling collides by construction: two files that share
    their first block, neither reaching past the offset at which the first
    jump lands, have the same fingerprint. *)
Theorem hashReader_collision (data1 data2 : list byte) :
  data1 <> [] ->
  take (Z.to_nat Hash.BufferSize) data1 = take (Z.to_nat Hash.BufferSize) data2 ->
  let block := take (Z.to_nat Hash.BufferSize) data1 in
  let landing :=
    Z.of_nat (length block) + Hash.Update 0 block mod Hash.MaxSeekSize in
  Z.of_nat (length data1) <= landing ->
  Z.of_nat (length data2) <= landing ->
  Hash.hashReader data1 = Hash.hashReader data2.
Proof.
  intros Hne Hsame block landing H1 H2.
  assert (Hne2 : data2 <> []).
  { intros ->. destruct data1 as [|b d]; [congruence |].
    rewrite take_nil in Hsame.
    assert (Hl : length (take (Z.to_nat Hash.BufferSize) (b :: d)) = 0%nat)
      by (rewrite Hsame; reflexivity).
    rewrite length_take in Hl. cbn [length] in Hl.
    assert (1 <= Z.to_nat Hash.BufferSize)%nat by (unfold Hash.BufferSize; lia).
    lia. }
  pose proof (hashReader_first_block data1 Hne) as Ha.
  pose proof (hashReader_first_block data2 Hne2) as Hb.
  cbv zeta in Ha, Hb. rewrite <- Hsame in Hb.
  rewrite Ha, Hb by assumption. reflexivity.
Qed.

Lemma hashReader_collision_witness :
  Hash.hashReader (replicate (Z.to_nat 4096) "x"%byte)
  = Hash.hashReader (replicate (Z.to_nat 4096) "x"%byte ++ [x00; x01]).
Proof.
  apply hashReader_collision.
  - vm_compute. discriminate.
  - vm_compute. reflexivity.
  - vm_compute. discriminate.
  - vm_compute. discriminate.
Defined.

(** X6.  Hashing a file fails exactly when the file is missing: on every
    file that exists the sampling loop ends and yields a digest. *)
Theorem HashFile_fails_iff_missing (fs : Fs.FS) (path : string) :
  (forall e, Fs.HashFile fs path = inl e <->
             fs !! path = None /\ e = ErrNotExist path)
  /\ (fs !! path <> None <-> exists digest, Fs.HashFile fs path = inr digest).
Proof.
  split.
  - intros e. split.
    + intros H. apply HashFile_error in H. tauto.
    + intros [Hnone ->]. unfold Fs.HashFile. rewrite Hnone. reflexivity.
  - unfold Fs.HashFile. destruct (fs !! path) as [data|].
    + destruct (hashReader_total data) as [d [_ Hd]]. rewrite Hd.
      split; [eauto | discriminate].
    + split; [congruence | intros [d Hd]; discriminate].
Qed.

Section Uint32.

Import Hash.

Lemma lxor_bound (n a b : Z) :
  0 < n -> 0 <= a < 2 ^ n -> 0 <= b < 2 ^ n -> 0 <= Z.lxor a b < 2 ^ n.
Proof.
  intros Hn Ha Hb.
  assert (H0 : 0 <= Z.lxor a b) by (apply Z.lxor_nonneg; lia).
  split; [exact H0 |].
  destruct (Z.eq_dec (Z.lxor a b) 0) as [->|Hnz].
  - apply Z.pow_pos_nonneg; lia.
  - apply Z.log2_lt_pow2; [lia |].
    pose proof (Z.log2_lxor a b ltac:(lia) ltac:(lia)) as Hl.
    assert (Hla : Z.log2 a < n).
    { destruct (Z.eq_dec a 0) as [->|]; [cbn; lia |].
      apply Z.log2_lt_pow2; lia. }
    assert (Hlb : Z.log2 b < n).
    { destruct (Z.eq_dec b 0) as [->|]; [cbn; lia |].
      apply Z.log2_lt_pow2; lia. }
    lia.
Qed.

Lemma byteZ_bound (v : byte) : 0 <= byteZ v < 256.
Proof.
  unfold byteZ. pose proof (Byte.to_N_bounded v) as H. lia.
Qed.

Lemma table_bound (i : Z) : 0 <= i < 256 -> 0 <= table i < 2 ^ 32.
Proof.
  intros Hi.
  assert (Hall : forallb (fun n => (0 <=? table (Z.of_nat n)) &&
                                   (table (Z.of_nat n) <? 2 ^ 32))
                   (seq 0 256) = true) by (vm_compute; reflexivity).
  rewrite forallb_forall in Hall.
  specialize (Hall (Z.to_nat i)).
  rewrite Z2Nat.id in Hall by lia.
  assert (Hin : List.In (Z.to_nat i) (seq 0 256)) by (apply in_seq; lia).
  apply Hall in Hin. apply andb_true_iff in Hin as [H1 H2].
  apply Z.leb_le in H1. apply Z.ltb_lt in H2. lia.
Qed.

Lemma not32_bound (x : Z) : 0 <= x < 2 ^ 32 -> 0 <= not32 x < 2 ^ 32.
Proof. intros Hx. unfold not32. apply lxor_bound; lia. Qed.

Lemma updateByte_bound (crc : Z) (v : byte) :
  0 <= crc < 2 ^ 32 -> 0 <= updateByte crc v < 2 ^ 32.
Proof.
  intros Hc. unfold updateByte. apply lxor_bound; [lia | |].
  - apply table_bound. change 256 with (2 ^ 8). apply lxor_bound; [lia | |].
    + change 0xff with (Z.ones 8). rewrite Z.land_ones by lia.
      apply Z.mod_pos_bound. lia.
    + apply byteZ_bound.
  - rewrite Z.shiftr_div_pow2 by lia. split.
    + apply Z.div_pos; lia.
    + apply Z.div_lt_upper_bound; lia.
Qed.

Lemma Update_bound (p : list byte) :
  forall crc, 0 <= crc < 2 ^ 32 -> 0 <= Update crc p < 2 ^ 32.
Proof.
  intros crc Hc. unfold Update. apply not32_bound.
  apply not32_bound in Hc. revert Hc. generalize (not32 crc).
  induction p as [|v p IH]; intros c Hc; cbn [fold_left]; [exact Hc |].
  apply IH, updateByte_bound, Hc.
Qed.

Lemma hashLoop_bound (fuel : nat) :
  forall r digest d,
    0 <= digest < 2 ^ 32 ->
    hashLoop fuel r digest = Some (inr d) ->
    0 <= d < 2 ^ 32.
Proof.
  induction fuel as [|fuel IH]; intros r digest d Hd H; [discriminate |].
  cbn [hashLoop] in H.
  destruct (Read r) as [[buffer err] r1].
  destruct err as [e|].
  - destruct (length buffer =? 0)%nat; inversion H; subst; exact Hd.
  - destruct (Seek r1 _) as [e|r2]; [discriminate |].
    eapply IH; [| exact H]. apply Update_bound, Hd.
Qed.

End Uint32.

(** X7.  A fingerprint is a 32-bit unsigned value, for every file. *)
Theorem hashReader_uint32 (data : list byte) (digest : Z) :
  Hash.hashReader data = inr digest -> 0 <= digest < 2 ^ 32.
Proof.
  intros H. destruct (hashReader_total data) as [d [Hopt Hd]].
  rewrite Hd in H. inversion H; subst.
  unfold Hash.hashReaderOpt in Hopt.
  eapply hashLoop_bound; [| exact Hopt]. lia.
Qed.

Lemma hashReader_uint32_witness : 0 <= 3964322768 < 2 ^ 32.
Proof.
  apply (hashReader_uint32 (list_byte_of_string "Hello, World!")).
  vm_compute. reflexivity.
Defined.

(** ** The constraints of the schema hold in every reachable state *)

Lemma NoDup_map_filter {A B} (f : A -> B) (p : A -> bool) (l : list A) :
  List.NoDup (map f l) -> List.NoDup (map f (List.filter p l)).
Proof.
  induction l as [|a l IH]; cbn; intros H; [constructor |].
  inversion H as [|x l' Hnotin Hnd]; subst.
  destruct (p a); cbn; [| auto].
  constructor; [| auto].
  intros Hin. apply Hnotin. apply in_map_iff in Hin as [x [Hx Hin]].
  apply filter_In in Hin as [Hin _]. apply in_map_iff. eauto.
Qed.

Lemma map_unchanged {A} (g : A -> A) (l : list A) :
  (forall r, List.In r l -> g r = r) -> map g l = l.
Proof.
  induction l as [|a l IH]; cbn; intros H; [reflexivity |].
  rewrite H by auto. rewrite IH by auto. reflexivity.
Qed.

(** Rewriting a key of the rows of one identifier keeps the key unique
    when no other row holds the new value. *)
Lemma NoDup_map_update {B} (key : Entry -> B) (g : Entry -> Entry)
    (id : Z) (v : B) (l : list Entry) :
  List.NoDup (map ID l) ->
  List.NoDup (map key l) ->
  (forall r, ID r = id -> key (g r) = v) ->
  (forall r, ID r <> id -> g r = r) ->
  (forall r, List.In r l -> ID r <> id -> key r <> v) ->
  List.NoDup (map key (map g l)).
Proof.
  intros Hids Hkeys Hhit Hmiss Hfree.
  induction l as [|a l IH]; cbn; [constructor |].
  inversion Hids as [|x1 l1 Hid_notin Hids']; subst.
  inversion Hkeys as [|x2 l2 Hkey_notin Hkeys']; subst.
  constructor.
  - intros Hin. apply in_map_iff in Hin as [r' [Hk Hr']].
    apply in_map_iff in Hr' as [r [<- Hr]].
    destruct (Z.eq_dec (ID a) id) as [Ha|Ha];
      destruct (Z.eq_dec (ID r) id) as [Hr0|Hr0].
    + apply Hid_notin. apply in_map_iff. exists r. split; [congruence | auto].
    + rewrite (Hmiss r Hr0), (Hhit a Ha) in Hk.
      exact (Hfree r (or_intror Hr) Hr0 Hk).
    + rewrite (Hhit r Hr0), (Hmiss a Ha) in Hk.
      exact (Hfree a (or_introl eq_refl) Ha (eq_sym Hk)).
    + rewrite (Hmiss r Hr0), (Hmiss a Ha) in Hk.
      apply Hkey_notin. apply in_map_iff. eauto.
  - apply IH; auto. intros r Hr. apply Hfree. right. exact Hr.
Qed.

Lemma map_ID_update (g : Entry -> Entry) (l : list Entry) :
  (forall r, ID (g r) = ID r) -> map ID (map g l) = map ID l.
Proof.
  intros H. rewrite map_map. apply map_ext. exact H.
Qed.

Lemma find_None_forall {A} (f : A -> bool) (l : list A) :
  List.find f l = None -> forall x, List.In x l -> f x = false.
Proof. intros H x Hx. exact (find_none f l H x Hx). Qed.

Lemma store_ok_insertJob id now : stmt_preserves store_ok (Sql.insertJob id now).
Proof.
  intros t t' H Hok.
  pose proof (jobs_unique_insertJob id now t t' H (ok_refs t Hok)) as H0.
  unfold Sql.insertJob in H.
  destruct (has_job id t) eqn:Ejob; [discriminate |].
  destruct (existsb _ (library t)) eqn:Erow; [| discriminate].
  cbn in H. inversion H; subst t'. clear H.
  destruct Hok as [Hids Hpaths Hhashes Hseq Hrefs Hfk Hjids Hjseq [Hc1 Hc2]].
  constructor; cbn [library library_seq jobs jobs_seq]; auto.
  - intros id' Hin. unfold job_refs in Hin. cbn [jobs] in Hin.
    rewrite map_app in Hin. apply in_app_iff in Hin as [Hin|[<-|[]]].
    + apply Hfk. exact Hin.
    + apply existsb_exists in Erow as [r [Hr Heq]]. apply Z.eqb_eq in Heq.
      apply in_map_iff. eauto.
  - rewrite map_app. apply List.NoDup_app. repeat split.
    + exact Hjids.
    + repeat constructor. intros [].
    + intros x Hx [<-|[]]. apply in_map_iff in Hx as [j [Hj Hin]].
      apply Hjseq in Hin. cbn in Hj. lia.
  - intros j Hj. apply in_app_iff in Hj as [Hj|[<-|[]]].
    + apply Hjseq in Hj. lia.
    + cbn. lia.
  - lia.
Qed.

Lemma store_ok_deleteJob id : stmt_preserves store_ok (Sql.deleteJob id).
Proof.
  intros t t' H Hok.
  pose proof (jobs_unique_deleteJob id t t' H (ok_refs t Hok)) as Hu.
  inversion H; subst t'. clear H.
  destruct Hok as [Hids Hpaths Hhashes Hseq Hrefs Hfk Hjids Hjseq Hc].
  constructor; cbn [library library_seq jobs jobs_seq]; auto.
  - intros id' Hin. rewrite job_refs_deleteJob in Hin.
    apply filter_In in Hin as [Hin _]. apply Hfk. exact Hin.
  - apply NoDup_map_filter. exact Hjids.
  - intros j Hj. apply filter_In in Hj as [Hj _]. apply Hjseq. exact Hj.
Qed.

Lemma store_ok_deleteEntry id : stmt_preserves store_ok (Sql.deleteEntry id).
Proof.
  intros t t' H Hok. unfold Sql.deleteEntry in H.
  destruct (existsb _ (library t) && has_job id t) eqn:Efk; [discriminate |].
  inversion H; subst t'. clear H.
  destruct Hok as [Hids Hpaths Hhashes Hseq Hrefs Hfk Hjids Hjseq Hc].
  constructor; cbn [library library_seq jobs jobs_seq]; auto.
  - apply NoDup_map_filter. exact Hids.
  - apply NoDup_map_filter. exact Hpaths.
  - apply NoDup_map_filter. exact Hhashes.
  - intros r Hr. apply filter_In in Hr as [Hr _]. apply Hseq. exact Hr.
  - intros id' Hin. unfold job_refs in *. cbn [jobs] in *.
    pose proof (Hfk id' Hin) as Hrow.
    apply in_map_iff in Hrow as [r [Hid Hr]].
    apply in_map_iff. exists r. split; [exact Hid |].
    apply filter_In. split; [exact Hr |].
    apply negb_true_iff, Z.eqb_neq. intros Heq.
    apply andb_false_iff in Efk as [Eno|Eno].
    + rewrite existsb_false in Eno. specialize (Eno r Hr).
      apply Z.eqb_neq in Eno. contradiction.
    + apply has_job_false in Eno. apply Eno. unfold job_refs. congruence.
Qed.

Lemma store_ok_updateEntry path tr hash id :
  stmt_preserves store_ok (Sql.updateEntry path tr hash id).
Proof.
  intros t t' H Hok. unfold Sql.updateEntry in H.
  destruct (existsb _ (library t) && existsb _ (library t)) eqn:Econf;
    [discriminate |].
  inversion H; subst t'. clear H.
  destruct Hok as [Hids Hpaths Hhashes Hseq Hrefs Hfk Hjids Hjseq Hc].
  set (g := fun r => if ID r =? id
                     then mkEntry (ID r) path (Discovered r) tr hash else r).
  assert (HgID : forall r, ID (g r) = ID r).
  { intros r. unfold g. destruct (ID r =? id); reflexivity. }
  assert (Hmiss : forall r, ID r <> id -> g r = r).
  { intros r Hr. unfold g. apply Z.eqb_neq in Hr. rewrite Hr. reflexivity. }
  destruct (existsb (fun r => ID r =? id) (library t)) eqn:Erow.
  - cbn in Econf. rewrite existsb_false in Econf.
    assert (Hfree : forall r, List.In r (library t) -> ID r <> id ->
                              Path r <> path /\ Hash r <> hash).
    { intros r Hr Hne. specialize (Econf r Hr).
      apply Z.eqb_neq in Hne. rewrite Hne in Econf. cbn in Econf.
      apply orb_false_iff in Econf as [E1 E2].
      apply String.eqb_neq in E1. apply Z.eqb_neq in E2. auto. }
    constructor; cbn [library library_seq jobs jobs_seq]; auto.
    + rewrite map_ID_update by exact HgID. exact Hids.
    + apply (NoDup_map_update Path g id path); auto.
      * intros r Hr. unfold g. apply Z.eqb_eq in Hr. rewrite Hr. reflexivity.
      * intros r Hr Hne. apply Hfree; assumption.
    + apply (NoDup_map_update Hash g id hash); auto.
      * intros r Hr. unfold g. apply Z.eqb_eq in Hr. rewrite Hr. reflexivity.
      * intros r Hr Hne. apply Hfree; assumption.
    + intros r Hr. apply in_map_iff in Hr as [r0 [<- Hr0]].
      rewrite HgID. apply Hseq. exact Hr0.
    + intros id' Hin. rewrite map_ID_update by exact HgID. apply Hfk. exact Hin.
  - rewrite existsb_false in Erow.
    assert (Hsame : map g (library t) = library t).
    { apply map_unchanged. intros r Hr. apply Hmiss.
      apply Z.eqb_neq. apply Erow. exact Hr. }
    fold g. rewrite Hsame.
    constructor; cbn [library library_seq jobs jobs_seq]; auto.
Qed.

Lemma store_ok_upsertEntry path disc tr hash :
  stmt_preserves store_ok (Sql.upsertEntry path disc tr hash).
Proof.
  intros t t' H Hok. unfold Sql.upsertEntry in H.
  destruct Hok as [Hids Hpaths Hhashes Hseq Hrefs Hfk Hjids Hjseq [Hc1 Hc2]].
  destruct (List.find _ (library t)) as [old|] eqn:Efind.
  - destruct (String.eqb (Path old) path).
    + inversion H; subst t'. clear H.
      constructor; cbn [library library_seq jobs jobs_seq]; auto.
      * intros r Hr. apply Hseq in Hr. lia.
      * lia.
    + destruct (existsb _ (library t)) eqn:Epath; [discriminate |].
      inversion H; subst t'. clear H.
      rewrite existsb_false in Epath.
      set (g := fun r => if ID r =? ID old then withPath r path else r).
      assert (HgID : forall r, ID (g r) = ID r).
      { intros r. unfold g. destruct (ID r =? ID old); reflexivity. }
      assert (HgHash : forall r, Hash (g r) = Hash r).
      { intros r. unfold g. destruct (ID r =? ID old); reflexivity. }
      constructor; cbn [library library_seq jobs jobs_seq]; auto.
      * rewrite map_ID_update by exact HgID. exact Hids.
      * apply (NoDup_map_update Path g (ID old) path); auto.
        -- intros r Hr. unfold g. apply Z.eqb_eq in Hr. rewrite Hr. reflexivity.
        -- intros r Hr. unfold g. apply Z.eqb_neq in Hr. rewrite Hr. reflexivity.
        -- intros r Hr _. apply String.eqb_neq. apply Epath. exact Hr.
      * rewrite map_map. rewrite (map_ext _ Hash) by exact HgHash. exact Hhashes.
      * intros r Hr. apply in_map_iff in Hr as [r0 [<- Hr0]].
        rewrite HgID. apply Hseq in Hr0. lia.
      * intros id' Hin. rewrite map_ID_update by exact HgID. apply Hfk, Hin.
      * lia.
  - destruct (existsb _ (library t)) eqn:Efk; [discriminate |].
    inversion H; subst t'. clear H.
    rewrite existsb_false in Efk.
    pose proof (find_None_forall _ _ Efind) as Hnohash.
    constructor; cbn [library library_seq jobs jobs_seq]; auto.
    + rewrite map_app. apply List.NoDup_app. repeat split.
      * apply NoDup_map_filter. exact Hids.
      * repeat constructor. intros [].
      * intros x Hx [<-|[]]. apply in_map_iff in Hx as [r [Hid Hr]].
        apply filter_In in Hr as [Hr _]. apply Hseq in Hr. cbn in Hid. lia.
    + rewrite map_app. apply List.NoDup_app. repeat split.
      * apply NoDup_map_filter. exact Hpaths.
      * repeat constructor. intros [].
      * intros x Hx [<-|[]]. apply in_map_iff in Hx as [r [Hp Hr]].
        apply filter_In in Hr as [_ Hne].
        apply negb_true_iff, String.eqb_neq in Hne. cbn in Hp. congruence.
    + rewrite map_app. apply List.NoDup_app. repeat split.
      * apply NoDup_map_filter. exact Hhashes.
      * repeat constructor. intros [].
      * intros x Hx [<-|[]]. apply in_map_iff in Hx as [r [Hh Hr]].
        apply filter_In in Hr as [Hr _].
        specialize (Hnohash r Hr). apply Z.eqb_neq in Hnohash.
        cbn in Hh. congruence.
    + intros r Hr. apply in_app_iff in Hr as [Hr|[<-|[]]].
      * apply filter_In in Hr as [Hr _]. apply Hseq in Hr. lia.
      * cbn. lia.
    + intros id' Hin. pose proof (Hfk id' Hin) as Hrow.
      apply in_map_iff in Hrow as [r [Hid Hr]].
      rewrite map_app. apply in_app_iff. left.
      apply in_map_iff. exists r. split; [exact Hid |].
      apply filter_In. split; [exact Hr |].
      specialize (Efk r Hr). apply andb_false_iff in Efk as [E|E].
      * rewrite E. reflexivity.
      * apply has_job_false in E. subst id'. contradiction.
    + lia.
Qed.

Lemma store_ok_empty : store_ok emptyTables.
Proof.
  constructor; cbn; try constructor; try (intros ? []); lia.
Qed.

Lemma reachable_store_ok (d : Database) : reachable d -> store_ok (tables d).
Proof.
  apply reachable_preserves.
  - apply store_ok_insertJob.
  - apply store_ok_deleteJob.
  - apply store_ok_deleteEntry.
  - apply store_ok_updateEntry.
  - apply store_ok_upsertEntry.
  - apply store_ok_empty.
Qed.

(** X8.  In every reachable state of the store no two library rows share
    an identifier, a path or a fingerprint, and every identifier is
    positive and at most the autoincrement counter, so that a deleted
    identifier is never handed out again. *)
Theorem library_rows_unique (d : Database) :
  reachable d ->
  List.NoDup (map ID (library (tables d))) /\
  List.NoDup (map Path (library (tables d))) /\
  List.NoDup (map Hash (library (tables d))) /\
  (forall r, List.In r (library (tables d)) ->
             0 < ID r <= library_seq (tables d)).
Proof.
  intros Hr. destruct (reachable_store_ok d Hr). auto.
Qed.

Lemma library_rows_unique_witness :
  List.NoDup (map Path (library (tables two_entries))).
Proof.
  apply (library_rows_unique two_entries).
  unfold two_entries. apply reachable_run. constructor.
Defined.

(** X9.  In every reachable state every job row refers to a library row
    that exists: no operation leaves a job behind an entry that is gone.
    Job identifiers are distinct and never reused. *)
Theorem jobs_refer_to_entries (d : Database) :
  reachable d ->
  (forall j, List.In j (jobs (tables d)) ->
             exists r, List.In r (library (tables d)) /\ ID r = library_id j) /\
  List.NoDup (map job_id (jobs (tables d))) /\
  (forall j, List.In j (jobs (tables d)) ->
             0 < job_id j <= jobs_seq (tables d)).
Proof.
  intros Hr. destruct (reachable_store_ok d Hr)
    as [_ _ _ _ _ Hfk Hjids Hjseq _].
  split; [| auto].
  intros j Hj.
  assert (Hin : List.In (library_id j) (job_refs (tables d)))
    by (apply in_map; exact Hj).
  apply Hfk in Hin. apply in_map_iff in Hin as [r [Hid Hrow]]. eauto.
Qed.

Lemma jobs_refer_to_entries_witness :
  exists r, List.In r (library (stored crashed_store)) /\ ID r = 1.
Proof.
  assert (Hr : reachable
                 (run [OpUpsert (mkEntry 0 "test.avi" 42 None 7); OpBegin 100]
                    Create)) by (apply reachable_run; constructor).
  destruct (jobs_refer_to_entries _ Hr) as [Hfk _].
  apply (Hfk (mkJob 1 1 100)). left. reflexivity.
Defined.

(** ** Remove, and claiming then releasing *)

Lemma filter_all {A} (f : A -> bool) (l : list A) :
  (forall x, List.In x l -> f x = true) -> List.filter f l = l.
Proof.
  induction l as [|a l IH]; cbn; intros H; [reflexivity |].
  rewrite (H a) by auto. rewrite IH by auto. reflexivity.
Qed.

(** X10.  [Remove] never fails: it deletes the job before the entry, so
    the foreign key cannot stand in the way.  Afterwards no row and no job
    carries the identifier; every other row and job is kept, in order; and
    removing an entry that is not in the store changes no row. *)
Theorem Remove_deletes_entry_and_job (entry : Entry) (d : Database) :
  let t := tables d in
  Remove entry d =
    (ok, mkDatabase
           (mkTables
              (List.filter (fun r => negb (ID r =? ID entry)) (library t))
              (library_seq t)
              (List.filter (fun j => negb (library_id j =? ID entry)) (jobs t))
              (jobs_seq t))
           (txns d + 1))
  /\ (forall r, List.In r (library (tables (snd (Remove entry d)))) <->
                List.In r (library t) /\ ID r <> ID entry)
  /\ (forall j, List.In j (jobs (tables (snd (Remove entry d)))) <->
                List.In j (jobs t) /\ library_id j <> ID entry)
  /\ ((forall r, List.In r (library t) -> ID r <> ID entry) ->
      has_job (ID entry) t = false ->
      library (tables (snd (Remove entry d))) = library t /\
      jobs (tables (snd (Remove entry d))) = jobs t).
Proof.
  intros t.
  assert (Heq : Remove entry d =
    (ok, mkDatabase
           (mkTables
              (List.filter (fun r => negb (ID r =? ID entry)) (library t))
              (library_seq t)
              (List.filter (fun j => negb (library_id j =? ID entry)) (jobs t))
              (jobs_seq t))
           (txns d + 1))).
  { unfold Remove, wrapTransaction, Sql.bind, removeJob, Sql.exec.
    cbn [Sql.deleteJob]. unfold Sql.deleteEntry. fold t.
    rewrite has_job_deleteJob, andb_false_r. reflexivity. }
  rewrite Heq. cbn [snd tables library jobs].
  split; [reflexivity |]. split; [| split].
  - intros r. rewrite filter_In, negb_true_iff, Z.eqb_neq. reflexivity.
  - intros j. rewrite filter_In, negb_true_iff, Z.eqb_neq. reflexivity.
  - intros Hrows Hjob. split.
    + apply filter_all. intros r Hr. apply negb_true_iff, Z.eqb_neq. auto.
    + apply filter_all. intros j Hj. apply negb_true_iff, Z.eqb_neq.
      intros Heqj. apply has_job_false in Hjob. apply Hjob.
      unfold job_refs. rewrite <- Heqj. apply in_map. exact Hj.
Qed.

Lemma Remove_deletes_entry_and_job_witness :
  library (tables (snd (Remove (mkEntry 7 EmptyString 0 None 0) two_entries)))
  = library (tables two_entries).
Proof.
  destruct (Remove_deletes_entry_and_job (mkEntry 7 EmptyString 0 None 0)
              two_entries) as (_ & _ & _ & Hsame).
  apply Hsame.
  - intros r [<-|[<-|[]]]; cbn; discriminate.
  - reflexivity.
Defined.

Lemma eligible_same_rows (t1 t2 : Tables) :
  jobs t1 = jobs t2 -> forall r, Sql.eligible t1 r = Sql.eligible t2 r.
Proof.
  intros Hj r. unfold Sql.eligible, has_job. rewrite Hj. reflexivity.
Qed.

(** The outcome of [BeginTranscoding] depends on the rows only. *)
Lemma BeginTranscoding_same_rows (now : Z) (d1 d2 : Database) :
  library (tables d1) = library (tables d2) ->
  jobs (tables d1) = jobs (tables d2) ->
  fst (BeginTranscoding now d1) = fst (BeginTranscoding now d2).
Proof.
  intros Hl Hj. rewrite !BeginTranscoding_eq.
  rewrite Hl.
  rewrite (filter_ext _ _ (eligible_same_rows (tables d1) (tables d2) Hj)).
  destruct (Sql.oldest _); reflexivity.
Qed.

(** X11.  Releasing a claim that was just granted restores the rows of
    both tables, and the next claim is granted for the same entry again. *)
Theorem claim_then_cancel (now : Z) (d : Database) (entry : Entry)
    (d1 : Database) :
  BeginTranscoding now d = (inr entry, d1) ->
  let d2 := snd (CancelTranscoding entry d1) in
  fst (CancelTranscoding entry d1) = ok /\
  library (tables d2) = library (tables d) /\
  jobs (tables d2) = jobs (tables d) /\
  forall now', fst (BeginTranscoding now' d2) = inr entry.
Proof.
  intros Hbegin d2.
  pose proof Hbegin as Hb. rewrite BeginTranscoding_eq in Hb.
  destruct (Sql.oldest _) as [r|] eqn:E; [| discriminate].
  inversion Hb; subst entry d1. clear Hb.
  pose proof E as E0.
  apply oldest_Some in E as [Hin _].
  apply filter_In in Hin as [Hin Hel].
  apply eligible_true in Hel as [_ Hno].
  assert (Hl : library (tables d2) = library (tables d)) by reflexivity.
  assert (Hj : jobs (tables d2) = jobs (tables d)).
  { subst d2. rewrite CancelTranscoding_eq. cbn [snd tables jobs claimed ID].
    rewrite List.filter_app. cbn [List.filter library_id].
    rewrite Z.eqb_refl. cbn [negb]. rewrite app_nil_r.
    apply filter_all. intros j Hj. apply negb_true_iff, Z.eqb_neq.
    intros Heqj. apply has_job_false in Hno. apply Hno.
    unfold job_refs. rewrite <- Heqj. apply in_map. exact Hj. }
  split; [reflexivity |]. split; [exact Hl |]. split; [exact Hj |].
  intros now'.
  rewrite (BeginTranscoding_same_rows now' d2 d Hl Hj).
  rewrite BeginTranscoding_eq, E0. reflexivity.
Qed.

Lemma claim_then_cancel_witness :
  fst (BeginTranscoding 9
         (snd (CancelTranscoding (mkEntry 2 "test.mp4" 0 None 16)
                 (claimed 5 (mkEntry 2 "test.mp4" 8 None 16) two_pending_a))))
  = inr (mkEntry 2 "test.mp4" 0 None 16).
Proof.
  destruct (claim_then_cancel 5 two_pending_a (mkEntry 2 "test.mp4" 0 None 16)
              (claimed 5 (mkEntry 2 "test.mp4" 8 None 16) two_pending_a)
              eq_refl) as (_ & _ & _ & Hagain).
  apply Hagain.
Defined.

(** ** A completed entry is never claimed again *)

Section CompletionPreserved.

Variable P : Tables -> Prop.

Hypothesis P_insertJob : forall id now, stmt_preserves P (Sql.insertJob id now).
Hypothesis P_deleteJob : forall id, stmt_preserves P (Sql.deleteJob id).
Hypothesis P_deleteEntry : forall id, stmt_preserves P (Sql.deleteEntry id).
Hypothesis P_complete :
  forall path now hash id,
    stmt_preserves P (Sql.updateEntry path (Some now) hash id).
Hypothesis P_upsertEntry :
  forall path disc tr hash, stmt_preserves P (Sql.upsertEntry path disc tr hash).

Lemma CompleteTranscoding_keeps fs now entry d :
  P (tables d) -> P (tables (snd (CompleteTranscoding fs now entry d))).
Proof.
  unfold CompleteTranscoding. destruct (Fs.HashFile fs (Path entry)); [auto |].
  apply wrapTransaction_preserves, bind_preserves.
  - apply exec_preserves, P_complete.
  - intros _. apply exec_preserves, P_deleteJob.
Qed.

Lemma recoverJob_keeps now entry fs d :
  P (tables d) -> P (tables (snd (recoverJob now entry fs d))).
Proof.
  intros Hd. unfold recoverJob. destruct (looksCompleted fs entry).
  - rewrite completeIncompleteJob_eq. cbn [snd].
    apply CompleteTranscoding_keeps. exact Hd.
  - rewrite rollbackIncompleteJob_eq. cbn [snd tables].
    apply (P_deleteJob (ID entry) (tables d)); [reflexivity | exact Hd].
Qed.

Lemma forRows_keeps clock rows :
  forall i fs d, P (tables d) -> P (tables (snd (forRows clock i rows fs d))).
Proof.
  induction rows as [|entry rest IH]; intros i fs d Hd; cbn [forRows].
  - exact Hd.
  - pose proof (recoverJob_keeps (clock i) entry fs d Hd) as H.
    destruct (recoverJob (clock i) entry fs d) as [[[e|u] fs'] d'].
    + exact H.
    + apply IH. exact H.
Qed.

Lemma apply_op_keeps op d : P (tables d) -> P (tables (apply_op op d)).
Proof.
  destruct op; cbn [apply_op].
  - apply Upsert_preserves, P_upsertEntry.
  - apply Remove_preserves; [apply P_deleteJob | apply P_deleteEntry].
  - apply BeginTranscoding_preserves, P_insertJob.
  - apply CompleteTranscoding_keeps.
  - apply cancelTranscoding_preserves, P_deleteJob.
  - apply wrapTransaction_preserves, exec_preserves, P_insertJob.
  - rewrite recoverIncompleteJobs_eq. apply forRows_keeps.
Qed.

Lemma run_keeps ops : forall d, P (tables d) -> P (tables (run ops d)).
Proof.
  induction ops as [|op ops IH]; intros d Hd; cbn; [exact Hd |].
  apply IH, apply_op_keeps, Hd.
Qed.

End CompletionPreserved.

Section MarkedTranscoded.

Variable id : Z.

Lemma marked_insertJob lib_id now :
  stmt_preserves (marked_transcoded id) (Sql.insertJob lib_id now).
Proof.
  intros t t' H Ht. apply insertJob_inr in H as [_ ->]. exact Ht.
Qed.

Lemma marked_deleteJob lib_id :
  stmt_preserves (marked_transcoded id) (Sql.deleteJob lib_id).
Proof. intros t t' H Ht. inversion H; subst. exact Ht. Qed.

Lemma marked_deleteEntry lib_id :
  stmt_preserves (marked_transcoded id) (Sql.deleteEntry lib_id).
Proof.
  intros t t' H [Hrows Hseq]. unfold Sql.deleteEntry in H.
  destruct (_ && _); [discriminate |]. inversion H; subst. clear H.
  split; [| exact Hseq]. cbn [library].
  intros r Hr. apply filter_In in Hr as [Hr _]. apply Hrows. exact Hr.
Qed.

Lemma marked_complete path now hash lib_id :
  stmt_preserves (marked_transcoded id)
    (Sql.updateEntry path (Some now) hash lib_id).
Proof.
  intros t t' H [Hrows Hseq]. unfold Sql.updateEntry in H.
  destruct (_ && _); [discriminate |]. inversion H; subst. clear H.
  split; [| exact Hseq]. cbn [library].
  intros r Hr Hid. apply in_map_iff in Hr as [r0 [Hg Hr0]].
  destruct (ID r0 =? lib_id) eqn:E; subst r.
  - cbn. discriminate.
  - apply Hrows; assumption.
Qed.

Lemma marked_upsertEntry path disc tr hash :
  stmt_preserves (marked_transcoded id) (Sql.upsertEntry path disc tr hash).
Proof.
  intros t t' H [Hrows Hseq]. unfold Sql.upsertEntry in H.
  destruct (List.find _ (library t)) as [old|].
  - destruct (String.eqb (Path old) path).
    + inversion H; subst. split; [exact Hrows | cbn; lia].
    + destruct (existsb _ _); [discriminate |]. inversion H; subst. clear H.
      split; [| cbn; lia]. cbn [library].
      intros r Hr Hid. apply in_map_iff in Hr as [r0 [Hg Hr0]].
      destruct (ID r0 =? ID old); subst r; cbn in *; apply (Hrows r0); auto.
  - destruct (existsb _ _); [discriminate |]. inversion H; subst. clear H.
    split; [| cbn; lia]. cbn [library].
    intros r Hr Hid. apply in_app_iff in Hr as [Hr|[<-|[]]].
    + apply filter_In in Hr as [Hr _]. apply Hrows; assumption.
    + cbn in Hid. lia.
Qed.

End MarkedTranscoded.

(** X12.  Once [CompleteTranscoding] has succeeded for an entry of the
    store, no sequence of store operations makes that row pending again
    (its identifier is never given to another row either), and
    [BeginTranscoding] never returns it. *)
Theorem completed_entry_is_never_claimed
    (fs : Fs.FS) (now : Z) (entry : Entry) (d d1 : Database) :
  reachable d ->
  (exists r, List.In r (library (tables d)) /\ ID r = ID entry) ->
  CompleteTranscoding fs now entry d = (ok, d1) ->
  forall ops,
    (forall r, List.In r (library (tables (run ops d1))) ->
               ID r = ID entry -> Transcoded r <> None) /\
    (forall now' entry' d3,
       BeginTranscoding now' (run ops d1) = (inr entry', d3) ->
       ID entry' <> ID entry).
Proof.
  intros Hreach [r0 [Hr0 Hid0]] Hdone ops.
  assert (Hmark : marked_transcoded (ID entry) (tables d1)).
  { rewrite CompleteTranscoding_eq in Hdone.
    destruct (Fs.HashFile fs (Path entry)) as [e|h]; [discriminate |].
    destruct (update_conflicts _ _ _ _); [discriminate |].
    inversion Hdone; subst d1. clear Hdone. split.
    - cbn [tables completed library]. intros r Hr Hid.
      apply in_map_iff in Hr as [r1 [Hg Hr1]].
      destruct (ID r1 =? ID entry) eqn:E; subst r.
      + cbn. discriminate.
      + apply Z.eqb_neq in E. contradiction.
    - cbn [tables completed library_seq].
      destruct (reachable_store_ok d Hreach) as [_ _ _ Hseq _ _ _ _ _].
      apply Hseq in Hr0. lia. }
  assert (Hkept : marked_transcoded (ID entry) (tables (run ops d1))).
  { apply run_keeps; [apply marked_insertJob | apply marked_deleteJob
                     | apply marked_deleteEntry | apply marked_complete
                     | apply marked_upsertEntry | exact Hmark]. }
  destruct Hkept as [Hrows _].
  split; [exact Hrows |].
  intros now' entry' d3 Hbegin.
  rewrite BeginTranscoding_eq in Hbegin.
  destruct (Sql.oldest _) as [r|] eqn:E; [| discriminate].
  inversion Hbegin; subst entry' d3. cbn [ID].
  apply oldest_Some in E as [Hin _].
  apply filter_In in Hin as [Hin Hel].
  apply eligible_true in Hel as [Hpending _].
  intros Hid. exact (Hrows r Hin Hid Hpending).
Qed.

Lemma completed_entry_is_never_claimed_witness :
  ID (mkEntry 2 "b.mkv" 0 None 64) <> ID (mkEntry 1 "test.mp4" 0 None 0).
Proof.
  assert (Hr : reachable (createAndPopulate [mkEntry 0 "test.mp4" 8 None 16] [1]))
    by (apply reachable_run; constructor).
  assert (Hdone :
            CompleteTranscoding {[ "test.mp4" := [x30] ]} 50
              (mkEntry 1 "test.mp4" 0 None 0)
              (createAndPopulate [mkEntry 0 "test.mp4" 8 None 16] [1]) =
            (ok, snd (CompleteTranscoding {[ "test.mp4" := [x30] ]} 50
                        (mkEntry 1 "test.mp4" 0 None 0)
                        (createAndPopulate [mkEntry 0 "test.mp4" 8 None 16] [1]))))
    by (vm_compute; reflexivity).
  destruct (completed_entry_is_never_claimed
              {[ "test.mp4" := [x30] ]} 50 (mkEntry 1 "test.mp4" 0 None 0)
              _ _ Hr
              (ex_intro _ (mkEntry 1 "test.mp4" 8 None 16)
                 (conj (or_introl eq_refl) eq_refl))
              Hdone
              [OpUpsert (mkEntry 0 "b.mkv" 9 None 64)])
    as [_ Hnever].
  apply (Hnever 60 (mkEntry 2 "b.mkv" 0 None 64)
           (snd (BeginTranscoding 60
                   (run [OpUpsert (mkEntry 0 "b.mkv" 9 None 64)]
                      (snd (CompleteTranscoding {[ "test.mp4" := [x30] ]} 50
                              (mkEntry 1 "test.mp4" 0 None 0)
                              (createAndPopulate
                                 [mkEntry 0 "test.mp4" 8 None 16] [1]))))))).
  vm_compute. reflexivity.
Defined.

(** ** The recovery pass, again *)

Section RowsOfRecovery.

Variable id : Z.

Local Abbreviation absent := (fun t : Tables =>
  forall r, List.In r (library t) -> ID r <> id).



End RowsOfRecovery.




Lemma recoverJob_other_row (now : Z) (e : Entry) (fs : Fs.FS) (d : Database)
    (r : Entry) :
  ID e <> ID r ->
  List.In r (library (tables d)) ->
  List.In r (library (tables (snd (recoverJob now e fs d)))).
Proof.
  intros Hne Hr. unfold recoverJob. destruct (looksCompleted fs e).
  - rewrite completeIncompleteJob_eq, CompleteTranscoding_eq.
    cbn [snd withPath Path ID].
    destruct (Fs.HashFile _ _); cbn [snd]; [exact Hr |].
    destruct (update_conflicts _ _ _ _); cbn [snd tables]; [exact Hr |].
    cbn [completed library]. apply in_map_iff. exists r. split; [| exact Hr].
    destruct (Z.eqb_spec (ID r) (ID e)); [congruence | reflexivity].
  - rewrite rollbackIncompleteJob_eq. exact Hr.
Qed.

Lemma recoverJob_other_file (now : Z) (e : Entry) (fs : Fs.FS) (d : Database)
    (p : string) :
  p <> intermediate e -> p <> final e ->
  snd (fst (recoverJob now e fs d)) !! p = fs !! p.
Proof.
  intros Hi Hf. unfold recoverJob. destruct (looksCompleted fs e).
  - rewrite completeIncompleteJob_eq. cbn [fst snd]. unfold finalized.
    destruct (fs !! intermediate e); [| reflexivity].
    rewrite lookup_insert_ne by congruence.
    apply lookup_delete_ne. congruence.
  - rewrite rollbackIncompleteJob_eq. cbn [fst snd].
    apply lookup_delete_ne. congruence.
Qed.

Lemma forRows_untouched (clock : nat -> Z) (rows : list Entry) :
  forall i fs d,
    (forall r, List.In r (library (tables d)) ->
               (forall e, List.In e rows -> ID e <> ID r) ->
               List.In r (library (tables (snd (forRows clock i rows fs d)))))
    /\
    (forall p, (forall e, List.In e rows ->
                          p <> intermediate e /\ p <> final e) ->
               snd (fst (forRows clock i rows fs d)) !! p = fs !! p).
Proof.
  induction rows as [|a rest IH]; intros i fs d; cbn [forRows].
  - split; [intros r Hr _; exact Hr | intros p _; reflexivity].
  - pose proof (recoverJob_other_row (clock i) a fs d) as Hrow.
    pose proof (recoverJob_other_file (clock i) a fs d) as Hfile.
    destruct (recoverJob (clock i) a fs d) as [[[e|u] fs'] d'];
      cbn [fst snd] in *.
    + split.
      * intros r Hr Hids. apply Hrow; [apply Hids; left; reflexivity | exact Hr].
      * intros p Hp. apply Hfile; apply (Hp a); left; reflexivity.
    + destruct (IH (S i) fs' d') as [IHrow IHfile]. split.
      * intros r Hr Hids. apply IHrow.
        -- apply Hrow; [apply Hids; left; reflexivity | exact Hr].
        -- intros e He. apply Hids. right. exact He.
      * intros p Hp. rewrite IHfile.
        -- apply Hfile; apply (Hp a); left; reflexivity.
        -- intros e He. apply Hp. right. exact He.
Qed.

(** X14.  Whatever its outcome, the recovery pass leaves in place every
    library row that has no job, and every file whose name is neither the
    in-progress nor the final name of a row with a job. *)
Theorem recovery_touches_only_open_jobs
    (clock : nat -> Z) (fs : Fs.FS) (d : Database) :
  let outcome := recoverIncompleteJobs clock fs d in
  (forall r, List.In r (library (tables d)) ->
             has_job (ID r) (tables d) = false ->
             List.In r (library (tables (snd outcome))))
  /\
  (forall p,
     (forall e, List.In e (library (tables d)) ->
                has_job (ID e) (tables d) = true ->
                p <> intermediate e /\ p <> final e) ->
     snd (fst outcome) !! p = fs !! p).
Proof.
  cbv zeta. rewrite recoverIncompleteJobs_eq.
  destruct (forRows_untouched clock (Sql.selectIncompleteJobs (tables d))
              0%nat fs d) as [Hrow Hfile].
  split.
  - intros r Hr Hjob. apply Hrow; [exact Hr |].
    intros e He Hid. apply selectIncompleteJobs_In in He as [_ He].
    congruence.
  - intros p Hp. apply Hfile. intros e He.
    apply selectIncompleteJobs_In in He as [He Hjob]. auto.
Qed.

Lemma recovery_touches_only_open_jobs_witness :
  let d := mkDatabase
             (tables (createAndPopulate
                        [mkEntry 0 "test.avi" 42 None hash_old;
                         mkEntry 0 "other.mkv" 43 None 5] [1])) 0 in
  List.In (mkEntry 2 "other.mkv" 43 None 5)
    (library (tables (snd (recoverIncompleteJobs (fun _ => 200)
                             (test_files ["test.transcoding.mp4"]) d)))).
Proof.
  cbv zeta.
  destruct (recovery_touches_only_open_jobs (fun _ => 200)
              (test_files ["test.transcoding.mp4"])
              (mkDatabase
                 (tables (createAndPopulate
                            [mkEntry 0 "test.avi" 42 None hash_old;
                             mkEntry 0 "other.mkv" 43 None 5] [1])) 0))
    as [Hrow _].
  apply Hrow.
  - vm_compute. right. left. reflexivity.
  - vm_compute. reflexivity.
Defined.

(** ** Ingestion: [upsertEntry] *)

Lemma find_unique_hash (l : list Entry) (r : Entry) :
  List.NoDup (map Hash l) -> List.In r l ->
  List.find (fun x => Hash x =? Hash r) l = Some r.
Proof.
  induction l as [|a l IH]; cbn; intros Hnd Hin; [destruct Hin |].
  inversion Hnd as [|x l' Hnotin Hnd']; subst.
  destruct (Z.eqb_spec (Hash a) (Hash r)) as [Heq|Hne].
  - destruct Hin as [->|Hin]; [reflexivity |].
    exfalso. apply Hnotin. rewrite Heq. apply in_map. exact Hin.
  - destruct Hin as [->|Hin]; [congruence | auto].
Qed.

(** X15.  Ingesting a file that is missing fails without touching the
    store.  Ingesting a file whose content is that of a stored entry, found
    at a path that no row holds, moves that entry to the new path: no row is
    added, and the entry keeps its identifier, discovery time, completion
    time and fingerprint, whatever the incoming values are. *)
Theorem upsertEntry_follows_moved_file
    (fs : Fs.FS) (d : Database) (entry r : Entry) :
  (fs !! Path entry = None ->
     Cmd.upsertEntry fs d entry = (inl (ErrNotExist (Path entry)), d))
  /\
  (reachable d ->
   List.In r (library (tables d)) ->
   Fs.HashFile fs (Path entry) = inr (Hash r) ->
   Path r <> Path entry ->
   (forall x, List.In x (library (tables d)) -> Path x <> Path entry) ->
   Cmd.upsertEntry fs d entry =
     (ok, mkDatabase
            (mkTables
               (map (fun x => if ID x =? ID r
                              then withPath x (Path entry) else x)
                  (library (tables d)))
               (library_seq (tables d) + 1) (jobs (tables d))
               (jobs_seq (tables d)))
            (txns d + 1))).
Proof.
  split.
  - intros Hnone. unfold Cmd.upsertEntry, Fs.HashFile. rewrite Hnone.
    reflexivity.
  - intros Hreach Hr Hhash Hpath Hfree.
    unfold Cmd.upsertEntry. rewrite Hhash. rewrite Upsert_tables.
    cbn [Path Discovered Transcoded Hash].
    destruct (reachable_store_ok d Hreach) as [_ _ Hhashes _ _ _ _ _ _].
    rewrite (upsertEntry_conflict _ _ _ _ _ r (find_unique_hash _ r Hhashes Hr)).
    apply String.eqb_neq in Hpath. rewrite Hpath.
    assert (existsb (fun x => String.eqb (Path x) (Path entry))
              (library (tables d)) = false) as ->; [| reflexivity].
    apply existsb_false. intros x Hx. apply String.eqb_neq. auto.
Qed.

Lemma upsertEntry_follows_moved_file_witness :
  Cmd.upsertEntry {[ "moved.mp4" := [x30] ]}
    (createAndPopulate [mkEntry 0 "test.mp4" 8 (Some 9) hash_0] [])
    (mkEntry 0 "moved.mp4" 77 None 0)
  = (ok, mkDatabase
           (mkTables [mkEntry 1 "moved.mp4" 8 (Some 9) hash_0] 2 [] 0) 2).
Proof.
  destruct (upsertEntry_follows_moved_file {[ "moved.mp4" := [x30] ]}
              (createAndPopulate [mkEntry 0 "test.mp4" 8 (Some 9) hash_0] [])
              (mkEntry 0 "moved.mp4" 77 None 0)
              (mkEntry 1 "test.mp4" 8 (Some 9) hash_0)) as [_ Hmoved].
  rewrite Hmoved.
  - reflexivity.
  - apply reachable_run. constructor.
  - left. reflexivity.
  - vm_compute. reflexivity.
  - cbn. discriminate.
  - intros x [<-|[]]. cbn. discriminate.
Defined.

(** X16.  Ingesting the file of an entry again after its transcoding was
    completed changes no row: the entry stays transcoded and is not queued
    a second time, whatever completion value the incoming entry carries. *)
Theorem reingest_after_completion
    (fs : Fs.FS) (now : Z) (entry incoming : Entry) (d d1 : Database) :
  (exists r, List.In r (library (tables d)) /\ ID r = ID entry) ->
  CompleteTranscoding fs now entry d = (ok, d1) ->
  Path incoming = Path entry ->
  fst (Cmd.upsertEntry fs d1 incoming) = ok /\
  library (tables (snd (Cmd.upsertEntry fs d1 incoming))) = library (tables d1) /\
  jobs (tables (snd (Cmd.upsertEntry fs d1 incoming))) = jobs (tables d1).
Proof.
  intros [r0 [Hr0 Hid0]] Hdone Hpath.
  rewrite CompleteTranscoding_eq in Hdone.
  destruct (Fs.HashFile fs (Path entry)) as [e|h] eqn:Ehash; [discriminate |].
  destruct (update_conflicts _ _ _ _) eqn:Econf; [discriminate |].
  inversion Hdone; subst d1. clear Hdone.
  unfold Cmd.upsertEntry. rewrite Hpath, Ehash, Upsert_tables.
  cbn [Path Discovered Transcoded Hash tables txns].
  set (g := fun r => if ID r =? ID entry
                     then mkEntry (ID r) (Path entry) (Discovered r)
                            (Some now) h
                     else r).
  assert (Hothers : forall r, List.In r (library (tables d)) ->
                              ID r <> ID entry -> Hash r <> h).
  { unfold update_conflicts in Econf.
    apply andb_false_iff in Econf as [E|E].
    - rewrite existsb_false in E. specialize (E r0 Hr0).
      apply Z.eqb_neq in E. contradiction.
    - rewrite existsb_false in E. intros r Hr Hne. specialize (E r Hr).
      apply Z.eqb_neq in Hne. rewrite Hne in E. cbn in E.
      apply orb_false_iff in E as [_ E]. apply Z.eqb_neq in E. exact E. }
  destruct (List.find (fun r => Hash r =? h)
              (library (completed (Path entry) now h (ID entry) (tables d))))
    as [x|] eqn:Efind.
  - assert (Hx : Path x = Path entry).
    { apply find_some in Efind as [Hin Hh]. apply Z.eqb_eq in Hh.
      cbn [completed library] in Hin.
      apply in_map_iff in Hin as [r [Hg Hr]]. fold g in Hg.
      unfold g in Hg. destruct (Z.eqb_spec (ID r) (ID entry)) as [E|E].
      - subst x. reflexivity.
      - subst x. exfalso. exact (Hothers r Hr E Hh). }
    unfold Sql.upsertEntry. rewrite Efind.
    apply String.eqb_eq in Hx. rewrite Hx. cbn. auto.
  - exfalso.
    pose proof (find_none _ _ Efind (g r0)) as Hn.
    assert (Hin : List.In (g r0)
                    (library (completed (Path entry) now h (ID entry) (tables d))))
      by (cbn [completed library]; apply in_map; exact Hr0).
    specialize (Hn Hin). unfold g in Hn.
    apply Z.eqb_eq in Hid0. rewrite Hid0 in Hn. cbn in Hn.
    rewrite Z.eqb_refl in Hn. discriminate.
Qed.

Lemma reingest_after_completion_witness :
  let d := createAndPopulate [mkEntry 0 "test.mp4" 8 None 16] [1] in
  let fs : Fs.FS := {[ "test.mp4" := [x30] ]} in
  library (tables (snd (Cmd.upsertEntry fs
                          (snd (CompleteTranscoding fs 50
                                  (mkEntry 1 "test.mp4" 0 None 0) d))
                          (mkEntry 0 "test.mp4" 60 None 0))))
  = [mkEntry 1 "test.mp4" 8 (Some 50) hash_0].
Proof.
  cbv zeta.
  destruct (reingest_after_completion {[ "test.mp4" := [x30] ]} 50
              (mkEntry 1 "test.mp4" 0 None 0) (mkEntry 0 "test.mp4" 60 None 0)
              (createAndPopulate [mkEntry 0 "test.mp4" 8 None 16] [1])
              (snd (CompleteTranscoding {[ "test.mp4" := [x30] ]} 50
                      (mkEntry 1 "test.mp4" 0 None 0)
                      (createAndPopulate [mkEntry 0 "test.mp4" 8 None 16] [1]))))
    as (_ & Hrows & _).
  - exists (mkEntry 1 "test.mp4" 8 None 16). split; [left |]; reflexivity.
  - vm_compute. reflexivity.
  - reflexivity.
  - rewrite Hrows. vm_compute. reflexivity.
Defined.

(** ** Transcoding: [transcodeEntry] *)

Lemma intermediate_ne_path (entry : Entry) : intermediate entry <> Path entry.
Proof.
  unfold intermediate, Fs.ReplaceExtension. intros H.
  rewrite <- (TrimSuffix_Ext (Path entry)) in H at 3.
  apply append_inj_l in H. symmetry in H.
  exact (Ext_not_TranscodingExtension (Path entry) H).
Qed.

Lemma CompleteTranscoding_ext (fs : Fs.FS) (now : Z) (e1 e2 : Entry)
    (d : Database) :
  Path e1 = Path e2 -> ID e1 = ID e2 ->
  CompleteTranscoding fs now e1 d = CompleteTranscoding fs now e2 d.
Proof.
  intros Hp Hi. rewrite !CompleteTranscoding_eq, Hp, Hi. reflexivity.
Qed.

(** The steps of [transcodeEntry] once the tool has succeeded and left
    both the source and its output in place. *)
Lemma transcodeEntry_steps transcodeFunc now fs d entry fs1 u :
  transcodeFunc (Path entry) fs = (inr u, fs1) ->
  fs1 !! Path entry <> None ->
  fs1 !! intermediate entry <> None ->
  let fs3 := finalized entry (delete (Path entry) fs1) in
  Cmd.transcodeEntry transcodeFunc now fs d entry =
    (fst (CompleteTranscoding fs3 now (withPath entry (final entry)) d),
     fs3,
     snd (CompleteTranscoding fs3 now (withPath entry (final entry)) d)).
Proof.
  intros Htool Hsrc Hout fs3.
  unfold Cmd.transcodeEntry. rewrite Htool.
  unfold Fs.Remove. destruct (fs1 !! Path entry) as [src|] eqn:Esrc;
    [| contradiction].
  unfold Fs.Rename. fold (intermediate entry). fold (final entry).
  assert (Hkeep : delete (Path entry) fs1 !! intermediate entry
                  = fs1 !! intermediate entry).
  { apply lookup_delete_ne. intros H. symmetry in H.
    exact (intermediate_ne_path entry H). }
  subst fs3. unfold finalized. rewrite Hkeep.
  destruct (fs1 !! intermediate entry) as [out|]; [| contradiction].
  destruct (CompleteTranscoding _ _ _ _). reflexivity.
Qed.

(** X17.  When the tool succeeds and leaves the source and its output in
    place, [transcodeEntry] removes the source, gives the output its final
    name and completes the entry: if no other row holds the final name or
    the fingerprint of the output, the row gets the final name, that
    fingerprint and the completion time, and its job is gone. *)
Theorem transcodeEntry_completes
    (transcodeFunc : string -> Fs.FS -> result unit * Fs.FS)
    (now : Z) (fs fs1 : Fs.FS) (d : Database) (entry : Entry)
    (src out : list byte) (h : Z) :
  transcodeFunc (Path entry) fs = (ok, fs1) ->
  fs1 !! Path entry = Some src ->
  fs1 !! intermediate entry = Some out ->
  Hash.hashReader out = inr h ->
  update_conflicts (final entry) h (ID entry) (tables d) = false ->
  let fs3 := <[final entry := out]>
               (delete (intermediate entry) (delete (Path entry) fs1)) in
  Cmd.transcodeEntry transcodeFunc now fs d entry =
    (ok, fs3,
     mkDatabase (completed (final entry) now h (ID entry) (tables d))
       (txns d + 1))
  /\ fs3 !! final entry = Some out
  /\ fs3 !! intermediate entry = None
  /\ (Path entry <> final entry -> fs3 !! Path entry = None)
  /\ has_job (ID entry)
       (completed (final entry) now h (ID entry) (tables d)) = false.
Proof.
  intros Htool Hsrc Hout Hh Hfree fs3.
  assert (Hkeep : delete (Path entry) fs1 !! intermediate entry = Some out).
  { rewrite lookup_delete_ne; [exact Hout |]. intros H. symmetry in H.
    exact (intermediate_ne_path entry H). }
  assert (Hfs3 : finalized entry (delete (Path entry) fs1) = fs3).
  { unfold finalized. rewrite Hkeep. reflexivity. }
  assert (Hfinal : fs3 !! final entry = Some out)
    by (apply lookup_insert_eq).
  split; [| split; [exact Hfinal | split; [| split]]].
  - rewrite (transcodeEntry_steps transcodeFunc now fs d entry fs1 tt Htool)
      by congruence.
    rewrite Hfs3, CompleteTranscoding_eq. cbn [withPath Path ID].
    unfold Fs.HashFile. rewrite Hfinal, Hh, Hfree. reflexivity.
  - subst fs3. rewrite lookup_insert_ne by (apply not_eq_sym, intermediate_ne_final).
    apply lookup_delete_eq.
  - intros Hne. subst fs3. rewrite lookup_insert_ne by congruence.
    rewrite lookup_delete_ne by (apply intermediate_ne_path).
    apply lookup_delete_eq.
  - apply has_job_completed.
Qed.

Lemma transcodeEntry_completes_witness :
  let tool := fun (path : string) (fs : Fs.FS) =>
                (ok, <["test.transcoding.mp4" := [x31]]> fs) in
  let d := createAndPopulate [mkEntry 0 "test.avi" 8 None 16] [1] in
  Cmd.transcodeEntry tool 50 {[ "test.avi" := [x30] ]} d
    (mkEntry 1 "test.avi" 0 None 16)
  = (ok, {[ "test.mp4" := [x31] ]},
     mkDatabase
       (mkTables [mkEntry 1 "test.mp4" 8 (Some 50) (Hash.Update 0 [x31])]
          1 [] 1) 3).
Proof.
  cbv zeta.
  destruct (transcodeEntry_completes
              (fun (path : string) (fs : Fs.FS) =>
                 (ok, <["test.transcoding.mp4" := [x31]]> fs))
              50 {[ "test.avi" := [x30] ]}
              (<["test.transcoding.mp4" := [x31]]> {[ "test.avi" := [x30] ]})
              (createAndPopulate [mkEntry 0 "test.avi" 8 None 16] [1])
              (mkEntry 1 "test.avi" 0 None 16) [x30] [x31]
              (Hash.Update 0 [x31])) as [Heq _].
  - reflexivity.
  - vm_compute. reflexivity.
  - vm_compute. reflexivity.
  - vm_compute. reflexivity.
  - vm_compute. reflexivity.
  - rewrite Heq. vm_compute. reflexivity.
Defined.

(** X18.  A [transcodeEntry] that fails, at whatever step, leaves the
    tables as they were: the row is untouched and the claim stays open for
    the recovery pass.  And the source is removed only after the tool has
    succeeded. *)
Theorem transcodeEntry_failure_keeps_claim
    (transcodeFunc : string -> Fs.FS -> result unit * Fs.FS)
    (now : Z) (fs : Fs.FS) (d : Database) (entry : Entry)
    (e : error) (fs' : Fs.FS) (d' : Database) :
  Cmd.transcodeEntry transcodeFunc now fs d entry = (inl e, fs', d') ->
  tables d' = tables d /\
  (forall e0 fs1, transcodeFunc (Path entry) fs = (inl e0, fs1) ->
                  e = e0 /\ fs' = fs1 /\ d' = d).
Proof.
  unfold Cmd.transcodeEntry.
  destruct (transcodeFunc (Path entry) fs) as [[e0|u] fs1].
  - intros H. inversion H; subst. split; [reflexivity |].
    intros e1 fs2 H1. inversion H1; subst. auto.
  - destruct (Fs.Remove (Path entry) fs1) as [e1|fs2].
    + intros H. inversion H; subst. split; [reflexivity |].
      intros e2 fs3 H2. discriminate.
    + destruct (Fs.Rename _ _ fs2) as [e2|fs3].
      * intros H. inversion H; subst. split; [reflexivity |].
        intros e3 fs4 H3. discriminate.
      * rewrite CompleteTranscoding_eq. cbn [withPath Path ID].
        destruct (Fs.HashFile fs3 _) as [e3|h].
        -- intros H. inversion H; subst. split; [reflexivity |].
           intros e4 fs4 H4. discriminate.
        -- destruct (update_conflicts _ _ _ _).
           ++ intros H. inversion H; subst. split; [reflexivity |].
              intros e4 fs4 H4. discriminate.
           ++ discriminate.
Qed.

Lemma transcodeEntry_failure_keeps_claim_witness :
  tables
    (snd (Cmd.transcodeEntry
            (fun (path : string) (fs : Fs.FS) =>
               (inl (ErrOther "failed to run 'ffmpeg'") : result unit, fs))
            50 {[ "test.avi" := [x30] ]}
            (createAndPopulate [mkEntry 0 "test.avi" 8 None 16] [1])
            (mkEntry 1 "test.avi" 0 None 16))) =
  tables (createAndPopulate [mkEntry 0 "test.avi" 8 None 16] [1]).
Proof.
  assert (Hfail :
            Cmd.transcodeEntry
              (fun (path : string) (fs : Fs.FS) =>
                 (inl (ErrOther "failed to run 'ffmpeg'") : result unit, fs))
              50 {[ "test.avi" := [x30] ]}
              (createAndPopulate [mkEntry 0 "test.avi" 8 None 16] [1])
              (mkEntry 1 "test.avi" 0 None 16) =
            (inl (ErrOther "failed to run 'ffmpeg'"),
             {[ "test.avi" := [x30] ]},
             snd (Cmd.transcodeEntry
                    (fun (path : string) (fs : Fs.FS) =>
                       (inl (ErrOther "failed to run 'ffmpeg'") : result unit,
                        fs))
                    50 {[ "test.avi" := [x30] ]}
                    (createAndPopulate [mkEntry 0 "test.avi" 8 None 16] [1])
                    (mkEntry 1 "test.avi" 0 None 16))))
    by reflexivity.
  exact (proj1 (transcodeEntry_failure_keeps_claim _ _ _ _ _ _ _ _ Hfail)).
Defined.

(** X19.  Recovery finishes what [transcodeEntry] had begun: if the
    process dies after the tool has succeeded and the source was removed,
    but before the output was renamed, the recovery of that row ends in the
    store and files that [transcodeEntry] would have left. *)
Theorem recovery_finishes_transcodeEntry
    (transcodeFunc : string -> Fs.FS -> result unit * Fs.FS)
    (now : Z) (fs fs1 : Fs.FS) (d : Database) (entry row : Entry) :
  transcodeFunc (Path entry) fs = (ok, fs1) ->
  fs1 !! Path entry <> None ->
  fs1 !! intermediate entry <> None ->
  ID row = ID entry ->
  Path row = Path entry ->
  recoverJob now row (delete (Path entry) fs1) d
  = Cmd.transcodeEntry transcodeFunc now fs d entry.
Proof.
  intros Htool Hsrc Hout Hid Hpath.
  rewrite (transcodeEntry_steps transcodeFunc now fs d entry fs1 tt Htool Hsrc Hout).
  assert (Hi : intermediate row = intermediate entry)
    by (unfold intermediate; rewrite Hpath; reflexivity).
  assert (Hf : final row = final entry)
    by (unfold final; rewrite Hpath; reflexivity).
  assert (Hdone : looksCompleted (delete (Path entry) fs1) row = true).
  { apply looksCompleted_iff. right. rewrite Hpath, Hi. split.
    - apply lookup_delete_eq.
    - rewrite lookup_delete_ne; [exact Hout |].
      apply not_eq_sym, intermediate_ne_path. }
  unfold recoverJob. rewrite Hdone, completeIncompleteJob_eq.
  assert (Hfin : finalized row (delete (Path entry) fs1)
                 = finalized entry (delete (Path entry) fs1))
    by (unfold finalized; rewrite Hi, Hf; reflexivity).
  rewrite Hfin, Hf.
  rewrite (CompleteTranscoding_ext _ now (withPath row (final entry))
             (withPath entry (final entry)) d eq_refl Hid).
  reflexivity.
Qed.

Lemma recovery_finishes_transcodeEntry_witness :
  let tool := fun (path : string) (fs : Fs.FS) =>
                (ok, <["test.transcoding.mp4" := [x31]]> fs) in
  let d := createAndPopulate [mkEntry 0 "test.avi" 8 None 16] [1] in
  recoverJob 50 (mkEntry 1 "test.avi" 8 None 16)
    {[ "test.transcoding.mp4" := [x31] ]} d
  = Cmd.transcodeEntry tool 50 {[ "test.avi" := [x30] ]} d
      (mkEntry 1 "test.avi" 0 None 16).
Proof.
  cbv zeta.
  assert (Hfs : ({[ "test.transcoding.mp4" := [x31] ]} : Fs.FS) =
                delete "test.avi"
                  (<["test.transcoding.mp4" := [x31]]> {[ "test.avi" := [x30] ]}))
    by (vm_compute; reflexivity).
  rewrite Hfs.
  apply (recovery_finishes_transcodeEntry
           (fun (path : string) (fs : Fs.FS) =>
              (ok, <["test.transcoding.mp4" := [x31]]> fs))
           50 {[ "test.avi" := [x30] ]}
           (<["test.transcoding.mp4" := [x31]]> {[ "test.avi" := [x30] ]})
           (createAndPopulate [mkEntry 0 "test.avi" 8 None 16] [1])
           (mkEntry 1 "test.avi" 0 None 16)
           (mkEntry 1 "test.avi" 8 None 16)).
  - reflexivity.
  - vm_compute. discriminate.
  - vm_compute. discriminate.
  - reflexivity.
  - reflexivity.
Defined.

(** ** Stopping a transcode pool *)

Lemma filter_filter {A} (f g : A -> bool) (l : list A) :
  List.filter f (List.filter g l) = List.filter (fun x => g x && f x) l.
Proof.
  induction l as [|a l IH]; cbn; [reflexivity |].
  destruct (g a); cbn; [destruct (f a) |]; rewrite IH; reflexivity.
Qed.

Lemma drainAll_cancel (queue : list Entry) :
  forall d,
    Pool.drainAll Pool.cancelTranscoding queue d =
      (ok, mkDatabase (released queue (tables d))
             (txns d + Z.of_nat (length queue))).
Proof.
  induction queue as [|entry rest IH]; intros d.
  - cbn. unfold released. cbn [existsb negb].
    rewrite filter_all by reflexivity. rewrite Z.add_0_r.
    destruct d as [[lib seq js jseq] n]. reflexivity.
  - cbn [Pool.drainAll]. unfold Pool.cancelTranscoding at 1.
    rewrite CancelTranscoding_eq. rewrite IH. f_equal. f_equal.
    + unfold released. cbn [tables library library_seq jobs jobs_seq].
      rewrite filter_filter. f_equal. apply filter_ext. intros j.
      cbn [existsb]. rewrite negb_orb. reflexivity.
    + cbn [txns length]. lia.
Qed.

(** X20.  Stopping a transcode pool in which no worker failed releases
    the claim of every queued entry, however many there are, and nothing
    else: no queued entry has a job afterwards, the jobs of all other
    entries and the library are as they were, and no error is returned. *)
Theorem Stop_releases_queued_claims (queue : list Entry) (d : Database) :
  let outcome := Pool.Stop (Pool.NewTranscodePool queue []) d in
  outcome = (ok, mkDatabase (released queue (tables d))
                   (txns d + Z.of_nat (length queue))) /\
  library (tables (snd outcome)) = library (tables d) /\
  (forall e, List.In e queue -> has_job (ID e) (tables (snd outcome)) = false) /\
  (forall j, List.In j (jobs (tables (snd outcome))) <->
             List.In j (jobs (tables d)) /\
             forall e, List.In e queue -> library_id j <> ID e).
Proof.
  cbv zeta. unfold Pool.Stop. cbn [Pool.errorStream Pool.NewTranscodePool
                                    Pool.drain Pool.entryStream].
  rewrite drainAll_cancel. cbn [snd tables].
  assert (Hjobs : forall j,
            List.In j (jobs (released queue (tables d))) <->
            List.In j (jobs (tables d)) /\
            forall e, List.In e queue -> library_id j <> ID e).
  { intros j. unfold released. cbn [jobs].
    rewrite filter_In, negb_true_iff, existsb_false.
    split; intros [Hj Hq]; (split; [exact Hj |]); intros e He.
    - apply Z.eqb_neq. auto.
    - apply Z.eqb_neq. auto. }
  split; [reflexivity |]. split; [reflexivity |]. split; [| exact Hjobs].
  intros e He. apply has_job_false. intros Hin.
  apply in_map_iff in Hin as [j [Hid Hj]]. apply Hjobs in Hj as [_ Hq].
  exact (Hq e He Hid).
Qed.

(** ** Successive claims *)

(** X21.  Claims are granted in discovery order: of two claims granted
    one after the other, the first is for a row discovered no later than
    the row of the second, and the two rows differ. *)
Theorem claims_follow_discovery_order
    (now1 now2 : Z) (d d1 d2 : Database) (e1 e2 : Entry) :
  BeginTranscoding now1 d = (inr e1, d1) ->
  BeginTranscoding now2 d1 = (inr e2, d2) ->
  exists r1 r2,
    List.In r1 (library (tables d)) /\ List.In r2 (library (tables d)) /\
    ID r1 = ID e1 /\ Path r1 = Path e1 /\
    ID r2 = ID e2 /\ Path r2 = Path e2 /\
    Discovered r1 <= Discovered r2 /\ ID e1 <> ID e2.
Proof.
  intros H1 H2. rewrite BeginTranscoding_eq in H1.
  destruct (Sql.oldest _) as [r1|] eqn:E1; [| discriminate].
  injection H1 as <- <-.
  apply oldest_Some in E1 as [Hin1 Hmin].
  rewrite BeginTranscoding_eq in H2.
  destruct (Sql.oldest _) as [r2|] eqn:E2; [| discriminate].
  injection H2 as <- <-.
  apply oldest_Some in E2 as [Hin2 _].
  apply filter_In in Hin1 as [Hin1 Hel1].
  apply filter_In in Hin2 as [Hin2 Hel2].
  cbn [claimed tables library] in Hin2.
  apply eligible_true in Hel2 as [Htr2 Hno2].
  unfold has_job in Hno2. cbn [claimed tables jobs] in Hno2.
  rewrite existsb_app in Hno2. apply orb_false_iff in Hno2 as [Hno2 Hnew].
  cbn in Hnew. rewrite orb_false_r in Hnew. apply Z.eqb_neq in Hnew.
  exists r1, r2. cbn [ID Path]. repeat split; auto.
  apply Hmin. apply filter_In. split; [exact Hin2 |].
  apply eligible_true. split; [exact Htr2 | exact Hno2].
Qed.

Lemma claims_follow_discovery_order_witness :
  exists r1 r2,
    List.In r1 (library (tables two_pending_a)) /\
    List.In r2 (library (tables two_pending_a)) /\
    ID r1 = 2 /\ Path r1 = "test.mp4"%string /\
    ID r2 = 1 /\ Path r2 = "test.avi"%string /\
    Discovered r1 <= Discovered r2 /\ 2 <> 1.
Proof.
  apply (claims_follow_discovery_order 5 6 two_pending_a
           (claimed 5 (mkEntry 2 "test.mp4" 8 None 16) two_pending_a)
           (claimed 6 (mkEntry 1 "test.avi" 32 None 64)
              (claimed 5 (mkEntry 2 "test.mp4" 8 None 16) two_pending_a))
           (mkEntry 2 "test.mp4" 0 None 16) (mkEntry 1 "test.avi" 0 None 64));
    reflexivity.
Defined.

(** ** The walk of [update] *)

(** X22.  The walk of [update] passes over every in-progress artifact,
    whatever the path it was made for and whatever extensions are
    supported; a path that it takes does not end in the in-progress
    extension and has an extension that [ContainsString] finds among the
    supported ones. *)
Theorem walk_skips_intermediate_artifacts
    (ContainsString : list string -> string -> bool) (path : string) :
  Cmd.walkSkips ContainsString
    (Fs.ReplaceExtension path Fs.TranscodingExtension) = true /\
  (Cmd.walkSkips ContainsString path = false ->
   Fs.HasSuffix path Fs.TranscodingExtension = false /\
   ContainsString Cmd.SupportedExtensions (Fs.Ext path) = true /\
   forall source, path <> Fs.ReplaceExtension source Fs.TranscodingExtension).
Proof.
  split.
  - unfold Cmd.walkSkips, Fs.ReplaceExtension.
    rewrite HasSuffix_append. reflexivity.
  - unfold Cmd.walkSkips. intros H. apply orb_false_iff in H as [Hs Hc].
    apply negb_false_iff in Hc. split; [exact Hs |]. split; [exact Hc |].
    intros source ->. unfold Fs.ReplaceExtension in Hs.
    rewrite HasSuffix_append in Hs. discriminate.
Qed.

Lemma walk_skips_intermediate_artifacts_witness :
  Fs.HasSuffix "dir/test.mkv" Fs.TranscodingExtension = false.
Proof.
  destruct (walk_skips_intermediate_artifacts
              (fun l s => existsb (String.eqb s) l) "dir/test.mkv")
    as [_ Htaken].
  apply Htaken. reflexivity.
Defined.

(** ** The claiming loop of [transcode] *)

Lemma Remove_eq (entry : Entry) (d : Database) :
  Remove entry d =
    (ok, mkDatabase
           (mkTables
              (List.filter (fun r => negb (ID r =? ID entry))
                 (library (tables d)))
              (library_seq (tables d))
              (List.filter (fun j => negb (library_id j =? ID entry))
                 (jobs (tables d)))
              (jobs_seq (tables d)))
           (txns d + 1)).
Proof.
  unfold Remove, wrapTransaction, Sql.bind, removeJob, Sql.exec.
  cbn [Sql.deleteJob]. unfold Sql.deleteEntry.
  rewrite has_job_deleteJob, andb_false_r. reflexivity.
Qed.

Lemma filter_length_le {A} (f g p : A -> bool) (l : list A) :
  (forall x, List.In x l -> p x = true -> f x = true -> g x = true) ->
  (length (List.filter f (List.filter p l)) <= length (List.filter g l))%nat.
Proof.
  induction l as [|a l IH]; intros H; cbn; [lia |].
  assert (IH' := IH (fun x Hx => H x (or_intror Hx))).
  destruct (p a) eqn:Ep; cbn.
  - destruct (f a) eqn:Ef; cbn.
    + rewrite (H a (or_introl eq_refl) Ep Ef). cbn. lia.
    + destruct (g a); cbn; lia.
  - destruct (g a); cbn; lia.
Qed.

Lemma filter_length_lt {A} (f g : A -> bool) (l : list A) (r : A) :
  (forall x, List.In x l -> f x = true -> g x = true) ->
  List.In r l -> g r = true -> f r = false ->
  (length (List.filter f l) < length (List.filter g l))%nat.
Proof.
  induction l as [|a l IH]; intros H Hin Hg Hf; [destruct Hin |].
  assert (Hle : (length (List.filter f l) <= length (List.filter g l))%nat).
  { rewrite <- (filter_all (fun _ => true) l) at 1 by reflexivity.
    apply filter_length_le. intros x Hx _ Hfx. apply H; [right |]; assumption. }
  cbn. destruct Hin as [-> | Hin].
  - rewrite Hf, Hg. cbn. lia.
  - assert (IH' := IH (fun x Hx => H x (or_intror Hx)) Hin Hg Hf).
    destruct (f a) eqn:Ef.
    + rewrite (H a (or_introl eq_refl) Ef). cbn. lia.
    + destruct (g a); cbn; lia.
Qed.

Lemma has_job_claimed (now : Z) (r : Entry) (d : Database) (id : Z) :
  has_job id (tables (claimed now r d)) =
  has_job id (tables d) || (ID r =? id).
Proof.
  unfold has_job. cbn [claimed tables jobs]. rewrite existsb_app. cbn.
  rewrite orb_false_r. reflexivity.
Qed.

Lemma eligible_count_claimed (now : Z) (r : Entry) (d : Database) :
  List.In r (library (tables d)) -> Sql.eligible (tables d) r = true ->
  (eligible_count (tables (claimed now r d)) < eligible_count (tables d))%nat.
Proof.
  intros Hin Hel. unfold eligible_count.
  change (library (tables (claimed now r d))) with (library (tables d)).
  apply filter_length_lt with (r := r); [| exact Hin | exact Hel |].
  - intros x _ Hx. apply eligible_true in Hx as [Ht Hj].
    rewrite has_job_claimed in Hj. apply orb_false_iff in Hj as [Hj _].
    apply eligible_true. auto.
  - unfold Sql.eligible. destruct (Transcoded r); [reflexivity |].
    rewrite has_job_claimed, Z.eqb_refl, orb_true_r. reflexivity.
Qed.

Lemma has_job_removed (entry : Entry) (d : Database) (id : Z) :
  id <> ID entry ->
  has_job id (tables (snd (Remove entry d))) = has_job id (tables d).
Proof.
  intros Hne. rewrite Remove_eq. cbn [snd tables]. unfold has_job.
  cbn [jobs]. induction (jobs (tables d)) as [|j js IH]; [reflexivity |].
  cbn. destruct (library_id j =? ID entry) eqn:E; cbn.
  - rewrite IH. apply Z.eqb_eq in E.
    destruct (library_id j =? id) eqn:E'; [| reflexivity].
    apply Z.eqb_eq in E'. congruence.
  - rewrite IH. reflexivity.
Qed.

Lemma eligible_count_removed (entry : Entry) (d : Database) :
  (eligible_count (tables (snd (Remove entry d))) <=
   eligible_count (tables d))%nat.
Proof.
  unfold eligible_count.
  replace (library (tables (snd (Remove entry d))))
    with (List.filter (fun r => negb (ID r =? ID entry)) (library (tables d)))
    by (rewrite Remove_eq; reflexivity).
  apply filter_length_le. intros x _ Hp Hx.
  apply negb_true_iff, Z.eqb_neq in Hp.
  apply eligible_true in Hx as [Ht Hj]. rewrite has_job_removed in Hj by exact Hp.
  apply eligible_true. auto.
Qed.

Lemma NoDup_map_inj {A B} (f : A -> B) (l : list A) (x y : A) :
  List.NoDup (map f l) -> List.In x l -> List.In y l -> f x = f y -> x = y.
Proof.
  induction l as [|a l IH]; cbn; intros Hnd Hx Hy Heq; [destruct Hx |].
  inversion Hnd as [|? ? Hnotin Hnd']; subst.
  destruct Hx as [-> | Hx], Hy as [-> | Hy]; auto.
  - exfalso. apply Hnotin. rewrite Heq. apply in_map. exact Hy.
  - exfalso. apply Hnotin. rewrite <- Heq. apply in_map. exact Hx.
Qed.

Lemma no_rows_when_none_eligible (now : Z) (d : Database) :
  eligible_count (tables d) = 0%nat ->
  BeginTranscoding now d =
    (inl ErrQueryReturnedNoRows, mkDatabase (tables d) (txns d + 1)).
Proof.
  unfold eligible_count. intros H. rewrite BeginTranscoding_eq.
  apply length_zero_iff_nil in H. rewrite H. reflexivity.
Qed.

Lemma claimEntries_spec (fs : Fs.FS) (n : nat) (fuel : nat) :
  forall (clock : nat -> Z) (i : nat) (entries : list Entry) (d : Database),
    reachable d ->
    (eligible_count (tables d) < fuel)%nat ->
    collected_ok fs entries d ->
    exists entries' d',
      Cmd.claimEntries fuel clock i fs n entries d = Some (inr entries', d') /\
      reachable d' /\
      collected_ok fs entries' d' /\
      (length entries' = n \/ eligible_count (tables d') = 0%nat) /\
      ((length entries <= n)%nat -> (length entries' <= n)%nat) /\
      (forall r, List.In r (library (tables d)) ->
                 Fs.PathExists fs (Path r) = true ->
                 List.In r (library (tables d'))) /\
      (forall r, List.In r (library (tables d')) ->
                 List.In r (library (tables d))).
Proof.
  induction fuel as [|fuel IH]; intros clock i entries d Hreach Hfuel Hok;
    [lia |].
  cbn [Cmd.claimEntries].
  destruct (length entries =? n)%nat eqn:Elen.
  { apply Nat.eqb_eq in Elen. exists entries, d.
    split; [reflexivity |]. split; [exact Hreach |]. split; [exact Hok |].
    split; [left; exact Elen |]. split; [auto |]. split; auto. }
  apply Nat.eqb_neq in Elen.
  assert (Hreach1 : reachable (snd (BeginTranscoding (clock i) d)))
    by exact (reach_op (OpBegin (clock i)) d Hreach).
  rewrite BeginTranscoding_eq in Hreach1 |- *.
  destruct (Sql.oldest _) as [r|] eqn:Eo.
  - apply oldest_Some in Eo as [Hin _].
    apply filter_In in Hin as [Hin Hel].
    cbn [snd] in Hreach1. cbn [Path].
    assert (Hcount := eligible_count_claimed (clock i) r d Hin Hel).
    assert (Hnojob : has_job (ID r) (tables d) = false)
      by (apply eligible_true in Hel; tauto).
    destruct Hok as [Hall Hnd].
    destruct (Fs.PathExists fs (Path r)) eqn:Ep; cbn [negb].
    + (* the file is there: the entry is collected *)
      destruct (IH clock (S i)
                  (entries ++ [mkEntry (ID r) (Path r) 0 None (Hash r)])
                  (claimed (clock i) r d) Hreach1)
        as [entries' [d' [Hrun [Hr' [Hok' [Hstop [Hlen [Hkeep Hsub]]]]]]]].
      * lia.
      * split.
        -- intros e He. apply in_app_or in He as [He | [<- | []]].
           ++ destruct (Hall e He) as [H1 H2]. split; [exact H1 |].
              rewrite has_job_claimed, H2. reflexivity.
           ++ cbn [Path ID]. split; [exact Ep |].
              rewrite has_job_claimed, Z.eqb_refl, orb_true_r. reflexivity.
        -- rewrite map_app. cbn [map ID]. apply List.NoDup_app.
           ++ exact Hnd.
           ++ repeat constructor. intros [].
           ++ intros id Hid [<- | []].
              apply in_map_iff in Hid as [e [Heq He]].
              destruct (Hall e He) as [_ H2]. congruence.
      * exists entries', d'. split; [exact Hrun |]. split; [exact Hr' |].
        split; [exact Hok' |]. split; [exact Hstop |]. split.
        -- intros Hle. apply Hlen. rewrite length_app. cbn. lia.
        -- split; [exact Hkeep | exact Hsub].
    + (* the file is gone: the row is removed *)
      set (entry := mkEntry (ID r) (Path r) 0 None (Hash r)).
      set (d1 := claimed (clock i) r d) in *.
      assert (Hreach2 : reachable (snd (Remove entry d1)))
        by exact (reach_op (OpRemove entry) d1 Hreach1).
      assert (Hcount2 := eligible_count_removed entry d1).
      assert (Hlib2 : forall x,
                List.In x (library (tables (snd (Remove entry d1)))) <->
                List.In x (library (tables d)) /\ ID x <> ID r).
      { intros x. rewrite Remove_eq. cbn [snd tables library].
        rewrite filter_In, negb_true_iff, Z.eqb_neq. reflexivity. }
      destruct (Remove entry d1) as [res d2] eqn:Erem.
      assert (res = ok) by (rewrite Remove_eq in Erem; congruence). subst res.
      cbn [snd] in *. unfold ok.
      destruct (IH clock (S i) entries d2 Hreach2)
        as [entries' [d' [Hrun [Hr' [Hok' [Hstop [Hlen [Hkeep Hsub]]]]]]]].
      * lia.
      * split; [| exact Hnd]. intros e He.
        destruct (Hall e He) as [H1 H2]. split; [exact H1 |].
        replace d2 with (snd (Remove entry d1)) by (rewrite Erem; reflexivity).
        rewrite has_job_removed.
        -- unfold d1. rewrite has_job_claimed, H2. reflexivity.
        -- cbn [entry ID]. congruence.
      * exists entries', d'. split; [exact Hrun |]. split; [exact Hr' |].
        split; [exact Hok' |]. split; [exact Hstop |]. split; [exact Hlen |].
        split.
        -- intros x Hx Hfile. apply Hkeep; [| exact Hfile].
           apply Hlib2. split; [exact Hx |]. intros Hid.
           assert (x = r).
           { apply (NoDup_map_inj ID (library (tables d))); auto.
             apply ok_ids. apply reachable_store_ok. exact Hreach. }
           congruence.
        -- intros x Hx. apply Hsub in Hx. apply Hlib2 in Hx. tauto.
  - cbn [snd] in Hreach1.
    exists entries, (mkDatabase (tables d) (txns d + 1)).
    split; [reflexivity |]. split; [exact Hreach1 |]. split; [exact Hok |].
    split.
    + right. cbn [tables]. unfold eligible_count.
      apply oldest_None in Eo. rewrite Eo. reflexivity.
    + split; [auto |]. split; auto.
Qed.

(** X23.  The loop of [transcode] that claims its entries ends, within as
    many iterations as the library has rows plus one, and without an
    error.  It stops with [n] entries, or with fewer and nothing left to
    claim.  Every entry it returns has its file on disk and holds a claim,
    no entry is returned twice, and the only rows that it deletes from the
    library are rows whose file is gone. *)
Theorem claimEntries_collects
    (clock : nat -> Z) (fs : Fs.FS) (n fuel : nat) (d : Database) :
  reachable d ->
  (length (library (tables d)) < fuel)%nat ->
  exists entries d',
    Cmd.claimEntries fuel clock 0 fs n [] d = Some (inr entries, d') /\
    (length entries <= n)%nat /\
    (length entries = n \/
     forall now, fst (BeginTranscoding now d') = inl ErrQueryReturnedNoRows) /\
    (forall e, List.In e entries ->
               Fs.PathExists fs (Path e) = true /\
               has_job (ID e) (tables d') = true) /\
    List.NoDup (map ID entries) /\
    (forall r, List.In r (library (tables d')) ->
               List.In r (library (tables d))) /\
    (forall r, List.In r (library (tables d)) ->
               Fs.PathExists fs (Path r) = true ->
               List.In r (library (tables d'))).
Proof.
  intros Hreach Hfuel.
  destruct (claimEntries_spec fs n fuel clock 0%nat [] d Hreach)
    as [entries [d' [Hrun [_ [[Hall Hnd] [Hstop [Hlen [Hkeep Hsub]]]]]]]].
  - unfold eligible_count.
    pose proof (List.filter_length_le (Sql.eligible (tables d))
                  (library (tables d))). lia.
  - split; [intros e [] | constructor].
  - exists entries, d'. split; [exact Hrun |]. split; [apply Hlen; cbn; lia |].
    split.
    + destruct Hstop as [Hn | Hnone]; [left; exact Hn | right].
      intros now. rewrite no_rows_when_none_eligible by exact Hnone.
      reflexivity.
    + repeat split; auto; apply Hall; assumption.
Qed.

Lemma claimEntries_collects_witness :
  exists entries d',
    Cmd.claimEntries 3 (fun _ => 100) 0 {[ "b.mkv" := [x31] ]} 2 []
      (createAndPopulate [mkEntry 0 "a.avi" 8 None 16;
                          mkEntry 0 "b.mkv" 9 None 32] []) =
      Some (inr entries, d') /\
    (length entries <= 2)%nat /\
    (length entries = 2%nat \/
     forall now, fst (BeginTranscoding now d') = inl ErrQueryReturnedNoRows) /\
    (forall e, List.In e entries ->
               Fs.PathExists {[ "b.mkv" := [x31] ]} (Path e) = true /\
               has_job (ID e) (tables d') = true) /\
    List.NoDup (map ID entries) /\
    (forall r, List.In r (library (tables d')) ->
               List.In r (library (tables
                 (createAndPopulate [mkEntry 0 "a.avi" 8 None 16;
                                     mkEntry 0 "b.mkv" 9 None 32] [])))) /\
    (forall r, List.In r (library (tables
                 (createAndPopulate [mkEntry 0 "a.avi" 8 None 16;
                                     mkEntry 0 "b.mkv" 9 None 32] []))) ->
               Fs.PathExists {[ "b.mkv" := [x31] ]} (Path r) = true ->
               List.In r (library (tables d'))).
Proof.
  apply (claimEntries_collects (fun _ => 100) {[ "b.mkv" := [x31] ]} 2 3
           (createAndPopulate [mkEntry 0 "a.avi" 8 None 16;
                               mkEntry 0 "b.mkv" 9 None 32] [])).
  - apply reachable_run. constructor.
  - vm_compute. lia.
Defined.

(** The loop on that store, run: the row of the missing file is deleted
    and the other entry is collected. *)
Example claimEntries_example :
  Cmd.claimEntries 3 (fun _ => 100) 0 {[ "b.mkv" := [x31] ]} 2 []
    (createAndPopulate [mkEntry 0 "a.avi" 8 None 16;
                        mkEntry 0 "b.mkv" 9 None 32] []) =
  Some (inr [mkEntry 2 "b.mkv" 0 None 32],
        mkDatabase
          (mkTables [mkEntry 2 "b.mkv" 9 None 32] 2 [mkJob 2 2 100] 2) 6).
Proof. vm_compute. reflexivity. Qed.
